(** * Sparse/dense embedding workflows of the Qdrant scripts

    A shallow embedding of the ingestion and search glue found in
    [Qdrant/psadt_fastembed_cloud_fixed.py], [Qdrant/psadt_fastembed_cloud.py],
    [Qdrant/use_existing_collection.py] and
    [Qdrant/scripts/generate_embeddings.py].

    The scripts are sequences of calls into two libraries: fastembed (the
    embedding models) and qdrant_client (the vector store).  Both are kept
    as explicit collaborators: the embedding models and the store's
    acceptance and ranking policies are fields of an environment record,
    and the store itself is a finite map of collections that the client
    calls read and update.  Python exceptions are values of type [exn];
    a computation runs over a [world] and either returns or raises. *)

From Stdlib Require Import ZArith PrimFloat.
From stdpp Require Import base option list gmap strings pretty.

Local Open Scope string_scope.
Local Set Warnings "-register-all".

(** ** Python values *)

Definition float := PrimFloat.float.

(** JSON-shaped Python values.  A [dict] keeps its insertion order, which
    [dict.items()] and [next(iter(d.keys()))] observe. *)
Inductive value :=
| VNone
| VBool (b : bool)
| VInt (z : Z)
| VFloat (f : float)
| VStr (s : string)
| VList (l : list value)
| VDict (d : list (string * value)).

Definition dict := list (string * value).

(** [d.get(k)] *)
Fixpoint dict_get (k : string) (d : dict) : option value :=
  match d with
  | [] => None
  | (k', v) :: d' => if decide (k = k') then Some v else dict_get k d'
  end.

(** [k in d] *)
Definition dict_in (k : string) (d : dict) : bool :=
  match dict_get k d with Some _ => true | None => false end.

(** [d[k] = v]: an existing key keeps its position, a new key goes last. *)
Fixpoint dict_set (k : string) (v : value) (d : dict) : dict :=
  match d with
  | [] => [(k, v)]
  | (k', v') :: d' =>
      if decide (k = k') then (k, v) :: d' else (k', v') :: dict_set k v d'
  end.

(** [d.get(k, default)] *)
Definition dict_get_default (k : string) (default : value) (d : dict) : value :=
  match dict_get k d with Some v => v | None => default end.

(** [bool(v)] *)
Definition py_truthy (v : value) : bool :=
  match v with
  | VNone => false
  | VBool b => b
  | VInt z => negb (z =? 0)%Z
  | VFloat f => negb (PrimFloat.eqb f 0%float)
  | VStr s => negb (String.eqb s "")
  | VList l => match l with [] => false | _ => true end
  | VDict d => match d with [] => false | _ => true end
  end.

(** [isinstance(v, (str, int, float, bool))] *)
Definition is_scalar (v : value) : bool :=
  match v with
  | VBool _ | VInt _ | VFloat _ | VStr _ => true
  | VNone | VList _ | VDict _ => false
  end.

(** ** Exceptions and results *)

Inductive exn_kind :=
| KeyError
| TypeError
| AttributeError
| ValueError
| ValidationError      (* pydantic, raised by PointStruct(...) *)
| ModelError           (* fastembed: model load or inference failure *)
| NotFound             (* store: the collection does not exist *)
| Conflict             (* store: the collection already exists *)
| BadRequest           (* store: the request was rejected *)
| Unavailable          (* store: network failure or timeout *)
| SystemExit.          (* sys.exit: a BaseException, not an Exception *)

Record exn := Exn { kind : exn_kind; msg : string }.

(** What [except Exception] catches. *)
Definition is_Exception (e : exn) : bool :=
  match kind e with SystemExit => false | _ => true end.

Inductive res (A : Type) :=
| Ok (a : A)
| Raise (e : exn).
Arguments Ok {A} a.
Arguments Raise {A} e.

Definition res_bind {A B} (r : res A) (k : A -> res B) : res B :=
  match r with Ok a => k a | Raise e => Raise e end.

Fixpoint res_mapM {A B} (f : A -> res B) (l : list A) : res (list B) :=
  match l with
  | [] => Ok []
  | x :: l' =>
      res_bind (f x) (fun y => res_bind (res_mapM f l') (fun ys => Ok (y :: ys)))
  end.

(** [v[k]] for a string key [k]. *)
Definition subscript (v : value) (k : string) : res value :=
  match v with
  | VDict d =>
      match dict_get k d with
      | Some x => Ok x
      | None => Raise (Exn KeyError ("'" ++ k ++ "'"))
      end
  | VStr _ => Raise (Exn TypeError "string indices must be integers")
  | VList _ => Raise (Exn TypeError "list indices must be integers or slices, not str")
  | _ => Raise (Exn TypeError "object is not subscriptable")
  end.

(** [for x in v]: the elements [v] iterates over. *)
Definition py_iter (v : value) : res (list value) :=
  match v with
  | VList l => Ok l
  | VDict d => Ok (map (fun kv => VStr (fst kv)) d)
  | VStr s => Ok (map (fun c => VStr (String c EmptyString)) (String.list_ascii_of_string s))
  | _ => Raise (Exn TypeError "object is not iterable")
  end.

(** ** The vector store's data *)

Inductive Distance := COSINE | DOT | EUCLID.

Record VectorParams := { vp_size : Z; vp_distance : Distance }.

(** [SparseVectorParams(index=SparseIndexParams(on_disk=...))] *)
Record SparseVectorParams := { sp_on_disk : bool }.

(** The [{"indices": ..., "values": ...}] dictionary sent to the store. *)
Record SparseVector := { sv_indices : list Z; sv_values : list float }.

(** A point id: [Union[StrictInt, StrictStr]] in qdrant_client. *)
Inductive pid := IdInt (z : Z) | IdStr (s : string).

#[global] Instance pid_eq_dec : EqDecision pid.
Proof. solve_decision. Defined.

#[global] Instance pid_countable : Countable pid.
Proof.
  refine (inj_countable'
            (fun p => match p with IdInt z => inl z | IdStr s => inr s end)
            (fun x => match x with inl z => IdInt z | inr s => IdStr s end) _).
  intros []; reflexivity.
Defined.

Record PointStruct := {
  pt_id : pid;
  pt_payload : dict;
  pt_vector : option (list float);
  pt_sparse_vectors : option (string * SparseVector)
}.

Record ScoredPoint := { hit_id : pid; hit_score : float; hit_payload : dict }.

(** A collection: its configuration ([config.params.vectors] and
    [config.params.sparse_vectors], the latter in the store's key order)
    and its points by id. *)
Record collection := {
  c_vectors : VectorParams;
  c_sparse_vectors : option (list (string * SparseVectorParams));
  c_points : gmap pid PointStruct
}.

(** The requests a client issues, as the store sees them. *)
Inductive call :=
| CGetCollection (name : string)
| CCreateCollection (name : string) (vc : VectorParams)
    (sc : option (list (string * SparseVectorParams)))
| CDeleteCollection (name : string)
| CUpsert (name : string) (pts : list PointStruct)
| CSearch (name : string) (qv : option (list float))
    (qsv : option (string * SparseVector)) (limit : Z).

(** ** The embedding library *)

(** fastembed's [SparseEmbedding]: two numpy arrays. *)
Record SparseEmbedding := { se_indices : list Z; se_values : list float }.

(** What [model.embed] yields: a dense array or a [SparseEmbedding]. *)
Inductive embedding :=
| EDense (v : list float)
| ESparse (e : SparseEmbedding).

(** What a library call answers: a result, or a failure with its message. *)
Inductive answer (A : Type) :=
| Returned (a : A)
| Failed (message : string).
Arguments Returned {A} a.
Arguments Failed {A} message.

(** A library failure as the Python exception of the given kind. *)
Definition raised_as {A} (k : exn_kind) (r : answer A) : res A :=
  match r with
  | Returned a => Ok a
  | Failed s => Raise (Exn k s)
  end.

(** A loaded model with its two entry points, each applied to one text
    ([list(model.embed(text))[0]]). *)
Record model := {
  m_embed : string -> answer embedding;
  m_query_embed : string -> answer embedding
}.

(** [model.embed(text)] *)
Definition embed (m : model) (text : string) : res embedding :=
  raised_as ModelError (m_embed m text).

(** [model.query_embed(text)] *)
Definition query_embed (m : model) (text : string) : res embedding :=
  raised_as ModelError (m_query_embed m text).

(** [embedding.tolist()]: defined on arrays only. *)
Definition tolist (e : embedding) : res (list float) :=
  match e with
  | EDense v => Ok v
  | ESparse _ => Raise (Exn AttributeError "'SparseEmbedding' object has no attribute 'tolist'")
  end.

(** [{"indices": e.indices.tolist(), "values": e.values.tolist()}] *)
Definition sparse_vector_of (e : embedding) : res SparseVector :=
  match e with
  | ESparse s => Ok {| sv_indices := se_indices s; sv_values := se_values s |}
  | EDense _ => Raise (Exn AttributeError "'numpy.ndarray' object has no attribute 'indices'")
  end.

(** ** The environment: what the two libraries decide *)

Record Env := {
  (** loading the sparse model of a given name *)
  load_sparse : string -> answer model;
  (** loading the dense model of a given name *)
  load_dense : string -> answer model;
  (** whether the store accepts a point for a collection *)
  store_accepts : collection -> PointStruct -> bool;
  (** the store's ranking: the hits of a query, in the store's order *)
  store_search : collection -> option (list float) ->
                 option (string * SparseVector) -> Z -> answer (list ScoredPoint);
  (** [repr(v)], used by [str] on floats and containers *)
  py_repr : value -> string
}.

(** [SparseTextEmbedding(model_name=name)] *)
Definition SparseTextEmbedding (E : Env) (name : string) : res model :=
  raised_as ModelError (load_sparse E name).

(** [TextEmbedding(model_name=name)] *)
Definition TextEmbedding (E : Env) (name : string) : res model :=
  raised_as ModelError (load_dense E name).

(** [str(v)] as an f-string renders it. *)
Definition py_str (E : Env) (v : value) : string :=
  match v with
  | VStr s => s
  | VInt z => pretty z
  | VBool true => "True"
  | VBool false => "False"
  | VNone => "None"
  | _ => py_repr E v
  end.

(** ** Worlds and computations *)

(** The store's collections, the outcome of the coming requests ([true]:
    the request fails on the network), standard output, and the requests
    issued so far. *)
Record world := World {
  store : gmap string collection;
  faults : list bool;
  out : list string;
  calls : list call
}.

Definition M (A : Type) := world -> res A * world.

Definition ret {A} (a : A) : M A := fun w => (Ok a, w).

Definition raise {A} (e : exn) : M A := fun w => (Raise e, w).

Definition bind {A B} (m : M A) (k : A -> M B) : M B :=
  fun w => match m w with
           | (Ok a, w') => k a w'
           | (Raise e, w') => (Raise e, w')
           end.

Notation "x <- m ;; k" := (bind m (fun x => k))
  (at level 100, m at next level, right associativity).
Notation "m ;;; k" := (bind m (fun _ => k))
  (at level 100, right associativity).

Definition lift {A} (r : res A) : M A := fun w => (r, w).

(** [try: body / except Exception as e: handler e] *)
Definition try_except {A} (body : M A) (handler : exn -> M A) : M A :=
  fun w => match body w with
           | (Raise e, w') => if is_Exception e then handler e w' else (Raise e, w')
           | r => r
           end.

Definition printed (s : string) (w : world) : world :=
  {| store := store w; faults := faults w; out := out w ++ [s]; calls := calls w |}.

Definition print (s : string) : M unit := fun w => (Ok tt, printed s w).

(** [for x in l: body x] *)
Fixpoint for_each {A} (l : list A) (body : A -> M unit) : M unit :=
  match l with
  | [] => ret tt
  | x :: l' => body x ;;; for_each l' body
  end.

(** A list built by a loop that may raise. *)
Fixpoint mapM {A B} (f : A -> M B) (l : list A) : M (list B) :=
  match l with
  | [] => ret []
  | x :: l' => y <- f x ;; ys <- mapM f l' ;; ret (y :: ys)
  end.

(** ** The qdrant client *)

Definition set_store (s : gmap string collection) (w : world) : world :=
  {| store := s; faults := faults w; out := out w; calls := calls w |}.

(** Every request is recorded, then consumes one entry of the fault
    schedule; a [true] entry makes the request fail before it reaches the
    store. *)
Definition requested (c : call) (w : world) : world :=
  {| store := store w; faults := tail (faults w); out := out w;
     calls := calls w ++ [c] |}.

Definition unavailable : exn := Exn Unavailable "timed out".

Definition request (c : call) : M unit :=
  fun w =>
    (match faults w with
     | true :: _ => Raise unavailable
     | _ => Ok tt
     end, requested c w).

Definition not_found (name : string) : exn :=
  Exn NotFound ("Collection `" ++ name ++ "` doesn't exist!").

Definition conflict (name : string) : exn :=
  Exn Conflict ("Collection `" ++ name ++ "` already exists!").

Definition rejected : exn := Exn BadRequest "Wrong input".

(** [client.get_collection(name)] *)
Definition get_collection (name : string) : M collection :=
  request (CGetCollection name) ;;;
  fun w => match store w !! name with
           | Some c => (Ok c, w)
           | None => (Raise (not_found name), w)
           end.

(** [client.create_collection(name, vectors_config, sparse_vectors_config)] *)
Definition create_collection (name : string) (vc : VectorParams)
    (sc : option (list (string * SparseVectorParams))) : M bool :=
  request (CCreateCollection name vc sc) ;;;
  fun w => match store w !! name with
           | Some _ =>
               (Raise (conflict name), w)
           | None =>
               (Ok true,
                set_store (<[name := {| c_vectors := vc; c_sparse_vectors := sc;
                                        c_points := ∅ |}]> (store w)) w)
           end.

(** [client.delete_collection(name)] *)
Definition delete_collection (name : string) : M bool :=
  request (CDeleteCollection name) ;;;
  fun w => match store w !! name with
           | Some _ => (Ok true, set_store (delete name (store w)) w)
           | None => (Ok false, w)
           end.

(** The points of a collection after an upsert: each point replaces the
    one stored under its id, in request order. *)
Definition upsert_points (pts : list PointStruct) (m : gmap pid PointStruct)
    : gmap pid PointStruct :=
  foldl (fun acc p => <[pt_id p := p]> acc) m pts.

Section Client.
Variable E : Env.

(** [client.upsert(name, points)]: the request is applied as a whole or
    rejected as a whole. *)
Definition upsert (name : string) (pts : list PointStruct) : M unit :=
  request (CUpsert name pts) ;;;
  fun w => match store w !! name with
           | None => (Raise (not_found name), w)
           | Some c =>
               if forallb (store_accepts E c) pts
               then (Ok tt,
                     set_store (<[name := {| c_vectors := c_vectors c;
                                             c_sparse_vectors := c_sparse_vectors c;
                                             c_points := upsert_points pts (c_points c) |}]>
                                  (store w)) w)
               else (Raise rejected, w)
           end.

(** [client.search(name, query_vector, query_sparse_vector, limit)] *)
Definition search (name : string) (qv : option (list float))
    (qsv : option (string * SparseVector)) (limit : Z) : M (list ScoredPoint) :=
  request (CSearch name qv qsv limit) ;;;
  fun w => match store w !! name with
           | None => (Raise (not_found name), w)
           | Some c => (raised_as BadRequest (store_search E c qv qsv limit), w)
           end.
End Client.

(** [PointStruct(id=v, ...)]: pydantic accepts an int or a str as id. *)
Definition point_id (v : value) : res pid :=
  match v with
  | VInt z => Ok (IdInt z)
  | VStr s => Ok (IdStr s)
  | _ => Raise (Exn ValidationError "1 validation error for PointStruct id")
  end.

(** [command[k]] on a record. *)
Definition item (d : dict) (k : string) : res value := subscript (VDict d) k.

(** The sparse field names of a collection, when
    [collection_info.config.params.sparse_vectors] is truthy. *)
Definition sparse_fields (c : collection) : option (list string) :=
  match c_sparse_vectors c with
  | Some ((k, p) :: l) => Some (k :: map fst l)
  | _ => None
  end.

(** The result loop shared by the search functions:
    [command = result.payload; command["score"] = result.score]. *)
Definition attach_score (r : ScoredPoint) : dict :=
  dict_set "score" (VFloat (hit_score r)) (hit_payload r).

Definition nl : string := String (Ascii.ascii_of_nat 10) EmptyString.

Definition BM25 : string := "Qdrant/bm25".
Definition BGE_SMALL : string := "BAAI/bge-small-en-v1.5".

(** ** Formatting for display *)

(** How the interpreter prints a number under the format [.4f]: a float,
    and an int (which is converted to a float first, and may overflow). *)
Record Formatting := {
  fixed4 : float -> string;
  fixed4_int : Z -> res string
}.

(** [format(v, ".4f")], the conversion of [f"{v:.4f}"]. *)
Definition format_4f (F : Formatting) (v : value) : res string :=
  match v with
  | VFloat f => Ok (fixed4 F f)
  | VInt z => fixed4_int F z
  | VBool b => fixed4_int F (if b then 1 else 0)%Z
  | VStr _ => Raise (Exn ValueError "Unknown format code 'f' for object of type 'str'")
  | VNone =>
      Raise (Exn TypeError "unsupported format string passed to NoneType.__format__")
  | VList _ =>
      Raise (Exn TypeError "unsupported format string passed to list.__format__")
  | VDict _ =>
      Raise (Exn TypeError "unsupported format string passed to dict.__format__")
  end.

(** [v[:n]]: a string or a list is cut, a dict rejects the slice as a
    key (unhashable before Python 3.12), anything else is not
    subscriptable. *)
Definition py_prefix (n : nat) (v : value) : res value :=
  match v with
  | VStr s => Ok (VStr (String.substring 0 n s))
  | VList l => Ok (VList (take n l))
  | VDict _ => Raise (Exn TypeError "unhashable type: 'slice'")
  | VNone => Raise (Exn TypeError "'NoneType' object is not subscriptable")
  | VBool _ => Raise (Exn TypeError "'bool' object is not subscriptable")
  | VInt _ => Raise (Exn TypeError "'int' object is not subscriptable")
  | VFloat _ => Raise (Exn TypeError "'float' object is not subscriptable")
  end.

(** [enumerate(l)] *)
Definition enumerate {A} (l : list A) : list (nat * A) :=
  zip (seq 0 (length l)) l.

(** ** Qdrant/psadt_fastembed_cloud_fixed.py *)

Module CloudFixed.
Section Script.
Variable E : Env.

Definition COMMANDS_COLLECTION : string := "psadt_commands".

(** [supports_sparse_vectors(client, collection_name)].  The [hasattr]
    tests hold for every [CollectionInfo]; what decides is the
    truthiness of [sparse_vectors]. *)
Definition supports_sparse_vectors (collection_name : string) : M bool :=
  try_except
    (collection_info <- get_collection collection_name ;;
     match sparse_fields collection_info with
     | Some _ => ret true
     | None => ret false
     end)
    (fun _ => ret false).

(** [f"{command['name']}: {command['synopsis']}\n{command['syntax']}"] *)
Definition command_text (command : dict) : res string :=
  res_bind (item command "name") (fun name =>
  res_bind (item command "synopsis") (fun synopsis =>
  res_bind (item command "syntax") (fun syntax =>
  Ok (py_str E name ++ ": " ++ py_str E synopsis ++ nl ++ py_str E syntax)))).

(** The point of the sparse branch of the upload loop: the embedding,
    its conversion, then [PointStruct(id=command["id"], ...)]. *)
Definition sparse_point (m : model) (text : string) (command : dict)
    : res PointStruct :=
  res_bind (embed m text) (fun embedding =>
  res_bind (sparse_vector_of embedding) (fun sparse_vector =>
  res_bind (res_bind (item command "id") point_id) (fun id =>
  Ok {| pt_id := id; pt_payload := command; pt_vector := Some [0%float];
        pt_sparse_vectors := Some ("text", sparse_vector) |}))).

(** The point of the dense branch. *)
Definition dense_point (m : model) (text : string) (command : dict)
    : res PointStruct :=
  res_bind (embed m text) (fun embedding =>
  res_bind (tolist embedding) (fun dense_vector =>
  res_bind (res_bind (item command "id") point_id) (fun id =>
  Ok {| pt_id := id; pt_payload := command; pt_vector := Some dense_vector;
        pt_sparse_vectors := None |}))).

Definition upsert_sparse (m : model) (collection_name text : string)
    (command : dict) : M unit :=
  p <- lift (sparse_point m text command) ;;
  upsert E collection_name [p].

Definition upsert_dense (m : model) (collection_name text : string)
    (command : dict) : M unit :=
  p <- lift (dense_point m text command) ;;
  upsert E collection_name [p].

(** One iteration of [for i, command in enumerate(commands)]: the text
    is rendered before the [try], the rest runs inside it. *)
Definition add_command (m : model) (collection_name : string)
    (use_sparse collection_exists supports_sparse : bool) (command : dict)
    : M unit :=
  text <- lift (command_text command) ;;
  try_except
    ((if use_sparse && (negb collection_exists || supports_sparse)
      then upsert_sparse m collection_name text command
      else upsert_dense m collection_name text command) ;;;
     (name <- lift (item command "name") ;;
      print ("Added command: " ++ py_str E name)))
    (fun e =>
       name <- lift (item command "name") ;;
       print ("Error adding command " ++ py_str E name ++ ": " ++ msg e)).

(** The collection check: the name to write to, [collection_exists] and
    [supports_sparse].  Only [get_collection] can raise inside the [try],
    before any of the three is assigned. *)
Definition prepare_collection (collection_name : string) (use_sparse : bool)
    : M (string * bool * bool) :=
  try_except
    (get_collection collection_name ;;;
     if use_sparse then
       supports_sparse <- supports_sparse_vectors collection_name ;;
       if negb supports_sparse then
         print ("Warning: Collection '" ++ collection_name
                ++ "' exists but does not support sparse vectors.") ;;;
         print ("Creating a new collection '" ++ collection_name
                ++ "_new' with sparse vector support...") ;;;
         ret (collection_name ++ "_new", false, supports_sparse)
       else ret (collection_name, true, supports_sparse)
     else ret (collection_name, true, false))
    (fun _ =>
       print ("Collection '" ++ collection_name
              ++ "' does not exist. Creating new collection...") ;;;
       ret (collection_name, false, false)).

Definition sparse_config : option (list (string * SparseVectorParams)) :=
  Some [("text", {| sp_on_disk := true |})].

(** [create_embeddings_for_commands(commands, use_sparse)]; it returns
    [None]. *)
Definition create_embeddings_for_commands (commands : list dict)
    (use_sparse : bool) : M unit :=
  print ("Creating " ++ (if use_sparse then "sparse" else "dense")
         ++ " embeddings for " ++ pretty (length commands) ++ " commands...") ;;;
  m <- lift (if use_sparse then SparseTextEmbedding E BM25
             else TextEmbedding E BGE_SMALL) ;;
  print (if use_sparse then "Using BM25 sparse embedding model"
         else "Using bge-small-en-v1.5 dense embedding model") ;;;
  st <- prepare_collection COMMANDS_COLLECTION use_sparse ;;
  let '(collection_name, collection_exists, supports_sparse) := st in
  (if negb collection_exists then
     if use_sparse then
       create_collection collection_name
         {| vp_size := 1; vp_distance := DOT |} sparse_config ;;;
       print ("Created new collection '" ++ collection_name
              ++ "' with sparse vector support")
     else
       create_collection collection_name
         {| vp_size := 384; vp_distance := COSINE |} None ;;;
       print ("Created new collection '" ++ collection_name
              ++ "' for dense vectors")
   else ret tt) ;;;
  for_each commands
    (add_command m collection_name use_sparse collection_exists supports_sparse) ;;;
  print ("Finished processing " ++ pretty (length commands) ++ " commands.").

Definition fallback_message : string :=
  "Warning: No collection found that supports sparse vectors. Falling back to dense search.".

(** The dense fallback of the search: the mode, the query embedding and
    the collection name it leaves behind. *)
Definition fall_back (query collection_name : string)
    : M (option (bool * embedding * string)) :=
  print fallback_message ;;;
  m <- lift (TextEmbedding E BGE_SMALL) ;;
  query_embedding <- lift (embed m query) ;;
  ret (Some (false, query_embedding, collection_name)).

(** The [if use_sparse:] block of the search; [None] stands for its
    [return []]. *)
Definition choose_collection (query collection_name : string)
    (query_embedding : embedding) : M (option (bool * embedding * string)) :=
  try_except
    (supports_sparse <- supports_sparse_vectors collection_name ;;
     if negb supports_sparse then
       let alternative := collection_name ++ "_new" in
       try_except
         (b <- supports_sparse_vectors alternative ;;
          if b then
            print ("Using alternative collection '" ++ alternative
                   ++ "' that supports sparse vectors") ;;;
            ret (Some (true, query_embedding, alternative))
          else fall_back query collection_name)
         (fun _ => fall_back query collection_name)
     else ret (Some (true, query_embedding, collection_name)))
    (fun e =>
       print ("Error checking collection: " ++ msg e) ;;;
       ret None).

(** The search request of either mode. *)
Definition search_request (use_sparse : bool) (query_embedding : embedding)
    (collection_name : string) (limit : Z) : M (list ScoredPoint) :=
  if use_sparse then
    sparse_vector <- lift (sparse_vector_of query_embedding) ;;
    search E collection_name (Some [0%float])
      (Some ("text", sparse_vector)) limit
  else
    query_vector <- lift (tolist query_embedding) ;;
    search E collection_name (Some query_vector) None limit.

(** The [try] around the search request and the result loop. *)
Definition perform_search (use_sparse : bool) (query_embedding : embedding)
    (collection_name : string) (limit : Z) : M (list dict) :=
  try_except
    (search_results <-
       search_request use_sparse query_embedding collection_name limit ;;
     let results := map attach_score search_results in
     print ("Found " ++ pretty (length results) ++ " matching commands") ;;;
     ret results)
    (fun e =>
       print ("Error during search: " ++ msg e) ;;;
       ret []).

(** [search_psadt_commands(query, use_sparse, limit)] *)
Definition search_psadt_commands (query : string) (use_sparse : bool)
    (limit : Z) : M (list dict) :=
  print ("Searching for: '" ++ query ++ "' using "
         ++ (if use_sparse then "sparse" else "dense") ++ " embeddings...") ;;;
  m <- lift (if use_sparse then SparseTextEmbedding E BM25
             else TextEmbedding E BGE_SMALL) ;;
  query_embedding <- lift (if use_sparse then query_embed m query
                           else embed m query) ;;
  st <- (if use_sparse
         then choose_collection query COMMANDS_COLLECTION query_embedding
         else ret (Some (use_sparse, query_embedding, COMMANDS_COLLECTION))) ;;
  match st with
  | None => ret []
  | Some (use_sparse', query_embedding', collection_name) =>
      perform_search use_sparse' query_embedding' collection_name limit
  end.

Variable F : Formatting.

Definition PSADT_PRO_UI_PATH : string :=
  "C:\Users\msoun\OneDrive\Documents\Code\Web\psadt-pro-ui".

(** [get_psadt_commands_from_db()]: the placeholder data of the script. *)
Definition get_psadt_commands_from_db : M (list dict) :=
  print "Fetching PSADT commands from database..." ;;;
  let commands :=
    [ [("id", VInt 1);
       ("name", VStr "Show-InstallationWelcome");
       ("synopsis", VStr "Shows a welcome dialog prompting the user with information about the installation and actions to take.");
       ("syntax", VStr "Show-InstallationWelcome -CloseApps <String[]> [-CloseAppsCountdown <Int32>] [-NoCloseApps] [-CloseAppsForce] [-PersistPrompt] [-AllowDefer] [-AllowDeferCloseApps] [-DeferTimes <Int32>] [-DeferDays <Int32>] [-DeferDeadline <String>] [-MinimizeWindows <Boolean>] [-CustomText] [-ForceCloseAppsCountdown <Int32>] [-PromptToSave] [-TopMost <Boolean>]")] ] in
  print ("Fetched " ++ pretty (length commands) ++ " commands.") ;;;
  ret commands.

(** The body of [for i, result in enumerate(results)] in [main]. *)
Definition show_result (ir : nat * dict) : M unit :=
  let '(i, result) := ir in
  name <- lift (item result "name") ;;
  score <- lift (res_bind (item result "score") (format_4f F)) ;;
  print (pretty (i + 1) ++ ". " ++ py_str E name ++ " (Score: " ++ score ++ ")") ;;;
  synopsis <- lift (res_bind (item result "synopsis") (py_prefix 100)) ;;
  print ("   " ++ py_str E synopsis ++ "...").

(** [main()]; [path_exists] is [os.path.exists(PSADT_PRO_UI_PATH)].  The
    value is the exit code. *)
Definition main (path_exists : bool) : M Z :=
  print "PSADT Pro UI - FastEmbed Integration with Qdrant Cloud" ;;;
  print "-----------------------------------------------------" ;;;
  if negb path_exists then
    print ("Error: PSADT Pro UI path not found: " ++ PSADT_PRO_UI_PATH) ;;;
    print "Please update the PSADT_PRO_UI_PATH constant in this script" ;;;
    ret 1%Z
  else
    returned <-
      try_except
        (commands <- get_psadt_commands_from_db ;;
         create_embeddings_for_commands commands true ;;;
         results <- search_psadt_commands "close applications installer" true 3 ;;
         print (nl ++ "Search Results:") ;;;
         for_each (enumerate results) show_result ;;;
         print (nl ++ "To fully integrate with your PSADT Pro UI project:") ;;;
         print "1. Create a service class to interact with Qdrant Cloud" ;;;
         print "2. Implement the API endpoints for search" ;;;
         print "3. Add UI components to display and interact with search results" ;;;
         ret None)
        (fun e => print ("Error: " ++ msg e) ;;; ret (Some 1%Z)) ;;
    match returned with
    | Some code => ret code
    | None => ret 0%Z
    end.

End Script.
End CloudFixed.

(** ** Qdrant/psadt_fastembed_cloud.py *)

Module Cloud.
Section Script.
Variable E : Env.

Definition COMMANDS_COLLECTION : string := "psadt_commands".

Definition command_text (command : dict) : res string :=
  res_bind (item command "name") (fun name =>
  res_bind (item command "synopsis") (fun synopsis =>
  res_bind (item command "syntax") (fun syntax =>
  Ok (py_str E name ++ ": " ++ py_str E synopsis ++ nl ++ py_str E syntax)))).

(** One iteration of the upload loop; nothing is caught here. *)
Definition add_command (m : model) (collection_name : string)
    (use_sparse : bool) (command : dict) : M unit :=
  text <- lift (command_text command) ;;
  if use_sparse then
    embedding <- lift (embed m text) ;;
    sparse_vector <- lift (sparse_vector_of embedding) ;;
    id <- lift (res_bind (item command "id") point_id) ;;
    upsert E collection_name
      [ {| pt_id := id; pt_payload := command; pt_vector := None;
           pt_sparse_vectors := Some ("text", sparse_vector) |} ]
  else
    embedding <- lift (embed m text) ;;
    dense_vector <- lift (tolist embedding) ;;
    id <- lift (res_bind (item command "id") point_id) ;;
    upsert E collection_name
      [ {| pt_id := id; pt_payload := command; pt_vector := Some dense_vector;
           pt_sparse_vectors := None |} ].

(** [create_embeddings_for_commands(commands, use_sparse)]: an existing
    collection is deleted and created again. *)
Definition create_embeddings_for_commands (commands : list dict)
    (use_sparse : bool) : M unit :=
  print ("Creating " ++ (if use_sparse then "sparse" else "dense")
         ++ " embeddings for " ++ pretty (length commands) ++ " commands...") ;;;
  m <- lift (if use_sparse then SparseTextEmbedding E BM25
             else TextEmbedding E BGE_SMALL) ;;
  print (if use_sparse then "Using BM25 sparse embedding model"
         else "Using bge-small-en-v1.5 dense embedding model") ;;;
  let collection_name := COMMANDS_COLLECTION in
  try_except
    (get_collection collection_name ;;;
     print ("Collection '" ++ collection_name ++ "' already exists. Recreating...") ;;;
     delete_collection collection_name ;;;
     ret tt)
    (fun _ =>
       print ("Collection '" ++ collection_name
              ++ "' does not exist. Creating new collection...")) ;;;
  (if use_sparse then
     create_collection collection_name
       {| vp_size := 1; vp_distance := DOT |}
       (Some [("text", {| sp_on_disk := true |})])
   else
     create_collection collection_name
       {| vp_size := 384; vp_distance := COSINE |} None) ;;;
  for_each commands (add_command m collection_name use_sparse) ;;;
  print ("Successfully created embeddings and added " ++ pretty (length commands)
         ++ " commands to Qdrant collection '" ++ collection_name ++ "'").

(** [search_psadt_commands(query, use_sparse, limit)]: one search request
    on [psadt_commands] in the mode asked for; nothing is probed and
    nothing is caught. *)
Definition search_psadt_commands (query : string) (use_sparse : bool)
    (limit : Z) : M (list dict) :=
  print ("Searching for: '" ++ query ++ "' using "
         ++ (if use_sparse then "sparse" else "dense") ++ " embeddings...") ;;;
  m <- lift (if use_sparse then SparseTextEmbedding E BM25
             else TextEmbedding E BGE_SMALL) ;;
  query_embedding <- lift (if use_sparse then query_embed m query
                           else embed m query) ;;
  search_results <-
    (if use_sparse then
       sparse_vector <- lift (sparse_vector_of query_embedding) ;;
       search E COMMANDS_COLLECTION None (Some ("text", sparse_vector)) limit
     else
       query_vector <- lift (tolist query_embedding) ;;
       search E COMMANDS_COLLECTION (Some query_vector) None limit) ;;
  let results := map attach_score search_results in
  print ("Found " ++ pretty (length results) ++ " matching commands") ;;;
  ret results.

Variable F : Formatting.

Definition PSADT_PRO_UI_PATH : string :=
  "C:\Users\msoun\OneDrive\Documents\Code\Web\psadt-pro-ui".

(** [get_psadt_commands_from_db()]: the placeholder data of the script. *)
Definition get_psadt_commands_from_db : M (list dict) :=
  print "Fetching PSADT commands from database..." ;;;
  let commands :=
    [ [("id", VInt 1);
       ("name", VStr "Show-InstallationWelcome");
       ("synopsis", VStr "Shows a welcome dialog prompting the user with information about the installation and actions to take.");
       ("syntax", VStr "Show-InstallationWelcome -CloseApps <String[]> [-CloseAppsCountdown <Int32>] [-NoCloseApps] [-CloseAppsForce] [-PersistPrompt] [-AllowDefer] [-AllowDeferCloseApps] [-DeferTimes <Int32>] [-DeferDays <Int32>] [-DeferDeadline <String>] [-MinimizeWindows <Boolean>] [-CustomText] [-ForceCloseAppsCountdown <Int32>] [-PromptToSave] [-TopMost <Boolean>]")] ] in
  print ("Fetched " ++ pretty (length commands) ++ " commands.") ;;;
  ret commands.

(** The body of [for i, result in enumerate(results)] in [main]. *)
Definition show_result (ir : nat * dict) : M unit :=
  let '(i, result) := ir in
  name <- lift (item result "name") ;;
  score <- lift (res_bind (item result "score") (format_4f F)) ;;
  print (pretty (i + 1) ++ ". " ++ py_str E name ++ " (Score: " ++ score ++ ")") ;;;
  synopsis <- lift (res_bind (item result "synopsis") (py_prefix 100)) ;;
  print ("   " ++ py_str E synopsis ++ "...").

(** [main()]; [path_exists] is [os.path.exists(PSADT_PRO_UI_PATH)].  The
    value is the exit code. *)
Definition main (path_exists : bool) : M Z :=
  print "PSADT Pro UI - FastEmbed Integration with Qdrant Cloud" ;;;
  print "-----------------------------------------------------" ;;;
  if negb path_exists then
    print ("Error: PSADT Pro UI path not found: " ++ PSADT_PRO_UI_PATH) ;;;
    print "Please update the PSADT_PRO_UI_PATH constant in this script" ;;;
    ret 1%Z
  else
    returned <-
      try_except
        (commands <- get_psadt_commands_from_db ;;
         create_embeddings_for_commands commands true ;;;
         results <- search_psadt_commands "close applications installer" true 3 ;;
         print (nl ++ "Search Results:") ;;;
         for_each (enumerate results) show_result ;;;
         print (nl ++ "To fully integrate with your PSADT Pro UI project:") ;;;
         print "1. Create a service class to interact with Qdrant Cloud" ;;;
         print "2. Implement the API endpoints for search" ;;;
         print "3. Add UI components to display and interact with search results" ;;;
         ret None)
        (fun e => print ("Error: " ++ msg e) ;;; ret (Some 1%Z)) ;;
    match returned with
    | Some code => ret code
    | None => ret 0%Z
    end.

End Script.
End Cloud.

(** ** Qdrant/use_existing_collection.py *)

Module UseExisting.
Section Script.
Variable E : Env.

Definition command_text (command : dict) : res string :=
  res_bind (item command "name") (fun name =>
  res_bind (item command "synopsis") (fun synopsis =>
  res_bind (item command "syntax") (fun syntax =>
  Ok (py_str E name ++ ": " ++ py_str E synopsis ++ nl ++ py_str E syntax)))).

(** [if server_url:] *)
Definition given (server_url : option string) : bool :=
  match server_url with
  | Some s => negb (String.eqb s "")
  | None => false
  end.

(** The first sparse field name of the collection, or [None]:
    [next(iter(sparse_vectors.keys()))] under [if sparse_vectors:]. *)
Definition first_sparse_field (c : collection) : option string :=
  match sparse_fields c with
  | Some (k :: _) => Some k
  | _ => None
  end.

(** One iteration of [for command in commands]. *)
Definition make_point (m : model) (sparse_vector_field : string)
    (command : dict) : M PointStruct :=
  text <- lift (command_text command) ;;
  embedding <- lift (embed m text) ;;
  sparse_vector <- lift (sparse_vector_of embedding) ;;
  id <- lift (res_bind (item command "id") point_id) ;;
  ret {| pt_id := id; pt_payload := command; pt_vector := None;
         pt_sparse_vectors := Some (sparse_vector_field, sparse_vector) |}.

(** [add_to_existing_collection(commands, collection_name, server_url)] *)
Definition add_to_existing_collection (commands : list dict)
    (collection_name : string) (server_url : option string) : M unit :=
  print ("Adding commands to existing collection '" ++ collection_name ++ "'...") ;;;
  m <- lift (SparseTextEmbedding E BM25) ;;
  print "Using BM25 sparse embedding model" ;;;
  print (if given server_url
         then "Connecting to Qdrant at " ++ default "" server_url ++ "..."
         else "Connecting to local Qdrant server...") ;;;
  collection_info <-
    try_except
      (c <- get_collection collection_name ;;
       print ("Successfully connected to collection '" ++ collection_name ++ "'") ;;;
       ret c)
      (fun e =>
         print ("Error: Collection '" ++ collection_name
                ++ "' does not exist or cannot be accessed: " ++ msg e) ;;;
         raise (Exn SystemExit "1")) ;;
  match first_sparse_field collection_info with
  | None =>
      print "Error: Collection does not support sparse vectors." ;;;
      print "Please use a collection that has been configured with sparse vector support." ;;;
      raise (Exn SystemExit "1")
  | Some sparse_vector_field =>
      print ("Collection supports sparse vectors with field name: "
             ++ sparse_vector_field) ;;;
      points <- mapM (make_point m sparse_vector_field) commands ;;
      match points with
      | [] => print "No points to add."
      | _ =>
          upsert E collection_name points ;;;
          print ("Successfully added " ++ pretty (length points)
                 ++ " commands to collection '" ++ collection_name ++ "'")
      end
  end.

(** [search_commands(query, collection_name, limit=limit)].  The field
    name is tested with [if not sparse_vector_field], so the empty name
    counts as none. *)
Definition search_commands (query collection_name : string) (limit : Z)
    : M (list dict) :=
  print ("Searching for '" ++ query ++ "' in collection '" ++ collection_name
         ++ "'...") ;;;
  m <- lift (SparseTextEmbedding E BM25) ;;
  collection_info <- get_collection collection_name ;;
  match first_sparse_field collection_info with
  | Some sparse_vector_field =>
      if String.eqb sparse_vector_field "" then
        print "Error: Collection does not support sparse vectors." ;;;
        ret []
      else
        query_embedding <- lift (query_embed m query) ;;
        sparse_vector <- lift (sparse_vector_of query_embedding) ;;
        try_except
          (search_results <-
             search E collection_name None
               (Some (sparse_vector_field, sparse_vector)) limit ;;
           let results := map attach_score search_results in
           print ("Found " ++ pretty (length results) ++ " matching commands") ;;;
           ret results)
          (fun e =>
             print ("Error during search: " ++ msg e) ;;;
             ret [])
  | None =>
      print "Error: Collection does not support sparse vectors." ;;;
      ret []
  end.
End Script.
End UseExisting.

(** ** Qdrant/scripts/generate_embeddings.py *)

(** [range(0, stop, step)] for [stop >= 0]. *)
Definition py_range0 (stop step : Z) : res (list Z) :=
  if (step =? 0)%Z then Raise (Exn ValueError "range() arg 3 must not be zero")
  else if (0 <? step)%Z
       then Ok (map (fun k => Z.of_nat k * step)%Z
                  (seq 0 (Z.to_nat ((stop + step - 1) / step))))
       else Ok [].

(** [l[lo:hi]] for [0 <= lo <= hi]. *)
Definition py_slice {A} (l : list A) (lo hi : Z) : list A :=
  take (Z.to_nat (hi - lo)) (drop (Z.to_nat lo) l).

Module GenerateEmbeddings.
Section Script.
Variable E : Env.

(** The lines [f"- {x[k1]}: {x[k2]}\n"] for [x] in [v]. *)
Definition bullet_lines (k1 k2 : string) (v : value) : res string :=
  res_bind (py_iter v) (fun elems =>
  res_bind
    (res_mapM
       (fun x =>
          res_bind (subscript x k1) (fun a =>
          res_bind (subscript x k2) (fun b =>
          Ok ("- " ++ py_str E a ++ ": " ++ py_str E b ++ nl))))
       elems)
    (fun lines => Ok (String.concat "" lines))).

(** [if key in item and item[key]: text += header; for x in item[key]: ...] *)
Definition optional_section (key header k1 k2 : string) (it : dict)
    : res string :=
  match dict_get key it with
  | Some v =>
      if py_truthy v
      then res_bind (bullet_lines k1 k2 v) (fun s => Ok (header ++ nl ++ s))
      else Ok ""
  | None => Ok ""
  end.

(** [create_text_representation(item)] *)
Definition create_text_representation (it : dict) : res string :=
  if dict_in "name" it && dict_in "synopsis" it then
    res_bind (item it "name") (fun name =>
    res_bind (item it "synopsis") (fun synopsis =>
    let text := py_str E name ++ ": " ++ py_str E synopsis ++ nl in
    let text := match dict_get "syntax" it with
                | Some syntax => text ++ py_str E syntax ++ nl
                | None => text
                end in
    res_bind (optional_section "parameters" "Parameters:" "name" "description" it)
      (fun params =>
    res_bind (optional_section "examples" "Examples:" "title" "code" it)
      (fun examples =>
    Ok (text ++ params ++ examples)))))
  else if dict_in "title" it && dict_in "content" it then
    res_bind (item it "title") (fun title =>
    res_bind (item it "content") (fun content =>
    Ok (py_str E title ++ nl ++ py_str E content)))
  else
    Ok (String.concat nl
          (map (fun kv => fst kv ++ ": " ++ py_str E (snd kv))
             (filter (fun kv => is_scalar (snd kv) = true) it))).

(** The body of [for j, (item, embedding) in enumerate(zip(...))] at
    batch start [i]. *)
Definition make_point (sparse : bool) (i : Z) (j : nat) (it : dict)
    (e : embedding) : res PointStruct :=
  let item_id := dict_get_default "id" (VInt (i + Z.of_nat j)) it in
  if sparse then
    res_bind (sparse_vector_of e) (fun sparse_vector =>
    res_bind (point_id item_id) (fun id =>
    Ok {| pt_id := id; pt_payload := it; pt_vector := None;
          pt_sparse_vectors := Some ("text", sparse_vector) |}))
  else
    res_bind (tolist e) (fun dense_vector =>
    res_bind (point_id item_id) (fun id =>
    Ok {| pt_id := id; pt_payload := it; pt_vector := Some dense_vector;
          pt_sparse_vectors := None |})).

Fixpoint make_points (sparse : bool) (i : Z) (j : nat)
    (l : list (dict * embedding)) : res (list PointStruct) :=
  match l with
  | [] => Ok []
  | (it, e) :: l' =>
      res_bind (make_point sparse i j it e) (fun p =>
      res_bind (make_points sparse i (S j) l') (fun ps => Ok (p :: ps)))
  end.

(** One iteration of [for i in range(0, len(items), batch_size)]. *)
Definition process_batch (m : model) (items : list dict)
    (collection : string) (sparse : bool) (batch_size : Z) (i : Z) : M unit :=
  let batch := py_slice items i (i + batch_size) in
  print ("Processing batch " ++ pretty (i / batch_size + 1)%Z ++ "/"
         ++ pretty ((Z.of_nat (length items) + batch_size - 1) / batch_size)%Z
         ++ "...") ;;;
  batch_texts <- lift (res_mapM create_text_representation batch) ;;
  batch_embeddings <- lift (res_mapM (embed m) batch_texts) ;;
  points <- lift (make_points sparse i 0 (zip batch batch_embeddings)) ;;
  upsert E collection points ;;;
  print ("Uploaded " ++ pretty (length points) ++ " points to collection "
         ++ collection).

(** [main()], from the loaded [items] on: [input], [collection],
    [sparse] and [batch_size] are the parsed arguments. *)
Definition main (input : string) (items : list dict) (collection : string)
    (sparse : bool) (batch_size : Z) : M unit :=
  print ("Loading data from " ++ input ++ "...") ;;;
  print ("Loaded " ++ pretty (length items) ++ " items") ;;;
  print (if sparse then "Using BM25 sparse embedding model"
         else "Using bge-small-en-v1.5 dense embedding model") ;;;
  m <- lift (if sparse then SparseTextEmbedding E BM25
             else TextEmbedding E BGE_SMALL) ;;
  starts <- lift (py_range0 (Z.of_nat (length items)) batch_size) ;;
  for_each starts (process_batch m items collection sparse batch_size) ;;;
  print ("Successfully processed and uploaded " ++ pretty (length items)
         ++ " items").
End Script.
End GenerateEmbeddings.

(** ** A reference environment and sample data

    A small instance of the two libraries, used to run the scripts on
    concrete inputs: both models reject the empty text, the store accepts
    every point and answers a search with the collection's points, each
    scored [1.0], up to the limit. *)

Module Demo.
Definition sparse_model : model :=
  {| m_embed := fun t =>
       if String.eqb t "" then Failed "empty document"
       else Returned (ESparse {| se_indices := [3; 17]%Z;
                                 se_values := [0.5; 1.5]%float |});
     m_query_embed := fun t =>
       Returned (ESparse {| se_indices := [3; 17]%Z;
                            se_values := [1; 1]%float |}) |}.

Definition dense_model : model :=
  {| m_embed := fun t =>
       if String.eqb t "" then Failed "empty document"
       else Returned (EDense [0.25; 0.75]%float);
     m_query_embed := fun t => Returned (EDense [0.25; 0.75]%float) |}.

Definition hit_of (p : PointStruct) : ScoredPoint :=
  {| hit_id := pt_id p; hit_score := 1%float; hit_payload := pt_payload p |}.

Definition env : Env :=
  {| load_sparse := fun _ => Returned sparse_model;
     load_dense := fun _ => Returned dense_model;
     store_accepts := fun _ _ => true;
     store_search := fun c _ _ limit =>
       Returned (take (Z.to_nat limit)
                   (map (fun kv => hit_of (snd kv)) (map_to_list (c_points c))));
     py_repr := fun _ => "<object>" |}.

Definition welcome : dict :=
  [("id", VInt 1); ("name", VStr "Show-InstallationWelcome");
   ("synopsis", VStr "Shows a welcome dialog.");
   ("syntax", VStr "Show-InstallationWelcome -CloseApps <String[]>")].

Definition progress : dict :=
  [("id", VInt 2); ("name", VStr "Close-InstallationProgress");
   ("synopsis", VStr "Closes the installation progress dialog.");
   ("syntax", VStr "Close-InstallationProgress [-CloseReason <String>]")].

Definition point_of (d : dict) (i : Z) : PointStruct :=
  {| pt_id := IdInt i; pt_payload := d; pt_vector := Some [0.25; 0.75]%float;
     pt_sparse_vectors := None |}.

(** A dense collection holding [welcome] under id 1. *)
Definition dense_collection : collection :=
  {| c_vectors := {| vp_size := 384; vp_distance := COSINE |};
     c_sparse_vectors := None;
     c_points := {[ IdInt 1 := point_of welcome 1 ]} |}.

(** A collection with the sparse field [text], holding the same point. *)
Definition sparse_collection : collection :=
  {| c_vectors := {| vp_size := 1; vp_distance := DOT |};
     c_sparse_vectors := Some [("text", {| sp_on_disk := true |})];
     c_points := {[ IdInt 1 := point_of welcome 1 ]} |}.

Definition empty_world : world :=
  {| store := ∅; faults := []; out := []; calls := [] |}.

Definition world_with (name : string) (c : collection) : world :=
  {| store := {[ name := c ]}; faults := []; out := []; calls := [] |}.
End Demo.

(** ** Vocabulary of the statements *)

(** From here on [++] joins lists and [+:+] joins strings. *)
Local Open Scope list_scope.

(** [post m w Q]: the run of [m] from [w] ends in a result and a world
    related by [Q]. *)
Definition post {A} (m : M A) (w : world) (Q : res A -> world -> Prop) : Prop :=
  Q (m w).1 (m w).2.

(** The requests issued by every [CUpsert] of a trace, in order. *)
Definition uploaded (cs : list call) : list PointStruct :=
  concat (map (fun c => match c with CUpsert _ pts => pts | _ => [] end) cs).

(** The sparse vectors a request carries. *)
Definition sparse_vectors_of_call (c : call) : list SparseVector :=
  match c with
  | CUpsert _ pts =>
      omap (fun p => snd <$> pt_sparse_vectors p) pts
  | CSearch _ _ (Some (_, sv)) _ => [sv]
  | _ => []
  end.

(** The invariant of the data model: equally long index and value
    sequences, indices non-negative and pairwise distinct. *)
Definition sparse_vector_ok (sv : SparseVector) : Prop :=
  length (sv_indices sv) = length (sv_values sv) /\
  Forall (fun i => 0 <= i)%Z (sv_indices sv) /\
  NoDup (sv_indices sv).

(** The same invariant on what the embedding library returns. *)
Definition sparse_embedding_ok (e : embedding) : Prop :=
  match e with
  | ESparse s =>
      length (se_indices s) = length (se_values s) /\
      Forall (fun i => 0 <= i)%Z (se_indices s) /\
      NoDup (se_indices s)
  | EDense _ => True
  end.

Section Vocabulary.
Variable E : Env.

(** What the probe answers in a world: [true] exactly when the request
    gets through and the collection has a non-empty sparse configuration. *)
Definition probe (w : world) (name : string) : bool :=
  match faults w with
  | true :: _ => false
  | _ => match store w !! name with
         | Some c => match sparse_fields c with Some _ => true | None => false end
         | None => false
         end
  end.

(** Every exception a pure step raises is an [Exception]. *)
Definition catchable {A} (r : res A) : Prop :=
  forall e, r = Raise e -> is_Exception e = true.

(** [hits] is what the store answers to some query on a collection of
    [w], in the store's order. *)
Definition answered (w : world) (limit : Z) (hits : list ScoredPoint) : Prop :=
  exists name c qv qsv,
    store w !! name = Some c /\ store_search E c qv qsv limit = Returned hits.

(** What a search call may end in: the store is as before, and the call
    returns the scored payloads of a store answer, or the empty list. *)
Definition search_outcome (w0 : world) (limit : Z) (r : res (list dict))
    (w' : world) : Prop :=
  store w' = store w0 /\
  exists hits, r = Ok (map attach_score hits) /\
               (hits = [] \/ answered w0 limit hits).

(** No collection of that name in [w] has a sparse configuration. *)
Definition lacks_sparse (w : world) (name : string) : Prop :=
  forall c, store w !! name = Some c -> sparse_fields c = None.

(** The world in which the dense search of a fallen-back call starts. *)
Definition after_fallback (query : string) (w : world) : world :=
  printed CloudFixed.fallback_message
    (requested (CGetCollection (CloudFixed.COMMANDS_COLLECTION +:+ "_new"))
       (requested (CGetCollection CloudFixed.COMMANDS_COLLECTION)
          (printed ("Searching for: '" +:+ query +:+ "' using sparse embeddings...")
             w))).

(** The world after a create request that went through. *)
Definition created (name : string) (vc : VectorParams)
    (sc : option (list (string * SparseVectorParams))) (w : world) : world :=
  set_store (<[name := {| c_vectors := vc; c_sparse_vectors := sc; c_points := ∅ |}]>
               (store w))
    (requested (CCreateCollection name vc sc) w).

(** The world after an upsert request that went through. *)
Definition upserted (name : string) (c : collection) (pts : list PointStruct)
    (w : world) : world :=
  set_store (<[name := {| c_vectors := c_vectors c;
                          c_sparse_vectors := c_sparse_vectors c;
                          c_points := upsert_points pts (c_points c) |}]>
               (store w))
    (requested (CUpsert name pts) w).

(** The store only grows: a collection stays, with its configuration, and
    every id stored in it stays stored. *)
Definition store_grows (s s' : gmap string collection) : Prop :=
  forall name c, s !! name = Some c ->
    exists c', s' !! name = Some c' /\
               c_vectors c' = c_vectors c /\
               c_sparse_vectors c' = c_sparse_vectors c /\
               forall i, is_Some (c_points c !! i) -> is_Some (c_points c' !! i).

(** The requests issued between two worlds all satisfy [P]. *)
Definition issued (P : call -> Prop) (cs cs' : list call) : Prop :=
  exists new, cs' = cs ++ new /\ Forall P new.

(** The request is no delete. *)
Definition not_a_delete (c : call) : Prop :=
  match c with CDeleteCollection _ => False | _ => True end.

(** The request deletes nothing and upserts, if at all, into [name]. *)
Definition writes_only_to (name : string) (c : call) : Prop :=
  match c with
  | CDeleteCollection _ => False
  | CUpsert n _ => n = name
  | CCreateCollection n _ _ => n = name \/ n = CloudFixed.COMMANDS_COLLECTION
  | _ => True
  end.

(** Nothing is deleted: every request is a read, a create or an upsert,
    and the store only grows. *)
Definition grows (w0 w : world) : Prop :=
  store_grows (store w0) (store w) /\ issued not_a_delete (calls w0) (calls w).

(** The collection [psadt_commands] is as it was, and every write goes
    to [name]. *)
Definition keeps (name : string) (c : collection) (w0 w : world) : Prop :=
  store w !! CloudFixed.COMMANDS_COLLECTION = Some c /\
  issued (writes_only_to name) (calls w0) (calls w).

(** The line the loop prints for a record: success, or the error. *)
Definition outcome_line (command : dict) (line : string) : Prop :=
  exists name,
    item command "name" = Ok name /\
    (line = "Added command: " +:+ py_str E name \/
     exists e, line = "Error adding command " +:+ py_str E name +:+ ": " +:+ msg e).

(** A record without an id: it renders, and its point cannot be built. *)
Definition no_id : dict :=
  [("name", VStr "Show-DialogBox"); ("synopsis", VStr "Shows a dialog box.");
   ("syntax", VStr "Show-DialogBox -Text <String>")].

(** The point the upload loop builds for a record. *)
Definition point_for (m : model) (use_sparse : bool) (command : dict)
    : res PointStruct :=
  res_bind (CloudFixed.command_text E command) (fun text =>
    if use_sparse then CloudFixed.sparse_point m text command
    else CloudFixed.dense_point m text command).

(** The configuration created for a mode. *)
Definition created_for (use_sparse : bool) : collection :=
  if use_sparse
  then {| c_vectors := {| vp_size := 1; vp_distance := DOT |};
          c_sparse_vectors := CloudFixed.sparse_config; c_points := ∅ |}
  else {| c_vectors := {| vp_size := 384; vp_distance := COSINE |};
          c_sparse_vectors := None; c_points := ∅ |}.

(** A collection with [pts] upserted in order. *)
Definition with_points (c : collection) (pts : list PointStruct) : collection :=
  {| c_vectors := c_vectors c; c_sparse_vectors := c_sparse_vectors c;
     c_points := upsert_points pts (c_points c) |}.

(** The line printed for a record that was uploaded. *)
Definition added_line (command : dict) : string :=
  match item command "name" with
  | Ok name => "Added command: " +:+ py_str E name
  | Raise _ => ""
  end.

(** The world after the loop has uploaded [pts] for [commands]. *)
Definition uploaded_world (name : string) (c : collection)
    (commands : list dict) (pts : list PointStruct) (w : world) : world :=
  {| store := <[name := with_points c pts]> (store w);
     faults := [];
     out := out w ++ map added_line commands;
     calls := calls w ++ map (fun p => CUpsert name [p]) pts |}.

(** The lines printed ahead of the loop when the collection is absent. *)
Definition opening_lines (use_sparse : bool) (n : nat) : list string :=
  [ "Creating " +:+ (if use_sparse then "sparse" else "dense")
    +:+ " embeddings for " +:+ pretty n +:+ " commands...";
    (if use_sparse then "Using BM25 sparse embedding model"
     else "Using bge-small-en-v1.5 dense embedding model");
    "Collection '" +:+ CloudFixed.COMMANDS_COLLECTION
    +:+ "' does not exist. Creating new collection...";
    "Created new collection '" +:+ CloudFixed.COMMANDS_COLLECTION
    +:+ (if use_sparse then "' with sparse vector support"
         else "' for dense vectors") ].

(** The world after a whole ingestion into the absent collection. *)
Definition ingested_world (use_sparse : bool) (commands : list dict)
    (pts : list PointStruct) (w : world) : world :=
  {| store := <[CloudFixed.COMMANDS_COLLECTION :=
                  with_points (created_for use_sparse) pts]> (store w);
     faults := [];
     out := out w ++ opening_lines use_sparse (length commands)
            ++ map added_line commands
            ++ ["Finished processing " +:+ pretty (length commands) +:+ " commands."];
     calls := calls w
              ++ [CGetCollection CloudFixed.COMMANDS_COLLECTION;
                  CCreateCollection CloudFixed.COMMANDS_COLLECTION
                    (c_vectors (created_for use_sparse))
                    (c_sparse_vectors (created_for use_sparse))]
              ++ map (fun p => CUpsert CloudFixed.COMMANDS_COLLECTION [p]) pts |}.




(** A model all of whose embeddings satisfy the invariant. *)
Definition model_ok (m : model) : Prop :=
  forall t e, m_embed m t = Returned e \/ m_query_embed m t = Returned e ->
              sparse_embedding_ok e.

(** The sparse models of the library satisfy the invariant. *)
Definition sparse_models_ok (E : Env) : Prop :=
  forall n m, load_sparse E n = Returned m -> model_ok m.

(** The sparse vectors of a request, and of a point, are well formed. *)
Definition call_ok (c : call) : Prop :=
  Forall sparse_vector_ok (sparse_vectors_of_call c).

Definition point_ok (p : PointStruct) : Prop :=
  match pt_sparse_vectors p with
  | Some (_, sv) => sparse_vector_ok sv
  | None => True
  end.

(** Every request issued since [w0] carries well-formed sparse vectors. *)
Definition sound (w0 w : world) : Prop := issued call_ok (calls w0) (calls w).

(** The points of the upsert requests issued between two worlds. *)
Definition sent (w0 w : world) (pts : list PointStruct) : Prop :=
  exists new, calls w = calls w0 ++ new /\ uploaded new = pts.

(** Every point sits at the position of its item: its payload is the
    item, and its id is the item's [id], or the position when the item
    has none. *)
Definition placed (items : list dict) (pts : list PointStruct) : Prop :=
  forall k p, pts !! k = Some p ->
    exists it, items !! k = Some it /\ pt_payload p = it /\
               point_id (dict_get_default "id" (VInt (Z.of_nat k)) it) = Ok (pt_id p).

(** The collection holds what it held, with [pts] upserted in order. *)
Definition stored (name : string) (w0 w : world) (pts : list PointStruct) : Prop :=
  match store w0 !! name with
  | Some c0 => store w = <[name := with_points c0 pts]> (store w0)
  | None => pts = [] /\ store w = store w0
  end.

(** An item without an id, and an item whose explicit id is the position
    of the first. *)
Definition first_item : dict := [("title", VStr "Overview"); ("content", VStr "PSADT")].
Definition second_item : dict :=
  [("id", VInt 0); ("title", VStr "Install"); ("content", VStr "Setup")].

(** The request only reads: a get-collection or a search. *)
Definition is_read (c : call) : Prop :=
  match c with
  | CGetCollection _ | CSearch _ _ _ _ => True
  | _ => False
  end.

(** The store is as it was, and only reads were issued. *)
Definition read_only (w0 w : world) : Prop :=
  store w = store w0 /\ issued is_read (calls w0) (calls w).

(** The point the upload loop of a mode sends for one of [commands]: the
    record is its payload, the record's [id] its id; a sparse point has
    the placeholder dense vector and its sparse vector under [text], a
    dense point has a dense vector and no sparse one. *)
Definition record_point (use_sparse : bool) (commands : list dict)
    (p : PointStruct) : Prop :=
  pt_payload p ∈ commands /\
  res_bind (item (pt_payload p) "id") point_id = Ok (pt_id p) /\
  if use_sparse
  then pt_vector p = Some [0%float] /\
       exists sv, pt_sparse_vectors p = Some ("text", sv)
  else is_Some (pt_vector p) /\ pt_sparse_vectors p = None.

(** The requests of an ingestion run that writes to [name]: reads of
    [psadt_commands], the creation of [name] with the configuration of
    the mode, and upserts into [name] of one point each. *)
Definition ingestion_call (use_sparse : bool) (commands : list dict)
    (name : string) (c : call) : Prop :=
  match c with
  | CGetCollection n => n = CloudFixed.COMMANDS_COLLECTION
  | CCreateCollection n vc sc =>
      n = name /\ vc = c_vectors (created_for use_sparse) /\
      sc = c_sparse_vectors (created_for use_sparse)
  | CUpsert n pts => n = name /\ exists p, pts = [p] /\ record_point use_sparse commands p
  | _ => False
  end.

(** Nothing was written: the store is as it was and no point was sent. *)
Definition wrote_nothing (w0 w : world) : Prop :=
  store w = store w0 /\ uploaded (calls w) = uploaded (calls w0).

(** The point [add_to_existing_collection] builds for a record, under the
    sparse field of the collection. *)
Definition field_point (m : model) (field : string) (command : dict)
    : res PointStruct :=
  res_bind (UseExisting.command_text E command) (fun text =>
  res_bind (embed m text) (fun e =>
  res_bind (sparse_vector_of e) (fun sv =>
  res_bind (res_bind (item command "id") point_id) (fun id =>
  Ok {| pt_id := id; pt_payload := command; pt_vector := None;
        pt_sparse_vectors := Some (field, sv) |})))).

(** The world in which [add_to_existing_collection] has read the
    collection's configuration. *)
Definition connected (name : string) (url : option string) (w : world) : world :=
  requested (CGetCollection name)
    (printed (if UseExisting.given url
              then "Connecting to Qdrant at " +:+ default "" url +:+ "..."
              else "Connecting to local Qdrant server...")
       (printed "Using BM25 sparse embedding model"
          (printed ("Adding commands to existing collection '" +:+ name +:+ "'...")
             w))).

(** The collection [name] cannot be used for sparse points in [w]: the
    request fails, the collection is missing, or it has no sparse field. *)
Definition unusable (w : world) (name : string) : Prop :=
  head (faults w) = Some true \/
  match store w !! name with
  | Some c => UseExisting.first_sparse_field c = None
  | None => True
  end.

(** What a run of the recreating ingestion leaves once it has created the
    collection: the fresh collection of the mode with the points of the
    upserts that went through; only the last point sent may be missing. *)
Definition recreated (use_sparse : bool) (w0 w : world) : Prop :=
  exists kept pts,
    store w = <[Cloud.COMMANDS_COLLECTION := with_points (created_for use_sparse) kept]>
                (store w0) /\
    sent w0 w pts /\
    (pts = kept \/ exists p, pts = kept ++ [p]).

(** A request of the batch upload: an upsert into [name] of at least
    one and at most [batch_size] points. *)
Definition batch_call (name : string) (batch_size : Z) (c : call) : Prop :=
  match c with
  | CUpsert n pts => n = name /\ 0 < length pts <= Z.to_nat batch_size
  | _ => False
  end.

(** The run did not leave through [sys.exit]: it returned, or raised an
    [Exception]. *)
Definition no_exit {A} (r : res A) : Prop :=
  match r with
  | Ok _ => True
  | Raise e => is_Exception e = true
  end.

(** A formatting for the sample data, whose scores are all [1.0]. *)
Definition demo_formatting : Formatting :=
  {| fixed4 := fun _ => "1.0000";
     fixed4_int := fun z => Ok (pretty z +:+ ".0000") |}.

(** The request is an upsert into [name]. *)
Definition upsert_into (name : string) (c : call) : Prop :=
  match c with
  | CUpsert n _ => n = name
  | _ => False
  end.

(** The line printed for a record that failed with [e]. *)
Definition failed_line (command : dict) (e : exn) : string :=
  match item command "name" with
  | Ok name => "Error adding command " +:+ py_str E name +:+ ": " +:+ msg e
  | Raise _ => ""
  end.

(** What the upload loop does with one record that renders to its
    text, in the words of the amended partial-failure claim.  The
    record's point is built in the format of the loop.  A point that cannot be built is reported by the
    error line, and nothing is sent.  A point that is built is sent in
    an upsert of its own; the record's line is the added line when that
    upsert went through, and the error line, with the store's error,
    when it did not. *)
Definition handled (m : model) (name : string) (sparse : bool)
    (command : dict) (w : world) : world :=
  match point_for m sparse command with
  | Raise e => printed (failed_line command e) w
  | Ok p =>
      match upsert E name [p] w with
      | (Ok _, w') => printed (added_line command) w'
      | (Raise e, w') => printed (failed_line command e) w'
      end
  end.

(** The request reads the configuration of [name]. *)
Definition reads_collection (name : string) (c : call) : Prop :=
  c = CGetCollection name.

(** A store whose search request times out after the collection has
    been read. *)
Definition search_times_out : world :=
  {| store := {[ "cmds" := Demo.sparse_collection ]};
     faults := [false; true]; out := []; calls := [] |}.

(** [sv] holds the indices and the values of an embedding that a sparse
    model of the library returned, unchanged: a corpus embedding, or,
    with [query], a query embedding. *)
Definition from_library (query : bool) (sv : SparseVector) : Prop :=
  exists n m t s,
    load_sparse E n = Returned m /\
    (if query then m_query_embed m t else m_embed m t) = Returned (ESparse s) /\
    sv_indices sv = se_indices s /\ sv_values sv = se_values s.

(** The sparse vector of a point, if it has one, is a corpus embedding
    of the library. *)
Definition point_copied (p : PointStruct) : Prop :=
  match pt_sparse_vectors p with
  | Some (_, sv) => from_library false sv
  | None => True
  end.

(** The sparse vectors of a request are the library's: corpus embeddings
    in an upsert, the query embedding in a search. *)
Definition copied (c : call) : Prop :=
  match c with
  | CUpsert _ pts => Forall point_copied pts
  | CSearch _ _ (Some (_, sv)) _ => from_library true sv
  | _ => True
  end.

(** A sparse model whose embeddings break the invariant: three indices,
    one of them twice and one negative, for a single value. *)
Definition skewed_model : model :=
  {| m_embed := fun _ =>
       Returned (ESparse {| se_indices := [3; 3; -1]%Z; se_values := [1%float] |});
     m_query_embed := fun _ =>
       Returned (ESparse {| se_indices := [3; 3; -1]%Z; se_values := [1%float] |}) |}.

Definition skewed_env : Env :=
  {| load_sparse := fun _ => Returned skewed_model;
     load_dense := load_dense Demo.env;
     store_accepts := store_accepts Demo.env;
     store_search := store_search Demo.env;
     py_repr := py_repr Demo.env |}.

(** The point of the item at position [k], in the words of the claim on
    default ids: its payload is the item, its id is the item's [id] or,
    for an item without one, the position [k]; its vector is the
    embedding of the item's text, in the format of the mode. *)
Definition positioned (m : model) (sparse : bool) (k : nat) (it : dict)
    : res PointStruct :=
  res_bind (GenerateEmbeddings.create_text_representation E it) (fun text =>
  res_bind (embed m text) (fun e =>
  res_bind (point_id (dict_get_default "id" (VInt (Z.of_nat k)) it)) (fun id =>
  if sparse then
    res_bind (sparse_vector_of e) (fun sv =>
    Ok {| pt_id := id; pt_payload := it; pt_vector := None;
          pt_sparse_vectors := Some ("text", sv) |})
  else
    res_bind (tolist e) (fun v =>
    Ok {| pt_id := id; pt_payload := it; pt_vector := Some v;
          pt_sparse_vectors := None |})))).

(** [pts] are the points of [items], position by position. *)
Definition positioned_all (m : model) (sparse : bool) (items : list dict)
    (pts : list PointStruct) : Prop :=
  length pts = length items /\
  forall k it p, items !! k = Some it -> pts !! k = Some p ->
                 positioned m sparse k it = Ok p.

End Vocabulary.

(** ** Reasoning about runs *)

Lemma post_intro {A} (m : M A) w (Q : res A -> world -> Prop) r w' :
  m w = (r, w') -> Q r w' -> post m w Q.
Proof. unfold post. intros H HQ. rewrite H. done. Qed.

Lemma post_elim {A} (m : M A) w (Q : res A -> world -> Prop) r w' :
  post m w Q -> m w = (r, w') -> Q r w'.
Proof. unfold post. intros H Hr. rewrite Hr in H. done. Qed.

Lemma post_mono {A} (m : M A) w (P Q : res A -> world -> Prop) :
  post m w P -> (forall r w', P r w' -> Q r w') -> post m w Q.
Proof. unfold post. auto. Qed.

Lemma post_ret {A} (a : A) w (Q : res A -> world -> Prop) :
  Q (Ok a) w -> post (ret a) w Q.
Proof. done. Qed.

Lemma post_raise {A} (e : exn) w (Q : res A -> world -> Prop) :
  Q (Raise e) w -> post (raise e) w Q.
Proof. done. Qed.

Lemma post_lift {A} (r : res A) w (Q : res A -> world -> Prop) :
  Q r w -> post (lift r) w Q.
Proof. done. Qed.

Lemma post_bind {A B} (m : M A) (k : A -> M B) w (Q : res B -> world -> Prop) :
  post m w (fun r w1 => match r with
                        | Ok a => post (k a) w1 Q
                        | Raise e => Q (Raise e) w1
                        end) ->
  post (bind m k) w Q.
Proof. unfold post, bind. destruct (m w) as [[a|e] w1]; done. Qed.

Lemma post_try_except {A} (body : M A) (handler : exn -> M A) w
    (Q : res A -> world -> Prop) :
  post body w (fun r w1 => match r with
                           | Ok a => Q (Ok a) w1
                           | Raise e => if is_Exception e then post (handler e) w1 Q
                                        else Q (Raise e) w1
                           end) ->
  post (try_except body handler) w Q.
Proof.
  unfold post, try_except. destruct (body w) as [[a|e] w1]; simpl; [done|].
  destruct (is_Exception e); done.
Qed.

Lemma post_print (s : string) w (Q : res unit -> world -> Prop) :
  Q (Ok tt) (printed s w) -> post (print s) w Q.
Proof. done. Qed.

(** A request either fails on the network or reaches the store. *)
Lemma post_request (c : call) w (Q : res unit -> world -> Prop) :
  Q (Raise unavailable) (requested c w) ->
  Q (Ok tt) (requested c w) ->
  post (request c) w Q.
Proof. unfold post, request. simpl. destruct (faults w) as [|[] ?]; done. Qed.

Lemma post_get_collection (name : string) w (Q : res collection -> world -> Prop) :
  Q (Raise unavailable) (requested (CGetCollection name) w) ->
  (forall c, store w !! name = Some c ->
             Q (Ok c) (requested (CGetCollection name) w)) ->
  (store w !! name = None ->
   Q (Raise (not_found name)) (requested (CGetCollection name) w)) ->
  post (get_collection name) w Q.
Proof.
  intros Hf Hs Hn. unfold get_collection. apply post_bind, post_request; [done|].
  unfold post. simpl. destruct (store w !! name) eqn:Hl; simpl; auto.
Qed.

(** A loop under an invariant [I]: the loop ends normally with [I], or one
    iteration raises. *)
Lemma post_for_each {A} (l : list A) (body : A -> M unit) (I : world -> Prop)
    (Q : res unit -> world -> Prop) w :
  I w ->
  (forall x w1, x ∈ l -> I w1 ->
     post (body x) w1 (fun r w2 => match r with
                                   | Ok _ => I w2
                                   | Raise e => Q (Raise e) w2
                                   end)) ->
  (forall w1, I w1 -> Q (Ok tt) w1) ->
  post (for_each l body) w Q.
Proof.
  intros HI Hbody Hend. revert w HI. induction l as [|x l IH]; intros w HI.
  - apply post_ret. auto.
  - simpl. apply post_bind. eapply post_mono.
    + apply Hbody; [left|done].
    + intros [[]|e] w2 H; [|done]. apply IH; [|done].
      intros y w3 Hy. apply Hbody. by right.
Qed.

(** ** The capability probe *)

Lemma supports_sparse_vectors_run (name : string) (w : world) :
  CloudFixed.supports_sparse_vectors name w
  = (Ok (probe w name), requested (CGetCollection name) w).
Proof.
  unfold CloudFixed.supports_sparse_vectors, try_except, get_collection, bind,
    request, probe.
  destruct (faults w) as [|[] fs]; simpl; try done;
    destruct (store w !! name) as [c|]; simpl; try done;
    destruct (sparse_fields c); done.
Qed.

(** C2 (as amended).  The probe of psadt_fastembed_cloud_fixed never
    raises: it answers [probe w name] after one get-collection request,
    and for a collection that does not exist the answer is [False]. *)
Theorem supports_sparse_vectors_never_raises (name : string) (w : world) :
  CloudFixed.supports_sparse_vectors name w
  = (Ok (probe w name), requested (CGetCollection name) w)
  /\ (store w !! name = None -> probe w name = false).
Proof.
  split; [apply supports_sparse_vectors_run|].
  intros H. unfold probe. rewrite H. destruct (faults w) as [|[] ?]; done.
Qed.

(** C2, counterexample.  No collection exists in the empty store, and the
    probe of a name answers [False] instead of raising. *)
Lemma probe_of_missing_collection_is_false :
  store Demo.empty_world !! "cmds" = None /\
  (CloudFixed.supports_sparse_vectors "cmds" Demo.empty_world).1 = Ok false.
Proof. split; reflexivity. Qed.

(** ** Exceptions of the pure steps *)

Lemma catchable_Ok {A} (a : A) : catchable (Ok a).
Proof. intros e H. discriminate. Qed.

Lemma catchable_raised_as {A} (k : exn_kind) (r : answer A) :
  k <> SystemExit -> catchable (raised_as k r).
Proof. intros Hk e. destruct r; simpl; intros [= <-]. by destruct k. Qed.

Lemma catchable_bind {A B} (r : res A) (k : A -> res B) :
  catchable r -> (forall a, catchable (k a)) -> catchable (res_bind r k).
Proof. intros Hr Hk e. destruct r as [a|e']; simpl; [exact (Hk a e)|intros [= <-]; by apply (Hr e')]. Qed.

Lemma catchable_subscript v k : catchable (subscript v k).
Proof.
  intros e. destruct v; simpl; try (intros [= <-]; done).
  destruct (dict_get k d); intros [= <-]; done.
Qed.

Lemma catchable_point_id v : catchable (point_id v).
Proof. intros e. destruct v; simpl; intros [= <-]; done. Qed.

Lemma catchable_tolist e : catchable (tolist e).
Proof. intros x. destruct e; simpl; intros [= <-]; done. Qed.

Lemma catchable_sparse_vector_of e : catchable (sparse_vector_of e).
Proof. intros x. destruct e; simpl; intros [= <-]; done. Qed.

Lemma catchable_embed m t : catchable (embed m t).
Proof. by apply catchable_raised_as. Qed.

Lemma catchable_query_embed m t : catchable (query_embed m t).
Proof. by apply catchable_raised_as. Qed.

Lemma catchable_SparseTextEmbedding E n : catchable (SparseTextEmbedding E n).
Proof. by apply catchable_raised_as. Qed.

Lemma catchable_TextEmbedding E n : catchable (TextEmbedding E n).
Proof. by apply catchable_raised_as. Qed.

Create HintDb catchable.
#[global] Hint Resolve catchable_Ok catchable_bind catchable_subscript
  catchable_point_id catchable_tolist catchable_sparse_vector_of
  catchable_embed catchable_query_embed catchable_SparseTextEmbedding
  catchable_TextEmbedding : catchable.
Lemma catchable_item d k : catchable (item d k).
Proof. apply catchable_subscript. Qed.

#[global] Hint Resolve catchable_raised_as catchable_item : catchable.
#[global] Hint Extern 1 (_ <> SystemExit) => discriminate : catchable.
#[global] Hint Unfold item : catchable.

Lemma catchable_sparse_point m text command :
  catchable (CloudFixed.sparse_point m text command).
Proof. unfold CloudFixed.sparse_point. auto 10 with catchable. Qed.

Lemma catchable_dense_point m text command :
  catchable (CloudFixed.dense_point m text command).
Proof. unfold CloudFixed.dense_point. auto 10 with catchable. Qed.

#[global] Hint Resolve catchable_sparse_point catchable_dense_point : catchable.

Lemma post_search (E : Env) name qv qsv limit w
    (Q : res (list ScoredPoint) -> world -> Prop) :
  Q (Raise unavailable) (requested (CSearch name qv qsv limit) w) ->
  (store w !! name = None ->
   Q (Raise (not_found name)) (requested (CSearch name qv qsv limit) w)) ->
  (forall c, store w !! name = Some c ->
     Q (raised_as BadRequest (store_search E c qv qsv limit))
       (requested (CSearch name qv qsv limit) w)) ->
  post (search E name qv qsv limit) w Q.
Proof.
  intros Hf Hn Hs. unfold search. apply post_bind, post_request; [done|].
  unfold post. simpl. destruct (store w !! name) eqn:Hl; simpl; auto.
Qed.

Lemma post_supports name w (Q : res bool -> world -> Prop) :
  Q (Ok (probe w name)) (requested (CGetCollection name) w) ->
  post (CloudFixed.supports_sparse_vectors name) w Q.
Proof. unfold post. by rewrite supports_sparse_vectors_run. Qed.

(** One step of a run. *)
Ltac wp_step :=
  lazymatch goal with
  | |- post (bind _ _) _ _ => apply post_bind
  | |- post (ret _) _ _ => apply post_ret
  | |- post (raise _) _ _ => apply post_raise
  | |- post (lift _) _ _ => apply post_lift
  | |- post (print _) _ _ => apply post_print
  | |- post (try_except _ _) _ _ => apply post_try_except
  | |- post (get_collection _) _ _ => apply post_get_collection
  | |- post (search _ _ _ _ _) _ _ => apply post_search
  | |- post (CloudFixed.supports_sparse_vectors _) _ _ => apply post_supports
  | |- post (if ?b then _ else _) _ _ =>
      lazymatch b with
      | negb true => change b with false; cbv iota
      | negb false => change b with true; cbv iota
      | true => cbv iota
      | false => cbv iota
      | _ => destruct b eqn:?
      end
  | |- post (match ?x with _ => _ end) _ _ => destruct x eqn:?
  | |- match ?r with Ok _ => _ | Raise _ => _ end =>
      lazymatch r with
      | Ok _ => progress cbv iota
      | Raise _ => progress cbv iota
      | raised_as _ ?a => destruct a eqn:?; simpl raised_as
      | _ => destruct r eqn:?
      end
  | H : ?r = Raise ?e |- if is_Exception ?e then _ else _ =>
      let C := fresh in
      assert (C : is_Exception e = true)
        by (apply (fun c : catchable r => c e H); auto with catchable);
      rewrite C; clear C
  | |- if is_Exception ?e then _ else _ =>
      let b := eval cbv [is_Exception kind unavailable not_found conflict rejected] in (is_Exception e) in
      progress change (is_Exception e) with b
  | |- if ?b then _ else _ => progress cbv iota
  | |- forall _, _ => intro
  end.

Ltac wp := repeat (wp_step; cbv beta).

Lemma raised_as_kind {A} (k : exn_kind) (r : answer A) (e : exn) :
  raised_as k r = Raise e -> kind e = k.
Proof. destruct r; simpl; intros [= <-]; done. Qed.

Section SearchRuns.
Variable E : Env.

Lemma perform_search_post us qe name limit w w0 :
  store w = store w0 ->
  post (CloudFixed.perform_search E us qe name limit) w (search_outcome E w0 limit).
Proof.
  intros Hw.
  unfold CloudFixed.perform_search, CloudFixed.search_request, search_outcome.
  wp.
  all: simpl; (split; [done|]).
  all: first [ by exists []; auto
             | eexists; split; [done|]; right; unfold answered;
               rewrite <- Hw; eauto 10 ].
Qed.

Lemma choose_collection_post query name qe w :
  post (CloudFixed.choose_collection E query name qe) w
    (fun r w' => store w' = store w /\ exists st, r = Ok st).
Proof.
  unfold CloudFixed.choose_collection, CloudFixed.fall_back.
  wp.
  all: simpl; eauto.
Qed.

(** Only the model lines ahead of the [try] blocks can raise. *)
Lemma search_psadt_commands_post query use_sparse limit w :
  post (CloudFixed.search_psadt_commands E query use_sparse limit) w
    (fun r w' => match r with
                 | Ok _ => search_outcome E w limit r w'
                 | Raise e => kind e = ModelError /\ calls w' = calls w
                 end).
Proof.
  unfold CloudFixed.search_psadt_commands.
  wp.
  - eapply post_mono; [apply choose_collection_post|].
    intros r w1 [Hs [st ->]]. destruct st as [[[us' qe'] name]|].
    + eapply post_mono; [by apply perform_search_post|].
      intros r w2 [Hs2 [hits [-> Hh]]]. split; eauto.
    + apply post_ret. split; [done|]. exists []. auto.
  - eapply post_mono; [by apply (perform_search_post _ _ _ _ _ w)|].
    intros r w2 [Hs2 [hits [-> Hh]]]. split; eauto.
  - split; [|done]. destruct use_sparse; eapply raised_as_kind; eassumption.
  - split; [|done]. destruct use_sparse; eapply raised_as_kind; eassumption.
Qed.
End SearchRuns.

Section ScoredResults.
Variable E : Env.

Lemma search_commands_post query name limit w :
  post (UseExisting.search_commands E query name limit) w
    (fun r w' => match r with
                 | Ok _ => search_outcome E w limit r w'
                 | Raise _ => True
                 end).
Proof.
  unfold UseExisting.search_commands, search_outcome.
  wp.
  all: simpl; try done; (split; [done|]).
  all: first [ by exists []; auto
             | eexists; split; [done|]; right; unfold answered; eauto 10 ].
Qed.

Lemma dict_get_set_ne k k' v d :
  k <> k' -> dict_get k (dict_set k' v d) = dict_get k d.
Proof.
  intros Hne. induction d as [|[k0 v0] d IH]; simpl.
  - by rewrite decide_False.
  - destruct (decide (k' = k0)) as [->|]; simpl.
    + by rewrite !decide_False.
    + destruct (decide (k = k0)); [done|apply IH].
Qed.

Lemma dict_get_set_eq k v d : dict_get k (dict_set k v d) = Some v.
Proof.
  induction d as [|[k0 v0] d IH]; simpl.
  - by rewrite decide_True.
  - destruct (decide (k = k0)) as [->|]; simpl.
    + by rewrite decide_True.
    + by rewrite decide_False.
Qed.

(** The keys of a dictionary keep their order under an assignment to an
    existing key. *)
Lemma dict_set_keys k v d :
  map fst (dict_set k v d)
  = if dict_in k d then map fst d else (map fst d ++ [k])%list.
Proof.
  unfold dict_in. induction d as [|[k0 v0] d IH]; simpl; [done|].
  destruct (decide (k = k0)) as [->|]; simpl; [done|].
  rewrite IH. by destruct (dict_get k d).
Qed.

(** C9 (as amended).  A successful search returns, in the store's own
    order, the payload of every hit with the key [score] set to the
    hit's similarity score: every other key keeps its value, and a
    [score] key of the payload itself is replaced. *)
Theorem search_returns_scored_payloads :
  (forall query use_sparse limit w,
      match (CloudFixed.search_psadt_commands E query use_sparse limit w).1 with
      | Ok rs => exists hits, rs = map attach_score hits /\
                              (hits = [] \/ answered E w limit hits)
      | Raise _ => True
      end) /\
  (forall query name limit w,
      match (UseExisting.search_commands E query name limit w).1 with
      | Ok rs => exists hits, rs = map attach_score hits /\
                              (hits = [] \/ answered E w limit hits)
      | Raise _ => True
      end) /\
  (forall r k, k <> "score" ->
               dict_get k (attach_score r) = dict_get k (hit_payload r)) /\
  (forall r, dict_get "score" (attach_score r) = Some (VFloat (hit_score r))) /\
  (forall r, map fst (attach_score r)
             = if dict_in "score" (hit_payload r) then map fst (hit_payload r)
               else (map fst (hit_payload r) ++ ["score"])%list).
Proof.
  repeat split.
  - intros query use_sparse limit w.
    pose proof (search_psadt_commands_post E query use_sparse limit w) as H.
    unfold post in H.
    destruct (CloudFixed.search_psadt_commands E query use_sparse limit w).1
      as [rs|e]; [|done].
    destruct H as [_ [hits [[= ->] Hh]]]. eauto.
  - intros query name limit w.
    pose proof (search_commands_post query name limit w) as H.
    unfold post in H.
    destruct (UseExisting.search_commands E query name limit w).1
      as [rs|e]; [|done].
    destruct H as [_ [hits [[= ->] Hh]]]. eauto.
  - intros r k Hk. by apply dict_get_set_ne.
  - intros r. apply dict_get_set_eq.
  - intros r. apply dict_set_keys.
Qed.
End ScoredResults.

(** C9, counterexample.  A stored payload with a [score] field of its own
    comes back from the search with that field replaced by the similarity
    score. *)
Lemma search_replaces_payload_score :
  let payload := [("name", VStr "Get-Score"); ("score", VStr "high")] in
  let c := {| c_vectors := {| vp_size := 1; vp_distance := DOT |};
              c_sparse_vectors := Some [("text", {| sp_on_disk := true |})];
              c_points := {[ IdInt 7 := Demo.point_of payload 7 ]} |} in
  dict_get "score" payload = Some (VStr "high") /\
  (UseExisting.search_commands Demo.env "score" "cmds" 3 (Demo.world_with "cmds" c)).1
  = Ok [[("name", VStr "Get-Score"); ("score", VFloat 1%float)]].
Proof. split; vm_compute; reflexivity. Qed.

(** ** Errors of a search call *)

Section SearchErrors.
Variable E : Env.

Lemma search_request_raises us qe name limit w e w1 :
  CloudFixed.search_request E us qe name limit w = (Raise e, w1) ->
  is_Exception e = true.
Proof.
  intros H.
  apply (post_elim _ _ (fun r _ => catchable r) _ _) in H; [by apply H|].
  unfold CloudFixed.search_request. wp.
  all: try (intros x [= <-]; done); auto with catchable.
  all: match goal with H : _ = Raise ?e0 |- catchable (Raise ?e0) =>
         intros x [= <-]; apply (fun c : catchable _ => c e0 H);
         auto with catchable end.
Qed.

End SearchErrors.

(** C6, counterexample.  With no collection in the store, and again with
    the search request timing out, the dense search returns the empty
    list, as it does for a collection that has no points. *)
Lemma failed_search_returns_empty_list :
  let empty_collection :=
    {| c_vectors := {| vp_size := 384; vp_distance := COSINE |};
       c_sparse_vectors := None; c_points := ∅ |} in
  let timing_out :=
    {| store := {[ "psadt_commands" := Demo.dense_collection ]};
       faults := [true]; out := []; calls := [] |} in
  store Demo.empty_world !! "psadt_commands" = None /\
  (CloudFixed.search_psadt_commands Demo.env "close" false 3 Demo.empty_world).1
  = Ok [] /\
  (CloudFixed.search_psadt_commands Demo.env "close" false 3 timing_out).1
  = Ok [] /\
  (CloudFixed.search_psadt_commands Demo.env "close" false 3
     (Demo.world_with "psadt_commands" empty_collection)).1
  = Ok [].
Proof. repeat split; vm_compute; reflexivity. Qed.

(** ** The sparse-to-dense fallback of the search *)

Lemma probe_lacks_sparse w w' name :
  lacks_sparse w name -> store w' = store w -> probe w' name = false.
Proof.
  intros H Hs. unfold probe. rewrite Hs.
  destruct (faults w') as [|[] ?]; try done;
    destruct (store w !! name) as [c|] eqn:Hc; try done;
    by rewrite (H c Hc).
Qed.

Section Fallback.
Variable E : Env.

Lemma search_run name qv qsv limit w :
  search E name qv qsv limit w
  = (match faults w with
     | true :: _ => Raise unavailable
     | _ => match store w !! name with
            | Some c => raised_as BadRequest (store_search E c qv qsv limit)
            | None => Raise (not_found name)
            end
     end, requested (CSearch name qv qsv limit) w).
Proof.
  unfold search, bind, request.
  destruct (faults w) as [|[] fs]; simpl; try done;
    destruct (store w !! name); done.
Qed.

(** C1 (as amended).  In psadt_fastembed_cloud_fixed a sparse search on
    a collection without sparse support, when [<name>_new] has none
    either, continues as the dense search of the same collection: the
    warning line is printed, the store is left as it was, and the value
    returned is that of the dense search, a plain list of scored
    payloads.  In use_existing_collection the call prints an error and
    returns the empty list without searching. *)
Theorem sparse_search_falls_back_to_dense :
  (forall query limit w m qe md dv,
      load_sparse E BM25 = Returned m ->
      m_query_embed m query = Returned qe ->
      load_dense E BGE_SMALL = Returned md ->
      m_embed md query = Returned (EDense dv) ->
      lacks_sparse w CloudFixed.COMMANDS_COLLECTION ->
      lacks_sparse w (CloudFixed.COMMANDS_COLLECTION +:+ "_new") ->
      CloudFixed.search_psadt_commands E query true limit w
      = CloudFixed.perform_search E false (EDense dv)
          CloudFixed.COMMANDS_COLLECTION limit (after_fallback query w)
      /\ out (after_fallback query w)
         = app (out w)
             ["Searching for: '" +:+ query +:+ "' using sparse embeddings...";
              CloudFixed.fallback_message]
      /\ calls (CloudFixed.search_psadt_commands E query true limit w).2
         = app (calls w)
             [CGetCollection CloudFixed.COMMANDS_COLLECTION;
              CGetCollection (CloudFixed.COMMANDS_COLLECTION +:+ "_new");
              CSearch CloudFixed.COMMANDS_COLLECTION (Some dv) None limit]
      /\ store (CloudFixed.search_psadt_commands E query true limit w).2
         = store w) /\
  (forall query name limit w m c,
      load_sparse E BM25 = Returned m ->
      store w !! name = Some c ->
      sparse_fields c = None ->
      head (faults w) <> Some true ->
      UseExisting.search_commands E query name limit w
      = (Ok [],
         printed "Error: Collection does not support sparse vectors."
           (requested (CGetCollection name)
              (printed ("Searching for '" +:+ query +:+ "' in collection '"
                        +:+ name +:+ "'...") w)))).
Proof.
  split.
  - intros query limit w m qe md dv Hm Hq Hmd Hd H1 H2.
    assert (Hrun : CloudFixed.search_psadt_commands E query true limit w
                   = CloudFixed.perform_search E false (EDense dv)
                       CloudFixed.COMMANDS_COLLECTION limit
                       (after_fallback query w)).
    assert (P1 : forall w', store w' = store w ->
                   probe w' "psadt_commands" = false)
      by (intros; by apply (probe_lacks_sparse w)).
    assert (P2 : forall w', store w' = store w ->
                   probe w' "psadt_commands_new" = false)
      by (intros; by apply (probe_lacks_sparse w)).
    { unfold CloudFixed.search_psadt_commands, CloudFixed.choose_collection,
        CloudFixed.fall_back, after_fallback.
      unfold bind at 1. simpl print.
      unfold lift, SparseTextEmbedding, TextEmbedding, query_embed, embed,
        bind, try_except.
      rewrite Hm. simpl. rewrite Hq. simpl.
      rewrite supports_sparse_vectors_run.
      first [rewrite P1 by done | rewrite (probe_lacks_sparse w _ _ H1) by done].
      simpl. rewrite supports_sparse_vectors_run.
      first [rewrite P2 by done | rewrite (probe_lacks_sparse w _ _ H2) by done].
      simpl.
      rewrite Hmd. simpl. rewrite Hd. simpl. reflexivity. }
    split; [exact Hrun|]. split.
    { unfold after_fallback. simpl. by rewrite <- app_assoc. }
    rewrite Hrun.
    unfold CloudFixed.perform_search, CloudFixed.search_request, try_except,
      bind, lift, print, ret. simpl tolist. cbv iota beta.
    rewrite search_run. simpl.
    destruct (faults w) as [|b0 [|b1 [|[] fs]]]; simpl;
      try (by rewrite <- !app_assoc);
      destruct (store w !! CloudFixed.COMMANDS_COLLECTION) as [c|]; simpl;
      try (by rewrite <- !app_assoc);
      destruct (store_search E c (Some dv) None limit); simpl;
      by rewrite <- !app_assoc.
  - intros query name limit w m c Hm Hc Hs Hf.
    assert (Hf' : UseExisting.first_sparse_field c = None)
      by (unfold UseExisting.first_sparse_field; by rewrite Hs).
    unfold UseExisting.search_commands, bind, print, lift, SparseTextEmbedding,
      get_collection, bind, request.
    rewrite Hm. unfold printed, requested.
    cbn [raised_as store faults]. rewrite Hc.
    destruct (faults w) as [|[] fs]; cbn [head] in Hf; try congruence;
      by rewrite Hf'.
Qed.
End Fallback.

(** C1, witness: the fallback on the sample dense collection. *)
Lemma sparse_search_falls_back_on_dense_collection :
  calls (CloudFixed.search_psadt_commands Demo.env "close" true 3
           (Demo.world_with "psadt_commands" Demo.dense_collection)).2
  = [CGetCollection "psadt_commands"; CGetCollection "psadt_commands_new";
     CSearch "psadt_commands" (Some [0.25; 0.75]%float) None 3].
Proof.
  assert (H1 : lacks_sparse (Demo.world_with "psadt_commands" Demo.dense_collection)
                 CloudFixed.COMMANDS_COLLECTION).
  { intros c Hc. vm_compute in Hc. by simplify_eq. }
  assert (H2 : lacks_sparse (Demo.world_with "psadt_commands" Demo.dense_collection)
                 (CloudFixed.COMMANDS_COLLECTION +:+ "_new")).
  { intros c Hc. vm_compute in Hc. by simplify_eq. }
  exact (proj1 (proj2 (proj2
           (proj1 (sparse_search_falls_back_to_dense Demo.env) "close" 3%Z
              (Demo.world_with "psadt_commands" Demo.dense_collection)
              Demo.sparse_model _ Demo.dense_model _
              eq_refl eq_refl eq_refl eq_refl H1 H2)))).
Defined.

(** C1, counterexample.  A sparse search served by a collection with
    sparse support and one that fell back to the dense search return the
    same value: nothing in it tells the two apart. *)
Lemma fallback_is_not_in_the_result :
  let genuine := CloudFixed.search_psadt_commands Demo.env "close" true 3
                   (Demo.world_with "psadt_commands" Demo.sparse_collection) in
  let degraded := CloudFixed.search_psadt_commands Demo.env "close" true 3
                    (Demo.world_with "psadt_commands" Demo.dense_collection) in
  genuine.1 = degraded.1 /\
  calls genuine.2
  = [CGetCollection "psadt_commands";
     CSearch "psadt_commands" (Some [0%float])
       (Some ("text", {| sv_indices := [3; 17]%Z; sv_values := [1; 1]%float |})) 3] /\
  calls degraded.2
  = [CGetCollection "psadt_commands"; CGetCollection "psadt_commands_new";
     CSearch "psadt_commands" (Some [0.25; 0.75]%float) None 3].
Proof. repeat split; vm_compute; reflexivity. Qed.

(** ** Writes of the ingestion *)

Lemma post_create_collection name vc sc w (Q : res bool -> world -> Prop) :
  Q (Raise unavailable) (requested (CCreateCollection name vc sc) w) ->
  (forall c, store w !! name = Some c ->
     Q (Raise (conflict name)) (requested (CCreateCollection name vc sc) w)) ->
  (store w !! name = None -> Q (Ok true) (created name vc sc w)) ->
  post (create_collection name vc sc) w Q.
Proof.
  intros Hf Hc Hn. unfold create_collection. apply post_bind, post_request; [done|].
  unfold post. simpl. destruct (store w !! name) eqn:Hl; simpl; eauto.
Qed.

Lemma post_upsert (E : Env) name pts w (Q : res unit -> world -> Prop) :
  Q (Raise unavailable) (requested (CUpsert name pts) w) ->
  (store w !! name = None ->
   Q (Raise (not_found name)) (requested (CUpsert name pts) w)) ->
  (forall c, store w !! name = Some c ->
     forallb (store_accepts E c) pts = false ->
     Q (Raise rejected) (requested (CUpsert name pts) w)) ->
  (forall c, store w !! name = Some c ->
     forallb (store_accepts E c) pts = true ->
     Q (Ok tt) (upserted name c pts w)) ->
  post (upsert E name pts) w Q.
Proof.
  intros Hf Hn Hr Hs. unfold upsert. apply post_bind, post_request; [done|].
  unfold post. simpl. destruct (store w !! name) as [c|] eqn:Hl; simpl; [|auto].
  destruct (forallb (store_accepts E c) pts) eqn:Ha; simpl; eauto.
Qed.

Lemma store_grows_refl s : store_grows s s.
Proof. intros name c H. exists c. auto. Qed.

Lemma store_grows_trans s1 s2 s3 :
  store_grows s1 s2 -> store_grows s2 s3 -> store_grows s1 s3.
Proof.
  intros H12 H23 name c H.
  destruct (H12 name c H) as (c2 & H2 & Hv & Hsp & Hp).
  destruct (H23 name c2 H2) as (c3 & H3 & Hv3 & Hsp3 & Hp3).
  exists c3. repeat split; [done|congruence|congruence|auto].
Qed.

Lemma upsert_points_keeps pts m i :
  is_Some (m !! i) -> is_Some (upsert_points pts m !! i).
Proof.
  unfold upsert_points. revert m. induction pts as [|p pts IH]; intros m H; [done|].
  simpl. apply IH. destruct (decide (pt_id p = i)) as [->|Hne].
  - rewrite lookup_insert_eq. eauto.
  - by rewrite lookup_insert_ne.
Qed.

Lemma store_grows_create s name c :
  s !! name = None -> store_grows s (<[name := c]> s).
Proof.
  intros Hn n c0 H. exists c0. rewrite lookup_insert_ne by congruence. auto.
Qed.

Lemma store_grows_upsert s name c pts :
  s !! name = Some c ->
  store_grows s (<[name := {| c_vectors := c_vectors c;
                              c_sparse_vectors := c_sparse_vectors c;
                              c_points := upsert_points pts (c_points c) |}]> s).
Proof.
  intros Hc n c0 H. destruct (decide (name = n)) as [->|Hne].
  - rewrite lookup_insert_eq. eexists. split; [done|].
    assert (c0 = c) as -> by congruence. simpl.
    repeat split; auto using upsert_points_keeps.
  - exists c0. rewrite lookup_insert_ne by done. auto.
Qed.

Lemma issued_refl P cs : issued P cs cs.
Proof. exists []. by rewrite app_nil_r. Qed.

Lemma issued_snoc P cs cs' c : issued P cs cs' -> P c -> issued P cs (cs' ++ [c]).
Proof.
  intros (new & -> & H) Hc. exists (new ++ [c]). rewrite app_assoc. split; [done|].
  apply Forall_app. auto.
Qed.

Ltac wp_io_step :=
  first
    [ wp_step
    | lazymatch goal with
      | |- post (create_collection _ _ _) _ _ => apply post_create_collection
      | |- post (upsert _ _ _) _ _ => apply post_upsert
      end ].

Ltac wp_io := repeat (wp_io_step; cbv beta).

Section Ingestion.
Variable E : Env.

Lemma grows_refl w : grows w w.
Proof. split; [apply store_grows_refl|apply issued_refl]. Qed.

Lemma grows_printed w0 w s : grows w0 w -> grows w0 (printed s w).
Proof. done. Qed.

Lemma grows_requested w0 w c :
  not_a_delete c -> grows w0 w -> grows w0 (requested c w).
Proof. intros Hc [Hs Hi]. split; [done|]. by apply issued_snoc. Qed.

Lemma grows_created w0 w name vc sc :
  store w !! name = None -> grows w0 w -> grows w0 (created name vc sc w).
Proof.
  intros Hn [Hs Hi]. split; simpl.
  - eapply store_grows_trans; [done|]. by apply store_grows_create.
  - by apply issued_snoc.
Qed.

Lemma grows_upserted w0 w name c pts :
  store w !! name = Some c -> grows w0 w -> grows w0 (upserted name c pts w).
Proof.
  intros Hn [Hs Hi]. split; simpl.
  - eapply store_grows_trans; [done|]. by apply store_grows_upsert.
  - by apply issued_snoc.
Qed.

Hint Resolve grows_printed grows_requested grows_created grows_upserted : core.
Hint Extern 1 (not_a_delete _) => exact I : core.

Lemma add_command_grows m name us ce ss command w0 w :
  grows w0 w ->
  post (CloudFixed.add_command E m name us ce ss command) w
    (fun _ w' => grows w0 w').
Proof.
  intros H.
  unfold CloudFixed.add_command, CloudFixed.upsert_sparse, CloudFixed.upsert_dense.
  wp_io; auto 6.
Qed.

Lemma create_embeddings_grows commands use_sparse w :
  post (CloudFixed.create_embeddings_for_commands E commands use_sparse) w
    (fun _ w' => grows w w').
Proof.
  pose proof (grows_refl w) as H.
  unfold CloudFixed.create_embeddings_for_commands, CloudFixed.prepare_collection.
  wp_io; auto 8.
  all: apply (post_for_each _ _ (grows w)); [auto 9| |intros; wp; auto].
  all: intros x w1 _ Hw1; eapply post_mono; [by apply add_command_grows|].
  all: by intros [[]|e] w2 Hw2.
Qed.

Lemma keeps_printed name c w0 w s : keeps name c w0 w -> keeps name c w0 (printed s w).
Proof. done. Qed.

Lemma keeps_requested name c w0 w x :
  writes_only_to name x -> keeps name c w0 w -> keeps name c w0 (requested x w).
Proof. intros Hx [Hs Hi]. split; [done|]. by apply issued_snoc. Qed.

Lemma keeps_created name c w0 w vc sc :
  name <> CloudFixed.COMMANDS_COLLECTION ->
  keeps name c w0 w -> keeps name c w0 (created name vc sc w).
Proof.
  intros Hn [Hs Hi]. split; simpl.
  - by rewrite lookup_insert_ne.
  - apply issued_snoc; [done|]. by left.
Qed.

Lemma keeps_upserted name c w0 w c' pts :
  name <> CloudFixed.COMMANDS_COLLECTION ->
  keeps name c w0 w -> keeps name c w0 (upserted name c' pts w).
Proof.
  intros Hn [Hs Hi]. split; simpl.
  - by rewrite lookup_insert_ne.
  - by apply issued_snoc.
Qed.

Hint Resolve keeps_printed keeps_requested keeps_created keeps_upserted : core.
Hint Extern 1 (writes_only_to _ _) => simpl; auto : core.

Lemma add_command_keeps m name us ce ss command c w0 w :
  name <> CloudFixed.COMMANDS_COLLECTION ->
  keeps name c w0 w ->
  post (CloudFixed.add_command E m name us ce ss command) w
    (fun _ w' => keeps name c w0 w').
Proof.
  intros Hn H.
  unfold CloudFixed.add_command, CloudFixed.upsert_sparse, CloudFixed.upsert_dense.
  wp_io; auto 6.
Qed.

Lemma create_embeddings_keeps commands c w :
  store w !! CloudFixed.COMMANDS_COLLECTION = Some c ->
  sparse_fields c = None ->
  post (CloudFixed.create_embeddings_for_commands E commands true) w
    (fun _ w' => keeps (CloudFixed.COMMANDS_COLLECTION +:+ "_new") c w w').
Proof.
  intros Hc Hs.
  assert (H : keeps (CloudFixed.COMMANDS_COLLECTION +:+ "_new") c w w)
    by (split; [done|apply issued_refl]).
  assert (Hne : CloudFixed.COMMANDS_COLLECTION +:+ "_new"
                <> CloudFixed.COMMANDS_COLLECTION) by done.
  unfold CloudFixed.create_embeddings_for_commands, CloudFixed.prepare_collection.
  assert (Hp : forall w1, store w1 = store w ->
                 probe w1 CloudFixed.COMMANDS_COLLECTION = false).
  { intros w1 Hw1. unfold probe. rewrite Hw1, Hc, Hs.
    by destruct (faults w1) as [|[] ?]. }
  wp_io; auto 9.
  all: try (exfalso; simpl in *; congruence).
  all: try (match goal with
            | H : negb (probe _ _) = false |- _ => rewrite Hp in H by done
            end; discriminate).
  all: apply (post_for_each _ _
                (keeps (CloudFixed.COMMANDS_COLLECTION +:+ "_new") c w));
    [auto 12| |intros; wp; auto].
  all: intros x w1 _ Hw1; eapply post_mono; [by apply add_command_keeps|].
  all: by intros [[]|e] w2 Hw2.
Qed.

(** C3 (as amended).  The ingestion of psadt_fastembed_cloud_fixed never
    deletes: it issues no delete request, every collection stays with
    its configuration and every stored id stays stored.  When sparse
    mode is asked for and [psadt_commands] exists without sparse
    support, that collection is left exactly as it was and every upsert
    goes to [psadt_commands_new]. *)
Theorem ingestion_spares_the_existing_collection :
  (forall commands use_sparse w,
      grows w (CloudFixed.create_embeddings_for_commands E commands use_sparse w).2) /\
  (forall commands w c,
      store w !! CloudFixed.COMMANDS_COLLECTION = Some c ->
      sparse_fields c = None ->
      keeps (CloudFixed.COMMANDS_COLLECTION +:+ "_new") c w
        (CloudFixed.create_embeddings_for_commands E commands true w).2).
Proof.
  split.
  - intros. apply create_embeddings_grows.
  - intros commands w c Hc Hs. by apply create_embeddings_keeps.
Qed.
End Ingestion.

(** C3, witness: sparse ingestion next to the sample dense collection. *)
Lemma sparse_ingestion_spares_dense_collection :
  keeps "psadt_commands_new" Demo.dense_collection
    (Demo.world_with "psadt_commands" Demo.dense_collection)
    (CloudFixed.create_embeddings_for_commands Demo.env [Demo.progress] true
       (Demo.world_with "psadt_commands" Demo.dense_collection)).2.
Proof.
  exact (proj2 (ingestion_spares_the_existing_collection Demo.env)
           [Demo.progress] (Demo.world_with "psadt_commands" Demo.dense_collection)
           Demo.dense_collection eq_refl eq_refl).
Defined.

(** C3, counterexample.  psadt_fastembed_cloud.py, asked for sparse mode
    while [psadt_commands] is a dense collection holding point 1, deletes
    the collection and creates it again: point 1 is gone. *)
Lemma legacy_ingestion_deletes_stored_points :
  let w := Demo.world_with "psadt_commands" Demo.dense_collection in
  let w' := (Cloud.create_embeddings_for_commands Demo.env [Demo.progress] true w).2 in
  (store w !! "psadt_commands" ≫= fun c => c_points c !! IdInt 1)
  = Some (Demo.point_of Demo.welcome 1) /\
  (store w' !! "psadt_commands" ≫= fun c => c_points c !! IdInt 1) = None /\
  take 3 (calls w')
  = [CGetCollection "psadt_commands"; CDeleteCollection "psadt_commands";
     CCreateCollection "psadt_commands" {| vp_size := 1; vp_distance := DOT |}
       (Some [("text", {| sp_on_disk := true |})])].
Proof. repeat split; vm_compute; reflexivity. Qed.

(** ** The upload loop *)

Section UploadLoop.
Variable E : Env.

Lemma command_text_name command text :
  CloudFixed.command_text E command = Ok text ->
  exists name, item command "name" = Ok name.
Proof.
  unfold CloudFixed.command_text. destruct (item command "name"); [eauto|done].
Qed.

Lemma add_command_line m name us ce ss command text w :
  CloudFixed.command_text E command = Ok text ->
  post (CloudFixed.add_command E m name us ce ss command) w
    (fun r w' => r = Ok tt /\
                 exists line, out w' = out w ++ [line] /\ outcome_line E command line).
Proof.
  intros Ht. destruct (command_text_name _ _ Ht) as [n Hn].
  unfold CloudFixed.add_command, CloudFixed.upsert_sparse, CloudFixed.upsert_dense.
  rewrite Ht, Hn.
  wp_io.
  all: split; [done|]; eexists; split; [reflexivity|].
  all: exists n; split; [done|]; eauto.
Qed.

Lemma upload_loop_never_stops m name us ce ss commands w :
  Forall (fun c => exists text, CloudFixed.command_text E c = Ok text) commands ->
  post (for_each commands (CloudFixed.add_command E m name us ce ss)) w
    (fun r w' => r = Ok tt /\
                 exists lines, out w' = out w ++ lines /\
                               Forall2 (outcome_line E) commands lines).
Proof.
  intros H. revert w. induction H as [|c commands [text Ht] _ IH]; intros w.
  - apply post_ret. split; [done|]. exists []. by rewrite app_nil_r.
  - simpl. apply post_bind. eapply post_mono; [by eapply add_command_line|].
    intros r w1 [-> (line & Ho & Hl)]. eapply post_mono; [apply IH|].
    intros r w2 [-> (lines & Ho2 & Hl2)]. split; [done|].
    exists (line :: lines). split; [|by constructor].
    rewrite Ho2, Ho. by rewrite <- app_assoc.
Qed.

End UploadLoop.

(** C4, counterexample.  In generate_embeddings.py the embedding failure
    of the first record ends the run: the second record is never
    uploaded.  In psadt_fastembed_cloud_fixed a run in which one record of
    two failed and a run in which both failed return the same value. *)
Lemma failures_abort_or_go_unreported :
  let w := Demo.world_with "psadt_commands" Demo.dense_collection in
  let aborted := GenerateEmbeddings.main Demo.env "items.json"
                   [[]; Demo.welcome] "psadt_commands" false 1 w in
  let partial := CloudFixed.create_embeddings_for_commands Demo.env
                   [Demo.welcome; no_id] false w in
  let total := CloudFixed.create_embeddings_for_commands Demo.env
                 [no_id; no_id] false w in
  aborted.1 = Raise (Exn ModelError "empty document") /\
  uploaded (calls aborted.2) = [] /\
  partial.1 = total.1 /\
  length (uploaded (calls partial.2)) = 1 /\
  length (uploaded (calls total.2)) = 0.
Proof. repeat split; vm_compute; reflexivity. Qed.

(** ** Ingestion into an absent collection *)

Section AbsentCollection.
Variable E : Env.

Lemma upload_loop_run m name use_sparse commands :
  forall pts c w,
    res_mapM (point_for E m use_sparse) commands = Ok pts ->
    (forall c' p, p ∈ pts -> store_accepts E c' p = true) ->
    store w !! name = Some c ->
    faults w = [] ->
    for_each commands (CloudFixed.add_command E m name use_sparse false false) w
    = (Ok tt, uploaded_world E name c commands pts w).
Proof.
  induction commands as [|command commands IH]; intros pts c w Hp Ha Hc Hf.
  - simpl in Hp. injection Hp as <-. unfold uploaded_world, with_points. simpl.
    rewrite !app_nil_r. unfold ret. f_equal.
    destruct w as [s f o cs]; simpl in *. subst f. f_equal.
    destruct c; simpl. by rewrite insert_id.
  - simpl in Hp. destruct (point_for E m use_sparse command) as [p|] eqn:Hpt; [|done].
    simpl in Hp.
    destruct (res_mapM (point_for E m use_sparse) commands) as [ps|] eqn:Hps; [|done].
    simpl in Hp. injection Hp as <-.
    simpl for_each. unfold bind at 1.
    assert (Hstep : CloudFixed.add_command E m name use_sparse false false command w
                    = (Ok tt, printed (added_line E command)
                                (upserted name c [p] w))).
    { unfold point_for in Hpt. unfold CloudFixed.add_command, added_line.
      destruct (CloudFixed.command_text E command) as [text|] eqn:Ht; [|done].
      destruct (command_text_name E _ _ Ht) as [n Hn]. rewrite Hn.
      simpl in Hpt. unfold bind at 1. unfold lift at 1. cbv iota beta.
      unfold try_except, bind, lift, print, CloudFixed.upsert_sparse,
        CloudFixed.upsert_dense, upsert, bind, lift, request.
      destruct use_sparse; cbn -[item]; rewrite Hpt; cbn -[item];
        rewrite Hf, Hc; cbn -[item];
        rewrite (Ha c p) by (by left); cbn -[item];
        reflexivity. }
    rewrite Hstep.
    rewrite (IH ps (with_points c [p])); simpl; try done.
    + f_equal. unfold uploaded_world, with_points. simpl.
      rewrite insert_insert_eq. by rewrite <- !app_assoc.
    + intros c' q Hq. apply Ha. by right.
    + by rewrite lookup_insert_eq.
    + by rewrite Hf.
Qed.

Lemma ingestion_run commands (use_sparse : bool) w m pts :
  store w !! CloudFixed.COMMANDS_COLLECTION = None ->
  faults w = [] ->
  (if use_sparse then load_sparse E BM25 else load_dense E BGE_SMALL) = Returned m ->
  res_mapM (point_for E m use_sparse) commands = Ok pts ->
  (forall c p, p ∈ pts -> store_accepts E c p = true) ->
  CloudFixed.create_embeddings_for_commands E commands use_sparse w
  = (Ok tt, ingested_world E use_sparse commands pts w).
Proof.
  intros Hn Hf Hm Hp Ha.
  unfold CloudFixed.create_embeddings_for_commands, CloudFixed.prepare_collection,
    SparseTextEmbedding, TextEmbedding, get_collection, create_collection,
    try_except, bind, lift, print, request.
  destruct use_sparse; rewrite Hm;
    cbn -[for_each CloudFixed.add_command pretty String.append];
    rewrite Hf, Hn; cbn -[for_each CloudFixed.add_command pretty String.append];
    rewrite Hn; cbn -[for_each CloudFixed.add_command pretty String.append];
    rewrite Hf; cbn -[for_each CloudFixed.add_command pretty String.append].
  all: erewrite upload_loop_run;
    [ | exact Hp | exact Ha
      | cbn [store printed set_store]; apply lookup_insert_eq
      | cbn [faults printed set_store requested]; by rewrite Hf ].
  all: f_equal; unfold ingested_world, uploaded_world, with_points, created_for,
         printed, set_store, requested; cbn -[pretty String.append];
       f_equal; [by rewrite insert_insert_eq | by rewrite <- !app_assoc
                | by rewrite <- !app_assoc].
Qed.

Lemma uploaded_app cs cs' : uploaded (cs ++ cs') = uploaded cs ++ uploaded cs'.
Proof. unfold uploaded. by rewrite map_app, concat_app. Qed.

Lemma uploaded_singletons name pts :
  uploaded (map (fun p => CUpsert name [p]) pts) = pts.
Proof.
  unfold uploaded. induction pts as [|p pts IH]; [done|]. simpl. by rewrite IH.
Qed.

(** C5 (as amended).  When [psadt_commands] is absent, no request fails,
    the model loads, every record yields its point and the store accepts
    the points, the ingestion of psadt_fastembed_cloud_fixed ends
    normally: it has created the collection with the configuration of
    the mode (384 with cosine distance; or the sparse field [text] beside
    a one-dimensional placeholder), uploaded exactly the records'
    points, and printed one [Added command] line per record before
    [Finished processing N commands.].  What it returns is [None]. *)
Theorem ingestion_creates_the_absent_collection
    commands (use_sparse : bool) w m pts :
  store w !! CloudFixed.COMMANDS_COLLECTION = None ->
  faults w = [] ->
  (if use_sparse then load_sparse E BM25 else load_dense E BGE_SMALL) = Returned m ->
  res_mapM (point_for E m use_sparse) commands = Ok pts ->
  (forall c p, p ∈ pts -> store_accepts E c p = true) ->
  let run := CloudFixed.create_embeddings_for_commands E commands use_sparse w in
  run.1 = Ok tt /\
  store run.2 = <[CloudFixed.COMMANDS_COLLECTION :=
                    with_points (created_for use_sparse) pts]> (store w) /\
  uploaded (calls run.2) = uploaded (calls w) ++ pts /\
  out run.2 = out w ++ opening_lines use_sparse (length commands)
              ++ map (added_line E) commands
              ++ ["Finished processing " +:+ pretty (length commands)
                  +:+ " commands."].
Proof.
  intros Hn Hf Hm Hp Ha run. unfold run.
  rewrite (ingestion_run commands use_sparse w m pts Hn Hf Hm Hp Ha).
  repeat split. cbn [snd calls ingested_world].
  rewrite !uploaded_app, uploaded_singletons. done.
Qed.
End AbsentCollection.

(** C5, witness: the scenario of one record ingested in dense mode into
    an empty store. *)
Lemma one_record_into_an_absent_collection :
  let run := CloudFixed.create_embeddings_for_commands Demo.env [Demo.welcome] false
               Demo.empty_world in
  run.1 = Ok tt /\
  store run.2
  = <["psadt_commands" := with_points (created_for false) [Demo.point_of Demo.welcome 1]]>
      (store Demo.empty_world) /\
  uploaded (calls run.2)
  = uploaded (calls Demo.empty_world) ++ [Demo.point_of Demo.welcome 1] /\
  out run.2 = out Demo.empty_world ++ opening_lines false 1
              ++ map (added_line Demo.env) [Demo.welcome]
              ++ ["Finished processing " +:+ pretty 1 +:+ " commands."].
Proof.
  apply (ingestion_creates_the_absent_collection Demo.env [Demo.welcome] false
           Demo.empty_world Demo.dense_model [Demo.point_of Demo.welcome 1]);
    reflexivity.
Defined.

(** C5, counterexample.  Ingesting one record and ingesting two records
    into an absent collection return the same value: the count of
    uploaded points is not part of it. *)
Lemma ingestion_returns_no_count :
  let one := CloudFixed.create_embeddings_for_commands Demo.env [Demo.welcome] false
               Demo.empty_world in
  let two := CloudFixed.create_embeddings_for_commands Demo.env
               [Demo.welcome; Demo.progress] false Demo.empty_world in
  one.1 = Ok tt /\ two.1 = Ok tt /\
  length (uploaded (calls one.2)) = 1 /\
  length (uploaded (calls two.2)) = 2.
Proof. repeat split; vm_compute; reflexivity. Qed.

(** ** The two entry points of the sparse model *)

Section EntryPoints.
Variable E : Env.

End EntryPoints.


(** ** Sparse vectors built by the workflows *)

Lemma sparse_vector_of_ok e sv :
  sparse_embedding_ok e -> sparse_vector_of e = Ok sv -> sparse_vector_ok sv.
Proof. destruct e as [v|s]; simpl; [done|]. by intros H [= <-]. Qed.

Lemma embed_ok m t e : model_ok m -> embed m t = Ok e -> sparse_embedding_ok e.
Proof.
  intros Hm. unfold embed. destruct (m_embed m t) eqn:He; simpl; [|done].
  intros [= <-]. apply (Hm t). by left.
Qed.

Lemma query_embed_ok m t e :
  model_ok m -> query_embed m t = Ok e -> sparse_embedding_ok e.
Proof.
  intros Hm. unfold query_embed. destruct (m_query_embed m t) eqn:He; simpl; [|done].
  intros [= <-]. apply (Hm t). by right.
Qed.

Lemma upsert_call_ok name pts : Forall point_ok pts -> call_ok (CUpsert name pts).
Proof.
  unfold call_ok. simpl. induction 1 as [|p pts Hp _ IH]; simpl; [constructor|].
  unfold point_ok in Hp. destruct (pt_sparse_vectors p) as [[f sv]|]; simpl; auto.
Qed.

Lemma sparse_point_ok m text command p :
  model_ok m -> CloudFixed.sparse_point m text command = Ok p -> point_ok p.
Proof.
  intros Hm. unfold CloudFixed.sparse_point.
  destruct (embed m text) as [e|] eqn:He; simpl; [|done].
  destruct (sparse_vector_of e) as [sv|] eqn:Hsv; simpl; [|done].
  destruct (res_bind (item command "id") point_id); simpl; [|done].
  intros [= <-]. unfold point_ok. simpl.
  eapply sparse_vector_of_ok; [|done]. by eapply embed_ok.
Qed.

Lemma dense_point_ok m text command p :
  CloudFixed.dense_point m text command = Ok p -> point_ok p.
Proof.
  unfold CloudFixed.dense_point.
  destruct (embed m text) as [e|]; simpl; [|done].
  destruct (tolist e); simpl; [|done].
  destruct (res_bind (item command "id") point_id); simpl; [|done].
  by intros [= <-].
Qed.

Section SparseVectors.
Variable E : Env.
Hypothesis models_ok : sparse_models_ok E.

Lemma sound_printed w0 w s : sound w0 w -> sound w0 (printed s w).
Proof. done. Qed.

Lemma sound_requested w0 w c : call_ok c -> sound w0 w -> sound w0 (requested c w).
Proof. intros Hc H. by apply issued_snoc. Qed.

Lemma sound_created w0 w name vc sc : sound w0 w -> sound w0 (created name vc sc w).
Proof. intros H. apply issued_snoc; [done|]. constructor. Qed.

Lemma sound_upserted w0 w name c pts :
  Forall point_ok pts -> sound w0 w -> sound w0 (upserted name c pts w).
Proof. intros Hp H. apply issued_snoc; [done|]. by apply upsert_call_ok. Qed.

Hint Resolve sound_printed sound_requested sound_created sound_upserted
  upsert_call_ok : core.
Hint Extern 1 (call_ok (CGetCollection _)) => constructor : core.
Hint Extern 1 (call_ok (CCreateCollection _ _ _)) => constructor : core.
Hint Extern 1 (call_ok (CSearch _ _ None _)) => constructor : core.

Lemma add_command_sound m name us ce ss command w0 w :
  (us = true -> model_ok m) ->
  sound w0 w ->
  post (CloudFixed.add_command E m name us ce ss command) w
    (fun _ w' => sound w0 w').
Proof.
  intros Hm H.
  unfold CloudFixed.add_command, CloudFixed.upsert_sparse, CloudFixed.upsert_dense.
  wp_io.
  all: try match goal with
           | H : _ && _ = true |- _ => apply andb_true_iff in H as [-> _]
           end.
  all: try match goal with
           | H : CloudFixed.sparse_point _ _ _ = Ok ?p |- _ =>
               assert (point_ok p) by (eapply sparse_point_ok; eauto)
           | H : CloudFixed.dense_point _ _ _ = Ok ?p |- _ =>
               assert (point_ok p) by (eapply dense_point_ok; eauto)
           end.
  all: auto 8.
Qed.

Lemma sparse_model_ok n m : SparseTextEmbedding E n = Ok m -> model_ok m.
Proof.
  unfold SparseTextEmbedding. destruct (load_sparse E n) eqn:Hl; simpl; [|done].
  intros [= <-]. by eapply models_ok.
Qed.

Lemma model_of_mode_ok (use_sparse : bool) m :
  (if use_sparse then SparseTextEmbedding E BM25 else TextEmbedding E BGE_SMALL)
  = Ok m ->
  use_sparse = true -> model_ok m.
Proof.
  intros H ->. unfold SparseTextEmbedding in H.
  destruct (load_sparse E BM25) eqn:Hl; simpl in H; [|done].
  injection H as <-. by eapply models_ok.
Qed.

Lemma create_embeddings_sound commands use_sparse w :
  post (CloudFixed.create_embeddings_for_commands E commands use_sparse) w
    (fun _ w' => sound w w').
Proof.
  assert (H : sound w w) by apply issued_refl.
  unfold CloudFixed.create_embeddings_for_commands, CloudFixed.prepare_collection.
  wp_io; auto 8.
  all: apply (post_for_each _ _ (sound w)); [auto 12| |intros; wp; auto].
  all: intros x w1 _ Hw1; eapply post_mono;
    [apply add_command_sound;
     [intros; first [discriminate | by eapply sparse_model_ok] | done]|].
  all: by intros [[]|e] w2 Hw2.
Qed.

Lemma choose_collection_sound query name qe w0 w :
  sound w0 w ->
  post (CloudFixed.choose_collection E query name qe) w
    (fun r w' => sound w0 w' /\
                 match r with
                 | Ok (Some (true, qe', _)) => qe' = qe
                 | _ => True
                 end).
Proof.
  intros H. unfold CloudFixed.choose_collection, CloudFixed.fall_back.
  wp; auto 8.
Qed.

Lemma perform_search_sound us qe name limit w0 w :
  (us = true -> sparse_embedding_ok qe) ->
  sound w0 w ->
  post (CloudFixed.perform_search E us qe name limit) w (fun _ w' => sound w0 w').
Proof.
  intros Hq H. unfold CloudFixed.perform_search, CloudFixed.search_request.
  wp.
  all: try match goal with
           | H : sparse_vector_of _ = Ok ?sv |- _ =>
               assert (call_ok (CSearch name (Some [0%float]) (Some ("text", sv)) limit))
                 by (constructor; [|constructor];
                     eapply sparse_vector_of_ok; eauto)
           end.
  all: auto 8.
Qed.

Lemma search_psadt_commands_sound query use_sparse limit w :
  post (CloudFixed.search_psadt_commands E query use_sparse limit) w
    (fun _ w' => sound w w').
Proof.
  assert (H : sound w w) by apply issued_refl.
  unfold CloudFixed.search_psadt_commands.
  wp; auto.
  - eapply post_mono; [apply choose_collection_sound; eauto|].
    intros [[[[[] qe'] name]|]|e] w1 [Hs Hq]; cbv beta iota; try done.
    + subst qe'. apply perform_search_sound; [|done].
      intros _. eapply query_embed_ok; [|eassumption].
      by eapply sparse_model_ok.
    + by apply perform_search_sound.
  - by apply perform_search_sound.
Qed.

Lemma make_point_ok m field command p w w' :
  model_ok m ->
  UseExisting.make_point E m field command w = (Ok p, w') -> point_ok p.
Proof.
  intros Hm. unfold UseExisting.make_point, bind, lift, ret.
  destruct (UseExisting.command_text E command) as [text|]; [|done].
  destruct (embed m text) as [e|] eqn:He; [|done].
  destruct (sparse_vector_of e) as [sv|] eqn:Hsv; [|done].
  destruct (res_bind (item command "id") point_id); [|done].
  intros [= <- _]. unfold point_ok. simpl.
  eapply sparse_vector_of_ok; [|done]. by eapply embed_ok.
Qed.

Lemma make_point_frame m field command w :
  (UseExisting.make_point E m field command w).2 = w.
Proof.
  unfold UseExisting.make_point, bind, lift, ret.
  destruct (UseExisting.command_text E command) as [text|]; [|done].
  destruct (embed m text) as [e|]; [|done].
  destruct (sparse_vector_of e) as [sv|]; [|done].
  by destruct (res_bind (item command "id") point_id).
Qed.

Lemma make_points_post m field commands w
    (Q : res (list PointStruct) -> world -> Prop) :
  model_ok m ->
  (forall r, (forall pts, r = Ok pts -> Forall point_ok pts) -> Q r w) ->
  post (mapM (UseExisting.make_point E m field) commands) w Q.
Proof.
  intros Hm. revert Q. induction commands as [|c commands IH]; intros Q HQ.
  - apply post_ret. apply HQ. by intros pts [= <-].
  - simpl. apply post_bind.
    pose proof (make_point_frame m field c w) as Hfr.
    unfold post.
    destruct (UseExisting.make_point E m field c w) as [[p|e] w1] eqn:Hmp;
      simpl in *; subst w1.
    + apply post_bind. apply IH. intros [ps|e] Hps.
      * apply post_ret. apply HQ. intros pts [= <-]. constructor; [|eauto].
        by eapply make_point_ok.
      * apply HQ. by intros pts.
    + apply HQ. by intros pts.
Qed.

Lemma add_to_existing_collection_sound commands name url w :
  post (UseExisting.add_to_existing_collection E commands name url) w
    (fun _ w' => sound w w').
Proof.
  assert (H : sound w w) by apply issued_refl.
  unfold UseExisting.add_to_existing_collection.
  wp_io; auto 8.
  all: apply make_points_post; [by eapply sparse_model_ok|].
  all: intros [pts|e] Hpts; cbv beta iota; auto 8.
  all: specialize (Hpts pts eq_refl); wp_io; auto 10.
Qed.

Lemma search_commands_sound query name limit w :
  post (UseExisting.search_commands E query name limit) w
    (fun _ w' => sound w w').
Proof.
  assert (H : sound w w) by apply issued_refl.
  unfold UseExisting.search_commands.
  wp.
  all: try match goal with
           | Hm : SparseTextEmbedding E _ = Ok ?m,
             Hq : query_embed ?m _ = Ok ?e,
             Hs : sparse_vector_of ?e = Ok ?sv |- _ =>
               assert (sparse_vector_ok sv)
                 by (eapply sparse_vector_of_ok; [|exact Hs];
                     eapply query_embed_ok; [|exact Hq];
                     by eapply sparse_model_ok)
           end.
  all: auto 8.
  all: repeat apply sound_printed; apply sound_requested;
    [constructor; [done|constructor]|auto 8].
Qed.

End SparseVectors.

Lemma demo_sparse_models_ok : sparse_models_ok Demo.env.
Proof.
  intros n m [= <-] t e [He|He]; simpl in He.
  - destruct (String.eqb t ""); [done|]. injection He as <-.
    repeat split; [repeat constructor; lia|].
    apply NoDup_cons. split; [|apply NoDup_singleton].
    intros H%list_elem_of_singleton. done.
  - injection He as <-.
    repeat split; [repeat constructor; lia|].
    apply NoDup_cons. split; [|apply NoDup_singleton].
    intros H%list_elem_of_singleton. done.
Qed.

(** ** Point ids of the batch ingestion *)

Lemma sent_refl w : sent w w [].
Proof. exists []. by rewrite app_nil_r. Qed.

Lemma sent_printed w0 w pts s : sent w0 w pts -> sent w0 (printed s w) pts.
Proof. done. Qed.

Lemma sent_upsert w0 w pts name ps w' :
  sent w0 w pts -> calls w' = calls w ++ [CUpsert name ps] -> sent w0 w' (pts ++ ps).
Proof.
  intros (new & Hc & <-) Hw'. exists (new ++ [CUpsert name ps]).
  rewrite Hw', Hc, <- app_assoc. split; [done|].
  unfold uploaded. rewrite map_app, concat_app. simpl. by rewrite app_nil_r.
Qed.

Lemma stored_refl name w : stored name w w [].
Proof.
  unfold stored. destruct (store w !! name) as [c|] eqn:Hc; [|done].
  symmetry. apply insert_id. rewrite Hc. by destruct c.
Qed.

Lemma upsert_points_app ps1 ps2 m :
  upsert_points (ps1 ++ ps2) m = upsert_points ps2 (upsert_points ps1 m).
Proof. unfold upsert_points. apply foldl_app. Qed.

Lemma stored_upsert name w0 w pts c ps w' :
  stored name w0 w pts ->
  store w !! name = Some c ->
  store w' = <[name := with_points c ps]> (store w) ->
  stored name w0 w' (pts ++ ps).
Proof.
  unfold stored. intros Hs Hc Hw'.
  destruct (store w0 !! name) as [c0|] eqn:Hc0.
  - rewrite Hs, lookup_insert_eq in Hc. injection Hc as <-.
    rewrite Hw', Hs, insert_insert_eq. f_equal.
    unfold with_points. simpl. by rewrite upsert_points_app.
  - destruct Hs as [-> Hs]. rewrite Hs in Hc. congruence.
Qed.

(** A later point with the same id replaces an earlier one. *)
Lemma upsert_points_other ps m i :
  (forall p, p ∈ ps -> pt_id p <> i) -> upsert_points ps m !! i = m !! i.
Proof.
  unfold upsert_points. revert m. induction ps as [|p ps IH]; intros m H; [done|].
  simpl. rewrite IH by (intros q Hq; apply H; by right).
  apply lookup_insert_ne. apply H. by left.
Qed.

Lemma upsert_points_last pts m k p :
  pts !! k = Some p ->
  (forall j q, k < j -> pts !! j = Some q -> pt_id q <> pt_id p) ->
  upsert_points pts m !! pt_id p = Some p.
Proof.
  intros Hk Hlater.
  rewrite <- (take_drop_middle pts k p Hk), upsert_points_app.
  change (p :: drop (S k) pts) with ([p] ++ drop (S k) pts).
  rewrite upsert_points_app, upsert_points_other.
  - unfold upsert_points. simpl. apply lookup_insert_eq.
  - intros q [j Hj]%list_elem_of_lookup. rewrite lookup_drop in Hj.
    apply (Hlater (S k + j) q); [lia|done].
Qed.

Section BatchIds.
Variable E : Env.

Lemma res_mapM_length {A B} (f : A -> res B) l ys :
  res_mapM f l = Ok ys -> length ys = length l.
Proof.
  revert ys. induction l as [|x l IH]; intros ys; simpl.
  - by intros [= <-].
  - destruct (f x); simpl; [|done].
    destruct (res_mapM f l) as [zs|]; simpl; [|done].
    intros [= <-]. simpl. by rewrite (IH zs).
Qed.

Lemma make_point_placed sparse i j it e p :
  GenerateEmbeddings.make_point sparse i j it e = Ok p ->
  pt_payload p = it /\
  point_id (dict_get_default "id" (VInt (i + Z.of_nat j)) it) = Ok (pt_id p).
Proof.
  unfold GenerateEmbeddings.make_point.
  destruct sparse;
    [destruct (sparse_vector_of e)|destruct (tolist e)]; simpl; try done;
    destruct (point_id _) eqn:Hid; simpl; try done;
    by intros [= <-].
Qed.

Lemma make_points_placed sparse i l :
  forall j ps,
    GenerateEmbeddings.make_points sparse i j l = Ok ps ->
    length ps = length l /\
    forall n p, ps !! n = Some p ->
      exists it e, l !! n = Some (it, e) /\ pt_payload p = it /\
        point_id (dict_get_default "id" (VInt (i + Z.of_nat (j + n))) it)
        = Ok (pt_id p).
Proof.
  induction l as [|[it e] l IH]; intros j ps; simpl.
  - intros [= <-]. split; [done|]. intros n p. by rewrite lookup_nil.
  - destruct (GenerateEmbeddings.make_point sparse i j it e) as [p0|] eqn:Hp;
      simpl; [|done].
    destruct (GenerateEmbeddings.make_points sparse i (S j) l) as [ps0|] eqn:Hps;
      simpl; [|done].
    intros [= <-]. destruct (IH _ _ Hps) as [Hlen Hn].
    split; [simpl; by rewrite Hlen|].
    intros [|n] p; simpl.
    + intros [= <-]. exists it, e. rewrite Nat.add_0_r.
      split; [done|]. by apply make_point_placed in Hp.
    + intros Hl. destruct (Hn n p Hl) as (it' & e' & H1 & H2 & H3).
      exists it', e'. repeat split; try done.
      by replace (j + S n) with (S j + n) by lia.
Qed.

Lemma zip_lookup_fst {A B} (l : list A) (k : list B) n x y :
  zip l k !! n = Some (x, y) -> l !! n = Some x.
Proof.
  revert k n. induction l as [|a l IH]; intros [|b k] [|n]; simpl; try done.
  - by intros [= -> _].
  - apply IH.
Qed.

(** The batch at position [a]: its points go behind the [a * B] points
    sent so far. *)
Lemma batch_placed items sparse (bs : Z) a (texts : list string)
    (embs : list embedding) ps pts :
  (0 < bs)%Z ->
  placed items pts ->
  length pts = a * Z.to_nat bs ->
  GenerateEmbeddings.make_points sparse (Z.of_nat a * bs) 0
    (zip (py_slice items (Z.of_nat a * bs) (Z.of_nat a * bs + bs)) embs) = Ok ps ->
  length texts = length (py_slice items (Z.of_nat a * bs) (Z.of_nat a * bs + bs)) ->
  length embs = length texts ->
  placed items (pts ++ ps) /\
  length (pts ++ ps) = Nat.min ((a + 1) * Z.to_nat bs) (length items).
Proof.
  intros Hbs Hpl Hlen Hmk Ht He.
  assert (Hi : Z.to_nat (Z.of_nat a * bs) = a * Z.to_nat bs)
    by (rewrite Z2Nat.inj_mul by lia; by rewrite Nat2Z.id).
  assert (Hsl : py_slice items (Z.of_nat a * bs) (Z.of_nat a * bs + bs)
                = take (Z.to_nat bs) (drop (a * Z.to_nat bs) items)).
  { unfold py_slice. rewrite Hi. f_equal. f_equal. lia. }
  rewrite Hsl in *.
  destruct (make_points_placed _ _ _ _ _ Hmk) as [Hlps Hn].
  split.
  - intros k p Hk. destruct (decide (k < length pts)) as [Hlt|Hge].
    + rewrite lookup_app_l in Hk by done. by apply Hpl.
    + rewrite lookup_app_r in Hk by lia.
      destruct (Hn _ _ Hk) as (it & e & Hz & Hp & Hid).
      apply zip_lookup_fst in Hz. apply lookup_take_Some in Hz as [Hz _].
      rewrite lookup_drop in Hz.
      replace (a * Z.to_nat bs + (k - length pts)) with k in Hz by lia.
      exists it. repeat split; try done.
      rewrite <- Hid. do 3 f_equal. lia.
  - rewrite length_app, Hlps, length_zip, He, Ht, Nat.min_id,
      length_take, length_drop, Hlen.
    assert (Hle : a * Z.to_nat bs <= length items).
    { rewrite <- Hlen. destruct (decide (length pts <= length items)); [done|].
      destruct (lookup_lt_is_Some_2 pts (length items)) as [p Hp]; [lia|].
      destruct (Hpl _ _ Hp) as (it & Hit & _).
      apply lookup_lt_Some in Hit. lia. }
    revert Hle. clear. generalize (Z.to_nat bs) (length items). intros B n Hle.
    destruct (Nat.min_spec B (n - a * B)) as [[? ->]|[? ->]];
      destruct (Nat.min_spec ((a + 1) * B) n) as [[? ->]|[? ->]]; lia.
Qed.

Lemma process_batch_post m items coll sparse (bs : Z) a w0 w pts :
  (0 < bs)%Z ->
  sent w0 w pts -> placed items pts -> stored coll w0 w pts ->
  length pts = a * Z.to_nat bs ->
  post (GenerateEmbeddings.process_batch E m items coll sparse bs
          (Z.of_nat a * bs)) w
    (fun r w' =>
       exists pts', sent w0 w' pts' /\ placed items pts' /\
         (r = Ok tt ->
          stored coll w0 w' pts' /\
          length pts' = Nat.min ((a + 1) * Z.to_nat bs) (length items))).
Proof.
  intros Hbs Hsent Hpl Hst Hlen. unfold GenerateEmbeddings.process_batch.
  apply post_bind, post_print.
  apply post_bind, post_lift.
  destruct (res_mapM _ _) as [texts|e] eqn:Ht; [|by exists pts].
  apply post_bind, post_lift.
  destruct (res_mapM (embed m) texts) as [embs|e] eqn:He; [|by exists pts].
  apply post_bind, post_lift.
  destruct (GenerateEmbeddings.make_points _ _ _ _) as [ps|e] eqn:Hps;
    [|by exists pts].
  apply res_mapM_length in Ht, He.
  destruct (batch_placed items sparse bs a texts embs ps pts) as [Hpl' Hlen'];
    try done.
  apply post_bind, post_upsert.
  - exists (pts ++ ps). split; [by eapply sent_upsert|]. by split.
  - intros _. exists (pts ++ ps). split; [by eapply sent_upsert|]. by split.
  - intros c _ _. exists (pts ++ ps). split; [by eapply sent_upsert|]. by split.
  - intros c Hc _. apply post_print. exists (pts ++ ps).
    split; [by eapply sent_upsert|]. split; [done|]. intros _.
    split; [|done]. by eapply stored_upsert.
Qed.

Lemma range_facts (n : nat) (bs : Z) :
  (0 < bs)%Z ->
  (forall a, a < Z.to_nat ((Z.of_nat n + bs - 1) / bs) -> a * Z.to_nat bs < n) /\
  n <= Z.to_nat ((Z.of_nat n + bs - 1) / bs) * Z.to_nat bs.
Proof.
  intros Hbs.
  pose proof (Z.mul_div_le (Z.of_nat n + bs - 1) bs Hbs) as H1.
  pose proof (Z.mul_succ_div_gt (Z.of_nat n + bs - 1) bs Hbs) as H2.
  assert (H0 : (0 <= (Z.of_nat n + bs - 1) / bs)%Z) by (apply Z.div_pos; lia).
  set (q := ((Z.of_nat n + bs - 1) / bs)%Z) in *.
  assert (HB : Z.of_nat (Z.to_nat bs) = bs) by lia.
  assert (Hq : Z.of_nat (Z.to_nat q) = q) by lia.
  split.
  - intros a Ha. apply Nat2Z.inj_lt. rewrite Nat2Z.inj_mul, HB. nia.
  - apply Nat2Z.inj_le. rewrite Nat2Z.inj_mul, HB, Hq. nia.
Qed.

Lemma batches_post m items coll sparse (bs : Z) w0 :
  (0 < bs)%Z ->
  forall cnt a w pts,
    sent w0 w pts -> placed items pts -> stored coll w0 w pts ->
    length pts = Nat.min (a * Z.to_nat bs) (length items) ->
    (forall a', a <= a' < a + cnt -> a' * Z.to_nat bs < length items) ->
    post (for_each (map (fun k => Z.of_nat k * bs)%Z (seq a cnt))
            (GenerateEmbeddings.process_batch E m items coll sparse bs)) w
      (fun r w' =>
         exists pts', sent w0 w' pts' /\ placed items pts' /\
           (r = Ok tt ->
            stored coll w0 w' pts' /\
            length pts' = Nat.min ((a + cnt) * Z.to_nat bs) (length items))).
Proof.
  intros Hbs. induction cnt as [|cnt IH]; intros a w pts Hs Hp Hst Hl Hlt.
  - apply post_ret. exists pts. repeat split; try done.
    by rewrite Nat.add_0_r.
  - simpl. apply post_bind.
    assert (Ha : a * Z.to_nat bs < length items) by (apply Hlt; lia).
    eapply post_mono.
    { apply (process_batch_post m items coll sparse bs a w0 w pts); try done. lia. }
    intros [[]|e] w1 (pts1 & Hs1 & Hp1 & Hok); [|by exists pts1].
    destruct (Hok eq_refl) as [Hst1 Hl1].
    eapply post_mono.
    { apply (IH (S a) w1 pts1); try done.
      - by replace (S a) with (a + 1) by lia.
      - intros a' Ha'. apply Hlt. lia. }
    intros r w2 (pts2 & Hs2 & Hp2 & Hok2). exists pts2.
    repeat split; try done; destruct (Hok2 H) as [? Hl2]; [done|].
    by replace (a + S cnt) with (S a + cnt) by lia.
Qed.

Lemma main_post input items coll sparse (bs : Z) w :
  post (GenerateEmbeddings.main E input items coll sparse bs) w
    (fun r w' =>
       exists pts, sent w w' pts /\ placed items pts /\
         ((0 < bs)%Z -> r = Ok tt ->
          stored coll w w' pts /\ length pts = length items)).
Proof.
  unfold GenerateEmbeddings.main.
  assert (Hnil : placed items []) by (intros k p; by rewrite lookup_nil).
  apply post_bind, post_print. apply post_bind, post_print.
  apply post_bind, post_print. apply post_bind, post_lift.
  destruct (if sparse then _ else _) as [m|e];
    [|exists []; split; [exact (sent_refl w)|split; [done|intros; done]]].
  apply post_bind, post_lift. unfold py_range0.
  destruct (bs =? 0)%Z eqn:H0;
    [exists []; split; [exact (sent_refl w)|split; [done|intros; done]]|].
  destruct (0 <? bs)%Z eqn:Hpos.
  - apply Z.ltb_lt in Hpos. destruct (range_facts (length items) bs Hpos) as [Hlt Hge].
    apply post_bind. eapply post_mono.
    { apply (batches_post m items coll sparse bs w Hpos _ 0 _ []); try done.
      - exact (sent_refl w).
      - exact (stored_refl coll w).
      - intros a' Ha'. apply Hlt. lia. }
    intros [[]|e] w1 (pts & Hs & Hp & Hok); [|by exists pts].
    apply post_print. exists pts. split; [done|]. split; [done|].
    intros _ _. destruct (Hok eq_refl) as [Hst Hl]. split; [done|].
    rewrite Hl. simpl. lia.
  - apply Z.ltb_ge in Hpos. apply Z.eqb_neq in H0.
    simpl. apply post_bind, post_ret, post_print.
    exists []. split; [exact (sent_refl w)|split; [done|intros; lia]].
Qed.

Lemma placed_default_id items pts k p it :
  placed items pts ->
  pts !! k = Some p -> items !! k = Some it -> dict_get "id" it = None ->
  pt_id p = IdInt (Z.of_nat k).
Proof.
  intros Hp Hk Hit Hid. destruct (Hp k p Hk) as (it' & Hit' & _ & Hpid).
  assert (it' = it) as -> by congruence.
  unfold dict_get_default in Hpid. rewrite Hid in Hpid. simpl in Hpid. congruence.
Qed.

End BatchIds.

(** The same run, evaluated: both points are sent with id 0, and the
    collection ends up holding the second item under it. *)
Example explicit_id_overwrites_default_id :
  let run := GenerateEmbeddings.main Demo.env "items.json" [first_item; second_item]
               "psadt_commands" false 1
               (Demo.world_with "psadt_commands" Demo.dense_collection) in
  run.1 = Ok tt /\
  map pt_id (uploaded (calls run.2)) = [IdInt 0; IdInt 0] /\
  (store run.2 !! "psadt_commands" ≫= fun c => pt_payload <$> c_points c !! IdInt 0)
  = Some second_item.
Proof. repeat split; vm_compute; reflexivity. Qed.

(** ** Further instances on the sample data *)

(** C2, witness: the probe of a name in the empty store. *)
Lemma probe_in_the_empty_store :
  store Demo.empty_world !! "cmds" = None /\
  probe Demo.empty_world "cmds" = false.
Proof.
  split; [reflexivity|].
  exact (proj2 (supports_sparse_vectors_never_raises "cmds" Demo.empty_world) eq_refl).
Defined.

(** C9, witness: the name of a stored record comes back unchanged. *)
Lemma scored_payload_keeps_its_name :
  dict_get "name" (attach_score (Demo.hit_of (Demo.point_of Demo.welcome 1)))
  = dict_get "name" (hit_payload (Demo.hit_of (Demo.point_of Demo.welcome 1))).
Proof.
  apply (proj1 (proj2 (proj2 (search_returns_scored_payloads Demo.env)))
           (Demo.hit_of (Demo.point_of Demo.welcome 1)) "name").
  discriminate.
Defined.

(** * Further properties of the scripts *)

(** ** Searching only reads *)

Section ReadOnly.
Variable E : Env.

Lemma read_only_refl w : read_only w w.
Proof. split; [done|apply issued_refl]. Qed.

Lemma read_only_printed w0 w s : read_only w0 w -> read_only w0 (printed s w).
Proof. done. Qed.

Lemma read_only_requested w0 w c :
  is_read c -> read_only w0 w -> read_only w0 (requested c w).
Proof. intros Hc [Hs Hi]. split; [done|]. by apply issued_snoc. Qed.

Hint Resolve read_only_printed read_only_requested : core.
Hint Extern 1 (is_read _) => exact I : core.

Lemma perform_search_read_only us qe name limit w0 w :
  read_only w0 w ->
  post (CloudFixed.perform_search E us qe name limit) w (fun _ w' => read_only w0 w').
Proof.
  intros H. unfold CloudFixed.perform_search, CloudFixed.search_request.
  wp; auto 8.
Qed.

Lemma search_psadt_commands_read_only query use_sparse limit w :
  post (CloudFixed.search_psadt_commands E query use_sparse limit) w
    (fun _ w' => read_only w w').
Proof.
  pose proof (read_only_refl w) as H.
  unfold CloudFixed.search_psadt_commands, CloudFixed.choose_collection,
    CloudFixed.fall_back.
  wp; auto 8.
  all: try (apply perform_search_read_only; auto 10).
Qed.

Lemma search_commands_read_only query name limit w :
  post (UseExisting.search_commands E query name limit) w
    (fun _ w' => read_only w w').
Proof.
  pose proof (read_only_refl w) as H.
  unfold UseExisting.search_commands.
  wp; auto 8.
Qed.

(** X1.  A search call, whatever it returns or raises, leaves the store as
    it was and issues only get-collection and search requests: it never
    creates, deletes or upserts. *)
Theorem searching_only_reads :
  (forall query use_sparse limit w,
      read_only w (CloudFixed.search_psadt_commands E query use_sparse limit w).2) /\
  (forall query name limit w,
      read_only w (UseExisting.search_commands E query name limit w).2).
Proof.
  split; intros.
  - apply search_psadt_commands_read_only.
  - apply search_commands_read_only.
Qed.
End ReadOnly.

(** ** The requests of an ingestion run *)

Lemma issued_printed P w0 w s :
  issued P (calls w0) (calls w) -> issued P (calls w0) (calls (printed s w)).
Proof. done. Qed.

Lemma issued_requested P w0 w c :
  P c -> issued P (calls w0) (calls w) -> issued P (calls w0) (calls (requested c w)).
Proof. intros Hc H. by apply issued_snoc. Qed.

Lemma issued_created P w0 w name vc sc :
  P (CCreateCollection name vc sc) -> issued P (calls w0) (calls w) ->
  issued P (calls w0) (calls (created name vc sc w)).
Proof. intros Hc H. by apply issued_snoc. Qed.

Lemma issued_upserted P w0 w name c pts :
  P (CUpsert name pts) -> issued P (calls w0) (calls w) ->
  issued P (calls w0) (calls (upserted name c pts w)).
Proof. intros Hc H. by apply issued_snoc. Qed.

Lemma issued_trans P cs1 cs2 cs3 :
  issued P cs1 cs2 -> issued P cs2 cs3 -> issued P cs1 cs3.
Proof.
  intros (n1 & -> & H1) (n2 & -> & H2). exists (n1 ++ n2).
  rewrite app_assoc. split; [done|]. apply Forall_app. auto.
Qed.

Lemma issued_mono (P Q : call -> Prop) cs cs' :
  (forall c, P c -> Q c) -> issued P cs cs' -> issued Q cs cs'.
Proof.
  intros HPQ (new & -> & H). exists new. split; [done|].
  eapply Forall_impl; eauto.
Qed.

Section IngestionRequests.
Variable E : Env.

Lemma sparse_point_record m text command commands p :
  command ∈ commands ->
  CloudFixed.sparse_point m text command = Ok p ->
  record_point true commands p.
Proof.
  intros Hin. unfold CloudFixed.sparse_point.
  destruct (embed m text) as [e|]; [simpl|done].
  destruct (sparse_vector_of e) as [sv|]; [simpl|done].
  destruct (res_bind (item command "id") point_id) as [i|] eqn:Hi; [simpl|done].
  intros [= <-]. simpl. repeat split; eauto.
Qed.

Lemma dense_point_record m text command commands p :
  command ∈ commands ->
  CloudFixed.dense_point m text command = Ok p ->
  record_point false commands p.
Proof.
  intros Hin. unfold CloudFixed.dense_point.
  destruct (embed m text) as [e|]; [simpl|done].
  destruct (tolist e) as [dv|]; [simpl|done].
  destruct (res_bind (item command "id") point_id) as [i|] eqn:Hi; [simpl|done].
  intros [= <-]. simpl. repeat split; eauto.
Qed.

Lemma add_command_calls m name (us ce ss : bool) command commands w0 w :
  (us = true -> ce = true -> ss = true) ->
  command ∈ commands ->
  issued (ingestion_call us commands name) (calls w0) (calls w) ->
  post (CloudFixed.add_command E m name us ce ss command) w
    (fun _ w' => issued (ingestion_call us commands name) (calls w0) (calls w')).
Proof.
  intros Hss Hin H.
  assert (Hs : forall text p, CloudFixed.sparse_point m text command = Ok p ->
                 us = true -> ingestion_call us commands name (CUpsert name [p])).
  { intros text p Hp ->. split; [done|]. exists p. split; [done|].
    by eapply sparse_point_record. }
  assert (Hd : forall text p, CloudFixed.dense_point m text command = Ok p ->
                 us = false -> ingestion_call us commands name (CUpsert name [p])).
  { intros text p Hp ->. split; [done|]. exists p. split; [done|].
    by eapply dense_point_record. }
  unfold CloudFixed.add_command, CloudFixed.upsert_sparse, CloudFixed.upsert_dense.
  destruct us; simpl andb.
  - destruct (negb ce || ss) eqn:Hb.
    + wp_io; eauto 8 using issued_printed, issued_requested, issued_upserted.
    + destruct ce, ss; try discriminate. by specialize (Hss eq_refl eq_refl).
  - wp_io; eauto 8 using issued_printed, issued_requested, issued_upserted.
Qed.

Lemma upload_loop_calls m name (us ce ss : bool) commands w0 w :
  (us = true -> ce = true -> ss = true) ->
  issued (ingestion_call us commands name) (calls w0) (calls w) ->
  post (for_each commands (CloudFixed.add_command E m name us ce ss)) w
    (fun _ w' => issued (ingestion_call us commands name) (calls w0) (calls w')).
Proof.
  intros Hss H.
  apply (post_for_each _ _
           (fun w1 => issued (ingestion_call us commands name) (calls w0) (calls w1)));
    [done| |done].
  intros x w1 Hx Hw1. eapply post_mono; [by apply add_command_calls|].
  by intros [[]|e] w2 Hw2.
Qed.

Lemma ingestion_calls commands (use_sparse : bool) w :
  post (CloudFixed.create_embeddings_for_commands E commands use_sparse) w
    (fun _ w' =>
       exists name,
         (name = CloudFixed.COMMANDS_COLLECTION \/
          use_sparse = true /\ name = CloudFixed.COMMANDS_COLLECTION +:+ "_new") /\
         issued (ingestion_call use_sparse commands name) (calls w) (calls w')).
Proof.
  pose proof (issued_refl (ingestion_call use_sparse commands
                             CloudFixed.COMMANDS_COLLECTION) (calls w)) as H0.
  pose proof (issued_refl (ingestion_call use_sparse commands
                             (CloudFixed.COMMANDS_COLLECTION +:+ "_new")) (calls w)) as H1.
  unfold CloudFixed.create_embeddings_for_commands, CloudFixed.prepare_collection.
  assert (Hc : forall us n, ingestion_call us commands n
                  (CGetCollection CloudFixed.COMMANDS_COLLECTION)) by done.
  assert (Hk : forall us n, ingestion_call us commands n
                  (CCreateCollection n (c_vectors (created_for us))
                     (c_sparse_vectors (created_for us)))) by done.
  pose proof (Hk true) as Hs. pose proof (Hk false) as Hd. simpl in Hs, Hd.
  destruct use_sparse; wp_io.
  all: lazymatch goal with
       | |- post (for_each _ (CloudFixed.add_command _ _ ?n _ ?ce ?ss)) _ _ =>
           eapply post_mono;
           [ apply (upload_loop_calls _ n _ ce ss commands w);
             [ intros; first [done | by destruct ss]
             | eauto 12 using issued_printed, issued_requested, issued_created ]
           | intros [[]|e] w2 Hw2; [wp|]; exists n; split; auto ]
       | |- _ =>
           first
             [ exists CloudFixed.COMMANDS_COLLECTION; split; [by left|];
               solve [eauto 12 using issued_printed, issued_requested, issued_created]
             | exists (CloudFixed.COMMANDS_COLLECTION +:+ "_new"); split; [by right|];
               solve [eauto 12 using issued_printed, issued_requested, issued_created] ]
       end.
Qed.

(** X2.  Every request of an ingestion run of psadt_fastembed_cloud_fixed
    follows the mode.  The run reads only [psadt_commands]; it writes to
    one collection, [psadt_commands] or, in sparse mode only,
    [psadt_commands_new]; it creates that collection with the mode's
    configuration; every upsert carries exactly one point, whose payload
    is one of the records and whose id is that record's [id].  In sparse
    mode every point has the placeholder dense vector and a sparse vector
    under [text], so the dense branch of the loop is never taken there;
    in dense mode no point has a sparse vector.  No run searches or
    deletes. *)
Theorem ingestion_requests_follow_the_mode commands (use_sparse : bool) w :
  exists name,
    (name = CloudFixed.COMMANDS_COLLECTION \/
     use_sparse = true /\ name = CloudFixed.COMMANDS_COLLECTION +:+ "_new") /\
    issued (ingestion_call use_sparse commands name) (calls w)
      (calls (CloudFixed.create_embeddings_for_commands E commands use_sparse w).2).
Proof. apply ingestion_calls. Qed.

(** ** Records that do not render *)

Lemma command_text_raises command e :
  CloudFixed.command_text E command = Raise e ->
  kind e = KeyError /\ msg e ∈ ["'name'"; "'synopsis'"; "'syntax'"].
Proof.
  unfold CloudFixed.command_text, item, subscript.
  destruct (dict_get "name" command); simpl;
    [|intros [= <-]; split; [done|set_solver]].
  destruct (dict_get "synopsis" command); simpl;
    [|intros [= <-]; split; [done|set_solver]].
  destruct (dict_get "syntax" command); simpl;
    [done|intros [= <-]; split; [done|set_solver]].
Qed.

Lemma add_command_unrendered m name us ce ss command e w :
  CloudFixed.command_text E command = Raise e ->
  CloudFixed.add_command E m name us ce ss command w = (Raise e, w).
Proof. intros H. unfold CloudFixed.add_command, bind, lift. by rewrite H. Qed.

Lemma add_command_rendered m name us ce ss command text w :
  CloudFixed.command_text E command = Ok text ->
  (CloudFixed.add_command E m name us ce ss command w).1 = Ok tt.
Proof.
  intros H.
  exact (proj1 (add_command_line E m name us ce ss command text w H)).
Qed.

Lemma upload_loop_stops_at m name us ce ss done bad rest e w :
  Forall (fun c => exists text, CloudFixed.command_text E c = Ok text) done ->
  CloudFixed.command_text E bad = Raise e ->
  for_each (done ++ bad :: rest) (CloudFixed.add_command E m name us ce ss) w
  = (Raise e, (for_each done (CloudFixed.add_command E m name us ce ss) w).2).
Proof.
  intros Hd Hb. revert w. induction Hd as [|c done [text Ht] _ IH]; intros w.
  - simpl. unfold bind. by rewrite (add_command_unrendered _ _ _ _ _ _ _ _ Hb).
  - simpl. unfold bind.
    pose proof (add_command_rendered m name us ce ss c text w Ht) as Hc.
    destruct (CloudFixed.add_command E m name us ce ss c w) as [r w1].
    simpl in Hc. subst r. apply IH.
Qed.

Lemma upload_loop_raises m name us ce ss commands w :
  Exists (fun c => exists e, CloudFixed.command_text E c = Raise e) commands ->
  exists e, (for_each commands (CloudFixed.add_command E m name us ce ss) w).1 = Raise e.
Proof.
  intros H. revert w. induction commands as [|c commands IH]; intros w.
  - by apply Exists_nil in H.
  - simpl. unfold bind.
    destruct (CloudFixed.command_text E c) as [text|e] eqn:Ht.
    + pose proof (add_command_rendered m name us ce ss c text w Ht) as Hc.
      destruct (CloudFixed.add_command E m name us ce ss c w) as [r w1].
      simpl in Hc. subst r. apply IH.
      apply Exists_cons in H as [[e He]|H]; [congruence|done].
    + rewrite (add_command_unrendered _ _ _ _ _ _ _ _ Ht). by exists e.
Qed.

Lemma ingestion_raises commands (use_sparse : bool) w :
  Exists (fun c => exists e, CloudFixed.command_text E c = Raise e) commands ->
  post (CloudFixed.create_embeddings_for_commands E commands use_sparse) w
    (fun r _ => exists e, r = Raise e).
Proof.
  intros H.
  unfold CloudFixed.create_embeddings_for_commands, CloudFixed.prepare_collection.
  wp_io; eauto.
  all: lazymatch goal with
       | |- post (for_each _ (CloudFixed.add_command _ ?m ?n ?us ?ce ?ss)) ?w1 _ =>
           destruct (upload_loop_raises m n us ce ss commands w1 H) as [e He];
           unfold post; rewrite He; eauto
       end.
Qed.

(** X3.  A record that lacks [name], [synopsis] or [syntax] is not a
    per-record failure: its text is rendered outside the [try] of the
    upload loop, so the [KeyError] leaves the loop at that record, after
    the records before it have been handled and before any later one is
    looked at.  A run of [create_embeddings_for_commands] over a list
    with such a record never returns normally. *)
Theorem unrendered_record_aborts_the_ingestion :
  (forall m name us ce ss done bad rest w e,
      Forall (fun c => exists text, CloudFixed.command_text E c = Ok text) done ->
      CloudFixed.command_text E bad = Raise e ->
      for_each (done ++ bad :: rest) (CloudFixed.add_command E m name us ce ss) w
      = (Raise e, (for_each done (CloudFixed.add_command E m name us ce ss) w).2) /\
      kind e = KeyError /\ msg e ∈ ["'name'"; "'synopsis'"; "'syntax'"]) /\
  (forall commands use_sparse w,
      Exists (fun c => exists e, CloudFixed.command_text E c = Raise e) commands ->
      exists e,
        (CloudFixed.create_embeddings_for_commands E commands use_sparse w).1
        = Raise e).
Proof.
  split.
  - intros * Hd Hb. split; [by apply upload_loop_stops_at|].
    by eapply command_text_raises.
  - intros commands use_sparse w H. by apply ingestion_raises.
Qed.
End IngestionRequests.

(** X3, on the sample data: the record without a name stops the loop
    after the first upload; the third record is never sent. *)
Lemma unnamed_record_stops_the_upload :
  let run := for_each [Demo.welcome; []; Demo.progress]
               (CloudFixed.add_command Demo.env Demo.dense_model "psadt_commands"
                  false true false)
               (Demo.world_with "psadt_commands" Demo.dense_collection) in
  run.1 = Raise (Exn KeyError "'name'") /\
  length (uploaded (calls run.2)) = 1.
Proof.
  pose proof (proj1 (proj1 (unrendered_record_aborts_the_ingestion Demo.env)
                Demo.dense_model "psadt_commands" false true false
                [Demo.welcome] [] [Demo.progress]
                (Demo.world_with "psadt_commands" Demo.dense_collection)
                (Exn KeyError "'name'")
                ltac:(repeat constructor; eexists; reflexivity) eq_refl)) as H.
  split; [exact (f_equal fst H)|]. vm_compute. reflexivity.
Defined.

(** ** Sparse ingestion beside a dense collection *)

Section Repeated.
Variable E : Env.

Lemma wrote_nothing_refl w : wrote_nothing w w.
Proof. done. Qed.

Lemma wrote_nothing_printed w0 w s : wrote_nothing w0 w -> wrote_nothing w0 (printed s w).
Proof. done. Qed.

Lemma wrote_nothing_requested w0 w c :
  uploaded [c] = [] -> wrote_nothing w0 w -> wrote_nothing w0 (requested c w).
Proof.
  intros Hc [Hs Hu]. split; [done|]. simpl.
  by rewrite uploaded_app, Hc, app_nil_r.
Qed.

Lemma wrote_nothing_trans w0 w1 w2 :
  wrote_nothing w0 w1 -> wrote_nothing w1 w2 -> wrote_nothing w0 w2.
Proof. intros [? ?] [? ?]. split; congruence. Qed.

Hint Resolve wrote_nothing_printed wrote_nothing_requested : core.

Lemma second_sparse_run commands w c c' :
  store w !! CloudFixed.COMMANDS_COLLECTION = Some c ->
  sparse_fields c = None ->
  store w !! (CloudFixed.COMMANDS_COLLECTION +:+ "_new") = Some c' ->
  post (CloudFixed.create_embeddings_for_commands E commands true) w
    (fun r w' => (exists e, r = Raise e /\
                            kind e ∈ [ModelError; Unavailable; Conflict]) /\
                 wrote_nothing w w').
Proof.
  intros Hc Hs Hn.
  pose proof (wrote_nothing_refl w) as H.
  assert (Hp : forall w1, store w1 = store w ->
                 probe w1 CloudFixed.COMMANDS_COLLECTION = false).
  { intros w1 Hw1. unfold probe. rewrite Hw1, Hc, Hs.
    by destruct (faults w1) as [|[] ?]. }
  unfold CloudFixed.create_embeddings_for_commands, CloudFixed.prepare_collection.
  wp_io.
  all: try (exfalso; simpl in *; congruence).
  all: try (match goal with
            | H : negb (probe _ _) = false |- _ => rewrite Hp in H by done
            end; discriminate).
  all: split; [|auto 12].
  all: eexists; split; [reflexivity|].
  all: try (erewrite raised_as_kind by eassumption).
  all: set_solver.
Qed.

Lemma add_command_stays m name us ce ss command n w :
  is_Some (store w !! n) ->
  post (CloudFixed.add_command E m name us ce ss command) w
    (fun _ w' => is_Some (store w' !! n)).
Proof.
  intros H.
  unfold CloudFixed.add_command, CloudFixed.upsert_sparse, CloudFixed.upsert_dense.
  wp_io; try done.
  all: simpl; destruct (decide (name = n)) as [->|Hne];
    [by rewrite lookup_insert_eq|by rewrite lookup_insert_ne].
Qed.

Lemma first_sparse_run commands w c :
  store w !! CloudFixed.COMMANDS_COLLECTION = Some c ->
  sparse_fields c = None ->
  post (CloudFixed.create_embeddings_for_commands E commands true) w
    (fun r w' => r = Ok tt ->
                 is_Some (store w' !! (CloudFixed.COMMANDS_COLLECTION +:+ "_new"))).
Proof.
  intros Hc Hs.
  assert (Hp : forall w1, store w1 = store w ->
                 probe w1 CloudFixed.COMMANDS_COLLECTION = false).
  { intros w1 Hw1. unfold probe. rewrite Hw1, Hc, Hs.
    by destruct (faults w1) as [|[] ?]. }
  unfold CloudFixed.create_embeddings_for_commands, CloudFixed.prepare_collection.
  wp_io; try done.
  all: try (exfalso; simpl in *; congruence).
  all: try (match goal with
            | H : negb (probe _ _) = false |- _ => rewrite Hp in H by done
            end; discriminate).
  all: apply (post_for_each _ _
                (fun w1 => is_Some (store w1 !!
                                      (CloudFixed.COMMANDS_COLLECTION +:+ "_new"))));
    [simpl; by rewrite lookup_insert_eq| |intros; wp; auto].
  all: intros x w1 _ Hw1; eapply post_mono; [by apply add_command_stays|].
  all: by intros [[]|e] w2 Hw2.
Qed.

(** X4.  Sparse ingestion beside a [psadt_commands] without sparse
    support works once.  When [psadt_commands_new] is already there, the
    run tries to create it again: it raises (the store's conflict, unless
    the model or the network failed first), sends no point and changes
    nothing.  So after a sparse run that ended normally, a further sparse
    run raises and writes nothing. *)
Theorem sparse_ingestion_works_once :
  (forall commands w c c',
      store w !! CloudFixed.COMMANDS_COLLECTION = Some c ->
      sparse_fields c = None ->
      store w !! (CloudFixed.COMMANDS_COLLECTION +:+ "_new") = Some c' ->
      let run := CloudFixed.create_embeddings_for_commands E commands true w in
      (exists e, run.1 = Raise e /\ kind e ∈ [ModelError; Unavailable; Conflict]) /\
      wrote_nothing w run.2) /\
  (forall commands commands' w c,
      store w !! CloudFixed.COMMANDS_COLLECTION = Some c ->
      sparse_fields c = None ->
      let first := CloudFixed.create_embeddings_for_commands E commands true w in
      let second := CloudFixed.create_embeddings_for_commands E commands' true first.2 in
      first.1 = Ok tt ->
      (exists e, second.1 = Raise e /\ kind e ∈ [ModelError; Unavailable; Conflict]) /\
      wrote_nothing first.2 second.2).
Proof.
  split.
  - intros commands w c c' Hc Hs Hn. by apply (second_sparse_run commands w c c').
  - intros commands commands' w c Hc Hs first second Hok.
    destruct (first_sparse_run commands w c Hc Hs Hok) as [c' Hn].
    destruct (create_embeddings_keeps E commands c w Hc Hs) as [Hk _].
    by apply (second_sparse_run commands' first.2 c c').
Qed.
End Repeated.

(** X4, on the sample data: the second sparse run beside the dense
    collection ends in the store's conflict. *)
Lemma second_sparse_ingestion_conflicts :
  let w := Demo.world_with "psadt_commands" Demo.dense_collection in
  let first := CloudFixed.create_embeddings_for_commands Demo.env [Demo.welcome] true w in
  let second := CloudFixed.create_embeddings_for_commands Demo.env [Demo.progress] true
                  first.2 in
  first.1 = Ok tt /\
  second.1 = Raise (conflict "psadt_commands_new") /\
  wrote_nothing first.2 second.2.
Proof.
  split; [vm_compute; reflexivity|]. split; [vm_compute; reflexivity|].
  apply (proj2 (sparse_ingestion_works_once Demo.env) [Demo.welcome] [Demo.progress]
           (Demo.world_with "psadt_commands" Demo.dense_collection)
           Demo.dense_collection); reflexivity.
Defined.

(** ** Uploading into an existing collection *)

Section ExistingCollection.
Variable E : Env.

Lemma make_point_pure m field command w :
  UseExisting.make_point E m field command w = (field_point E m field command, w).
Proof.
  unfold UseExisting.make_point, field_point, bind, lift, ret.
  destruct (UseExisting.command_text E command) as [text|]; [simpl|done].
  destruct (embed m text) as [e|]; [simpl|done].
  destruct (sparse_vector_of e) as [sv|]; [simpl|done].
  by destruct (res_bind (item command "id") point_id).
Qed.

Lemma make_points_pure m field commands w :
  mapM (UseExisting.make_point E m field) commands w
  = (res_mapM (field_point E m field) commands, w).
Proof.
  induction commands as [|c commands IH]; [done|].
  simpl. unfold bind at 1. rewrite make_point_pure.
  destruct (field_point E m field c) as [p|e]; [simpl|done].
  unfold bind. rewrite IH.
  by destruct (res_mapM (field_point E m field) commands).
Qed.

Lemma existing_upload_run commands name url w m c field :
  load_sparse E BM25 = Returned m ->
  head (faults w) <> Some true ->
  store w !! name = Some c ->
  UseExisting.first_sparse_field c = Some field ->
  UseExisting.add_to_existing_collection E commands name url w
  = (points <- lift (res_mapM (field_point E m field) commands) ;;
     match points with
     | [] => print "No points to add."
     | _ => upsert E name points ;;;
            print ("Successfully added " +:+ pretty (length points)
                   +:+ " commands to collection '" +:+ name +:+ "'")
     end)
      (printed ("Collection supports sparse vectors with field name: " +:+ field)
         (printed ("Successfully connected to collection '" +:+ name +:+ "'")
            (connected name url w))).
Proof.
  intros Hm Hf Hc Hfield.
  unfold UseExisting.add_to_existing_collection, SparseTextEmbedding, connected.
  rewrite Hm.
  unfold bind at 1. unfold print at 1. cbv iota beta.
  unfold bind at 1. unfold lift at 1. cbn [raised_as]. cbv iota beta.
  unfold bind at 1. unfold print at 1. cbv iota beta.
  unfold bind at 1. unfold print at 1. cbv iota beta.
  unfold bind at 1.
  unfold try_except, get_collection, request, bind at 1 2 3, print at 1, ret.
  cbn [store faults printed requested].
  assert (Hok : match faults w with true :: _ => Raise unavailable | _ => Ok tt end
                = @Ok unit tt).
  { by destruct (faults w) as [|[] ?]. }
  rewrite Hok, Hc. cbv iota beta. rewrite Hfield.
  unfold bind at 1. unfold print at 1. cbv iota beta.
  unfold bind at 1. rewrite make_points_pure.
  unfold bind at 1, lift. reflexivity.
Qed.

(** X5.  [add_to_existing_collection] uploads all records or none.  On a
    collection with a sparse field, the points of all records are built
    first, each under the collection's first sparse field name: if one
    record fails, its exception leaves the function and no upsert is
    issued, not even for the records before it; an empty list issues no
    upsert either; otherwise there is exactly one upsert, carrying one
    point per record in order, and the stored collection changes only if
    that request succeeds. *)
Theorem upload_to_existing_collection_is_one_batch commands name url w m c field :
  load_sparse E BM25 = Returned m ->
  head (faults w) <> Some true ->
  store w !! name = Some c ->
  UseExisting.first_sparse_field c = Some field ->
  let run := UseExisting.add_to_existing_collection E commands name url w in
  match res_mapM (field_point E m field) commands with
  | Raise e =>
      run.1 = Raise e /\ calls run.2 = calls w ++ [CGetCollection name] /\
      store run.2 = store w
  | Ok [] =>
      commands = [] /\ run.1 = Ok tt /\
      calls run.2 = calls w ++ [CGetCollection name] /\
      store run.2 = store w /\ last (out run.2) = Some "No points to add."
  | Ok pts =>
      length pts = length commands /\
      calls run.2 = calls w ++ [CGetCollection name; CUpsert name pts] /\
      match run.1 with
      | Ok _ => store run.2 = <[name := with_points c pts]> (store w)
      | Raise _ => store run.2 = store w
      end
  end.
Proof.
  intros Hm Hf Hc Hfield run. unfold run.
  rewrite (existing_upload_run commands name url w m c field Hm Hf Hc Hfield).
  destruct (res_mapM (field_point E m field) commands) as [pts|e] eqn:Hpts.
  - pose proof (res_mapM_length _ _ _ Hpts) as Hlen.
    destruct pts as [|p pts].
    + unfold bind, lift, print. simpl.
      split; [by destruct commands|]. split; [done|]. split; [done|]. split; [done|].
      by rewrite last_snoc.
    + split; [done|].
      unfold bind at 1, lift. cbv iota beta.
      set (w3 := printed _ _).
      assert (Hc3 : store w3 !! name = Some c) by done.
      assert (Hcs : calls w3 = calls w ++ [CGetCollection name]) by done.
      assert (Hs3 : store w3 = store w) by done.
      clearbody w3.
      unfold upsert, request, print, bind. cbn [store requested].
      rewrite Hc3.
      destruct (faults w3) as [|[] ?]; cbn -[pretty String.append forallb];
        rewrite ?Hcs, <- ?app_assoc; try (split; [done|]; by rewrite ?Hs3).
      all: destruct (forallb (store_accepts E c) (p :: pts));
        cbn -[pretty String.append]; rewrite ?Hcs, <- ?app_assoc;
        (split; [done|]); by rewrite ?Hs3.
  - unfold bind, lift. simpl. done.
Qed.

Lemma unusable_run commands name url w m :
  load_sparse E BM25 = Returned m ->
  unusable w name ->
  exists lines,
    UseExisting.add_to_existing_collection E commands name url w
    = (Raise (Exn SystemExit "1"),
       {| store := store w; faults := tail (faults w);
          out := out w ++ lines; calls := calls w ++ [CGetCollection name] |}).
Proof.
  intros Hm Hu.
  unfold UseExisting.add_to_existing_collection, SparseTextEmbedding.
  rewrite Hm.
  unfold bind at 1. unfold print at 1. cbv iota beta.
  unfold bind at 1. unfold lift at 1. cbn [raised_as]. cbv iota beta.
  unfold bind at 1. unfold print at 1. cbv iota beta.
  unfold bind at 1. unfold print at 1. cbv iota beta.
  unfold bind at 1.
  unfold try_except, get_collection, request, bind at 1 2 3, print at 1, ret.
  cbn [store faults printed requested].
  destruct Hu as [Hu|Hu].
  - assert (Hreq : match faults w with true :: _ => Raise unavailable | _ => Ok tt end
                   = @Raise unit unavailable).
    { by destruct (faults w) as [|[] l]. }
    rewrite Hreq.
    cbn -[pretty String.append]. eexists.
    unfold printed, raise. cbn -[pretty String.append].
    rewrite <- !app_assoc. reflexivity.
  - assert (Hreq : exists r : res unit,
               match faults w with true :: _ => Raise unavailable | _ => Ok tt end = r
               /\ (r = Ok tt \/ r = Raise unavailable)).
    { destruct (faults w) as [|[] ?]; eauto. }
    destruct Hreq as (r & -> & [->| ->]).
    + destruct (store w !! name) as [c|] eqn:Hc.
      * cbn -[pretty String.append]. rewrite Hu.
        unfold bind, print, raise, printed. cbn -[pretty String.append].
        eexists. rewrite <- !app_assoc. reflexivity.
      * cbn -[pretty String.append].
        unfold bind, print, raise, printed. cbn -[pretty String.append].
        eexists. rewrite <- !app_assoc. reflexivity.
    + cbn -[pretty String.append].
      unfold bind, print, raise, printed. cbn -[pretty String.append].
      eexists. rewrite <- !app_assoc. reflexivity.
Qed.

(** X6.  When the collection cannot be used (the request for its
    configuration fails, it does not exist, or it has no sparse field),
    [add_to_existing_collection] leaves through [sys.exit(1)] after that
    one request: nothing is embedded or written, and since [SystemExit]
    is no [Exception], a caller's [except Exception] does not stop it. *)
Theorem unusable_collection_exits commands name url w m :
  load_sparse E BM25 = Returned m ->
  unusable w name ->
  let run := UseExisting.add_to_existing_collection E commands name url w in
  run.1 = Raise (Exn SystemExit "1") /\
  calls run.2 = calls w ++ [CGetCollection name] /\
  store run.2 = store w /\
  forall handler,
    try_except (UseExisting.add_to_existing_collection E commands name url) handler w
    = run.
Proof.
  intros Hm Hu run. unfold run.
  destruct (unusable_run commands name url w m Hm Hu) as [lines Hrun].
  rewrite Hrun. repeat split. intros handler. unfold try_except. by rewrite Hrun.
Qed.
End ExistingCollection.

(** X5, on the sample data: the record without an id keeps the first
    record from being uploaded. *)
Lemma failed_record_keeps_the_batch_back :
  let w := Demo.world_with "cmds" Demo.sparse_collection in
  let run := UseExisting.add_to_existing_collection Demo.env [Demo.welcome; no_id]
               "cmds" None w in
  run.1 = Raise (Exn KeyError "'id'") /\
  calls run.2 = calls w ++ [CGetCollection "cmds"] /\
  store run.2 = store w.
Proof.
  exact (upload_to_existing_collection_is_one_batch Demo.env [Demo.welcome; no_id]
           "cmds" None (Demo.world_with "cmds" Demo.sparse_collection)
           Demo.sparse_model Demo.sparse_collection "text"
           eq_refl ltac:(discriminate) eq_refl eq_refl).
Defined.

(** X6, on the sample data: the dense collection has no sparse field. *)
Lemma dense_collection_makes_the_upload_exit :
  let w := Demo.world_with "cmds" Demo.dense_collection in
  let run := UseExisting.add_to_existing_collection Demo.env [Demo.welcome]
               "cmds" None w in
  run.1 = Raise (Exn SystemExit "1") /\
  calls run.2 = calls w ++ [CGetCollection "cmds"] /\
  store run.2 = store w.
Proof.
  pose proof (unusable_collection_exits Demo.env [Demo.welcome] "cmds" None
                (Demo.world_with "cmds" Demo.dense_collection) Demo.sparse_model
                eq_refl (or_intror eq_refl)) as (H1 & H2 & H3 & _).
  by repeat split.
Defined.

(** ** The collection and the field of a sparse search *)

Section SparseSearchTarget.
Variable E : Env.

Lemma probe_has_sparse w w' name c :
  store w !! name = Some c -> is_Some (sparse_fields c) ->
  store w' = store w -> head (faults w') <> Some true ->
  probe w' name = true.
Proof.
  intros Hc [fs Hfs] Hs Hf. unfold probe. rewrite Hs, Hc, Hfs.
  by destruct (faults w') as [|[] ?].
Qed.

(** X7.  The sparse search of psadt_fastembed_cloud_fixed moves to
    [psadt_commands_new] when [psadt_commands] has no sparse support and
    [psadt_commands_new] has: after the two probes it prints that it uses
    the alternative collection and sends one sparse search there.  The
    sparse field it names is always [text], whatever the collection's
    sparse field is called. *)
Theorem sparse_search_uses_the_alternative_collection
    query limit w m qe sv c' :
  load_sparse E BM25 = Returned m ->
  m_query_embed m query = Returned qe ->
  sparse_vector_of qe = Ok sv ->
  faults w = [] ->
  lacks_sparse w CloudFixed.COMMANDS_COLLECTION ->
  store w !! (CloudFixed.COMMANDS_COLLECTION +:+ "_new") = Some c' ->
  is_Some (sparse_fields c') ->
  let run := CloudFixed.search_psadt_commands E query true limit w in
  calls run.2
  = calls w ++ [CGetCollection CloudFixed.COMMANDS_COLLECTION;
                CGetCollection (CloudFixed.COMMANDS_COLLECTION +:+ "_new");
                CSearch (CloudFixed.COMMANDS_COLLECTION +:+ "_new")
                  (Some [0%float]) (Some ("text", sv)) limit] /\
  "Using alternative collection 'psadt_commands_new' that supports sparse vectors"
  ∈ out run.2 /\
  run.1 = match raised_as BadRequest
                  (store_search E c' (Some [0%float]) (Some ("text", sv)) limit) with
          | Ok hits => Ok (map attach_score hits)
          | Raise _ => Ok []
          end.
Proof.
  intros Hm Hq Hsv Hf H1 Hc' Hs' run. unfold run.
  assert (P1 : forall w', store w' = store w ->
                 probe w' "psadt_commands" = false)
    by (intros; by apply (probe_lacks_sparse w)).
  assert (P2 : forall w', store w' = store w -> faults w' = [] ->
                 probe w' "psadt_commands_new" = true).
  { intros w' Hst Hfl. apply (probe_has_sparse w w' _ c'); try done.
    by rewrite Hfl. }
  unfold CloudFixed.search_psadt_commands, CloudFixed.choose_collection.
  unfold bind at 1. simpl print.
  unfold lift, SparseTextEmbedding, query_embed, bind, try_except.
  rewrite Hm. simpl. rewrite Hq. simpl.
  rewrite supports_sparse_vectors_run.
  rewrite P1 by done. simpl.
  rewrite supports_sparse_vectors_run.
  rewrite P2 by (simpl; by rewrite ?Hf). simpl.
  unfold CloudFixed.perform_search, CloudFixed.search_request, try_except,
    bind, lift, print, ret. rewrite Hsv. cbv iota beta.
  rewrite search_run. cbn [faults requested printed store]. rewrite Hf.
  cbn [tail]. change ("psadt_commands" +:+ "_new") with "psadt_commands_new" in *.
  rewrite Hc'.
  destruct (store_search E c' (Some [0%float]) (Some ("text", sv)) limit) as [hits|s];
    cbn -[pretty]; rewrite <- ?app_assoc.
  all: (split; [done|]); (split; [|done]).
  all: rewrite !elem_of_app; right; right; left; by apply list_elem_of_singleton.
Qed.

Lemma search_commands_run query name limit w m c field :
  load_sparse E BM25 = Returned m ->
  head (faults w) <> Some true ->
  store w !! name = Some c ->
  UseExisting.first_sparse_field c = Some field ->
  UseExisting.search_commands E query name limit w
  = (if String.eqb field "" then
       print "Error: Collection does not support sparse vectors." ;;; ret []
     else
       query_embedding <- lift (query_embed m query) ;;
       sparse_vector <- lift (sparse_vector_of query_embedding) ;;
       try_except
         (search_results <-
            search E name None (Some (field, sparse_vector)) limit ;;
          let results := map attach_score search_results in
          print ("Found " +:+ pretty (length results) +:+ " matching commands") ;;;
          ret results)
         (fun e => print ("Error during search: " +:+ msg e) ;;; ret []))
      (requested (CGetCollection name)
         (printed ("Searching for '" +:+ query +:+ "' in collection '" +:+ name
                   +:+ "'...") w)).
Proof.
  intros Hm Hf Hc Hfield.
  unfold UseExisting.search_commands.
  unfold bind at 1. unfold print at 1. cbv iota beta.
  unfold bind at 1. unfold lift at 1, SparseTextEmbedding. rewrite Hm.
  cbn [raised_as]. cbv iota beta.
  unfold bind at 1. unfold get_collection, request, bind at 1.
  assert (Hok : match faults w with true :: _ => Raise unavailable | _ => Ok tt end
                = @Ok unit tt).
  { by destruct (faults w) as [|[] ?]. }
  cbn [faults printed]. rewrite Hok. cbv iota beta.
  cbn [store requested printed]. rewrite Hc. by rewrite Hfield.
Qed.

(** X8.  [search_commands] of use_existing_collection searches under the
    collection's own first sparse field name: it reads the configuration,
    then sends one sparse search, without a dense vector, under that
    name and with the limit it was given.  A first field whose name is
    empty counts as no sparse support: no search is sent. *)
Theorem search_commands_uses_the_first_sparse_field
    query name limit w m qe sv c field :
  load_sparse E BM25 = Returned m ->
  m_query_embed m query = Returned qe ->
  sparse_vector_of qe = Ok sv ->
  head (faults w) <> Some true ->
  store w !! name = Some c ->
  UseExisting.first_sparse_field c = Some field ->
  let run := UseExisting.search_commands E query name limit w in
  calls run.2
  = calls w ++ CGetCollection name
               :: (if String.eqb field "" then []
                   else [CSearch name None (Some (field, sv)) limit]) /\
  (field = "" -> run.1 = Ok []).
Proof.
  intros Hm Hq Hsv Hf Hc Hfield run. unfold run.
  rewrite (search_commands_run query name limit w m c field Hm Hf Hc Hfield).
  destruct (String.eqb field "") eqn:Heq.
  - unfold bind, print, ret. cbn -[pretty]. done.
  - split; [|intros ->; done].
    unfold bind at 1. unfold lift at 1, query_embed. rewrite Hq.
    cbn [raised_as]. cbv iota beta.
    unfold bind at 1. unfold lift at 1. rewrite Hsv. cbv iota beta.
    unfold try_except, bind at 1. rewrite search_run.
    cbn [snd fst].
    destruct (match faults _ with true :: _ => _ | _ => _ end) as [hits|e];
      [unfold bind, print, ret|destruct (is_Exception e); [unfold bind, print, ret|]];
      cbn -[pretty]; by rewrite <- ?app_assoc.
Qed.
End SparseSearchTarget.

(** X7, on the sample data: a dense [psadt_commands] beside a sparse
    [psadt_commands_new]. *)
Lemma sparse_search_goes_to_the_new_collection :
  let w := {| store := {[ "psadt_commands" := Demo.dense_collection;
                          "psadt_commands_new" := Demo.sparse_collection ]};
              faults := []; out := []; calls := [] |} in
  calls (CloudFixed.search_psadt_commands Demo.env "close" true 3 w).2
  = [CGetCollection "psadt_commands"; CGetCollection "psadt_commands_new";
     CSearch "psadt_commands_new" (Some [0%float])
       (Some ("text", {| sv_indices := [3; 17]%Z; sv_values := [1; 1]%float |})) 3].
Proof.
  assert (H1 : lacks_sparse
                 {| store := {[ "psadt_commands" := Demo.dense_collection;
                                "psadt_commands_new" := Demo.sparse_collection ]};
                    faults := []; out := []; calls := [] |}
                 CloudFixed.COMMANDS_COLLECTION).
  { intros c Hc. vm_compute in Hc. by simplify_eq. }
  exact (proj1 (sparse_search_uses_the_alternative_collection Demo.env "close" 3%Z
                  {| store := {[ "psadt_commands" := Demo.dense_collection;
                                 "psadt_commands_new" := Demo.sparse_collection ]};
                     faults := []; out := []; calls := [] |}
                  Demo.sparse_model _ _ Demo.sparse_collection
                  eq_refl eq_refl eq_refl eq_refl H1 eq_refl
                  (mk_is_Some _ _ eq_refl))).
Defined.

(** X8, on the sample data: the sparse collection's field is [text]. *)
Lemma search_commands_on_the_sparse_collection :
  calls (UseExisting.search_commands Demo.env "close" "cmds" 3
           (Demo.world_with "cmds" Demo.sparse_collection)).2
  = [CGetCollection "cmds";
     CSearch "cmds" None
       (Some ("text", {| sv_indices := [3; 17]%Z; sv_values := [1; 1]%float |})) 3].
Proof.
  exact (proj1 (search_commands_uses_the_first_sparse_field Demo.env "close" "cmds" 3%Z
                  (Demo.world_with "cmds" Demo.sparse_collection)
                  Demo.sparse_model _ _ Demo.sparse_collection "text"
                  eq_refl eq_refl eq_refl ltac:(discriminate) eq_refl eq_refl)).
Defined.

(** ** The recreating ingestion of psadt_fastembed_cloud *)

Lemma post_delete_collection name w (Q : res bool -> world -> Prop) :
  Q (Raise unavailable) (requested (CDeleteCollection name) w) ->
  (forall c, store w !! name = Some c ->
     Q (Ok true) (set_store (delete name (store w))
                    (requested (CDeleteCollection name) w))) ->
  (store w !! name = None -> Q (Ok false) (requested (CDeleteCollection name) w)) ->
  post (delete_collection name) w Q.
Proof.
  intros Hf Hs Hn. unfold delete_collection. apply post_bind, post_request; [done|].
  unfold post. simpl. destruct (store w !! name) eqn:Hl; simpl; eauto.
Qed.

Lemma sent_requested w0 w pts c :
  uploaded [c] = [] -> sent w0 w pts -> sent w0 (requested c w) pts.
Proof.
  intros Hc (new & Hn & <-). exists (new ++ [c]). simpl. rewrite Hn, <- app_assoc.
  split; [done|]. by rewrite uploaded_app, Hc, app_nil_r.
Qed.

Section Recreating.
Variable E : Env.

Lemma legacy_add_command m (us : bool) command pts w0 w :
  store w = <[Cloud.COMMANDS_COLLECTION := with_points (created_for us) pts]> (store w0) ->
  sent w0 w pts ->
  post (Cloud.add_command E m Cloud.COMMANDS_COLLECTION us command) w
    (fun r w' => match r with
                 | Ok _ =>
                     exists p,
                       store w' = <[Cloud.COMMANDS_COLLECTION :=
                                      with_points (created_for us) (pts ++ [p])]> (store w0) /\
                       sent w0 w' (pts ++ [p])
                 | Raise _ => recreated us w0 w'
                 end).
Proof.
  intros Hs Hp.
  assert (Hstay : recreated us w0 w) by (exists pts, pts; auto).
  assert (Hreq : forall p, recreated us w0
                   (requested (CUpsert Cloud.COMMANDS_COLLECTION [p]) w)).
  { intros p. exists pts, (pts ++ [p]). split; [done|]. split; [|eauto].
    by eapply sent_upsert. }
  assert (Hup : forall c p, store w !! Cloud.COMMANDS_COLLECTION = Some c ->
            exists q,
              store (upserted Cloud.COMMANDS_COLLECTION c [p] w)
              = <[Cloud.COMMANDS_COLLECTION :=
                    with_points (created_for us) (pts ++ [q])]> (store w0) /\
              sent w0 (upserted Cloud.COMMANDS_COLLECTION c [p] w) (pts ++ [q])).
  { intros c p Hc. exists p. rewrite Hs, lookup_insert_eq in Hc. injection Hc as <-.
    split; [|by eapply sent_upsert].
    simpl. rewrite Hs, insert_insert_eq. f_equal.
    unfold with_points. simpl. by rewrite upsert_points_app. }
  unfold Cloud.add_command.
  destruct us; wp_io; eauto.
Qed.

Lemma legacy_upload_loop m (us : bool) commands w0 :
  forall pts w,
    store w = <[Cloud.COMMANDS_COLLECTION := with_points (created_for us) pts]> (store w0) ->
    sent w0 w pts ->
    post (for_each commands (Cloud.add_command E m Cloud.COMMANDS_COLLECTION us)) w
      (fun r w' => match r with
                   | Ok _ =>
                       exists pts',
                         length pts' = length commands /\
                         store w' = <[Cloud.COMMANDS_COLLECTION :=
                                        with_points (created_for us) (pts ++ pts')]>
                                      (store w0) /\
                         sent w0 w' (pts ++ pts')
                   | Raise _ => recreated us w0 w'
                   end).
Proof.
  induction commands as [|c commands IH]; intros pts w Hs Hp.
  - apply post_ret. exists []. by rewrite app_nil_r.
  - simpl. apply post_bind. eapply post_mono; [by apply legacy_add_command|].
    intros [[]|e] w1; [|done]. intros (p & Hs1 & Hp1).
    eapply post_mono; [by apply (IH (pts ++ [p]))|].
    intros [[]|e] w2; [|done]. intros (pts' & Hl & Hs2 & Hp2).
    exists (p :: pts'). rewrite <- app_assoc in Hs2, Hp2. simpl. auto.
Qed.

Lemma legacy_ingestion commands (use_sparse : bool) w :
  post (Cloud.create_embeddings_for_commands E commands use_sparse) w
    (fun r w' =>
       (store w' = store w \/
        store w' = delete Cloud.COMMANDS_COLLECTION (store w) \/
        recreated use_sparse w w') /\
       (r = Ok tt ->
        exists pts,
          length pts = length commands /\ sent w w' pts /\
          store w' = <[Cloud.COMMANDS_COLLECTION :=
                         with_points (created_for use_sparse) pts]> (store w))).
Proof.
  unfold Cloud.create_embeddings_for_commands.
  destruct use_sparse; wp_io.
  all: try lazymatch goal with
       | |- post (delete_collection _) _ _ => apply post_delete_collection; wp_io
       end.
  all: lazymatch goal with
       | |- post (for_each _ _) ?w1 _ =>
           eapply post_mono;
           [ apply (legacy_upload_loop _ _ commands w [] w1);
             [ simpl; rewrite ?insert_delete_eq; reflexivity
             | eexists; split; [simpl; rewrite <- ?app_assoc; reflexivity|reflexivity] ]
           | intros [[]|e] w2;
             [ intros (pts & Hl & Hs & Hp); wp; simpl app in *;
               split; [right; right; exists pts, pts; auto|intros _; exists pts; auto]
             | intros Hr; split; [auto|done] ] ]
       | |- _ => split; [|done]; simpl; auto
       end.
Qed.

(** X9.  The ingestion of psadt_fastembed_cloud starts the collection
    afresh.  A run that ends normally leaves [psadt_commands] as the
    newly created collection of the mode holding exactly the points of
    this run, one per record: whatever was stored before is gone.  A
    run that raises leaves the store as it was, or without the
    collection, or with the new collection and the points sent before
    the failure. *)
Theorem legacy_ingestion_starts_afresh commands (use_sparse : bool) w :
  let run := Cloud.create_embeddings_for_commands E commands use_sparse w in
  (store run.2 = store w \/
   store run.2 = delete Cloud.COMMANDS_COLLECTION (store w) \/
   recreated use_sparse w run.2) /\
  (run.1 = Ok tt ->
   exists pts,
     length pts = length commands /\ sent w run.2 pts /\
     store run.2 = <[Cloud.COMMANDS_COLLECTION :=
                       with_points (created_for use_sparse) pts]> (store w)).
Proof. apply legacy_ingestion. Qed.
End Recreating.

(** ** The batches of generate_embeddings *)

Section Batches.
Variable E : Env.

(** X10.  The batch size of generate_embeddings is not checked.  With a
    batch size of zero the run raises the [ValueError] of [range]; with
    a negative one the loop has no iteration, and the run ends normally,
    printing that all items were processed and uploaded.  In both cases
    no request is issued and the store is as it was. *)
Theorem batch_size_is_not_checked input items coll (sparse : bool) (bs : Z) w m :
  (if sparse then load_sparse E BM25 else load_dense E BGE_SMALL) = Returned m ->
  (bs <= 0)%Z ->
  let run := GenerateEmbeddings.main E input items coll sparse bs w in
  calls run.2 = calls w /\ store run.2 = store w /\
  if (bs =? 0)%Z
  then run.1 = Raise (Exn ValueError "range() arg 3 must not be zero")
  else run.1 = Ok tt /\
       last (out run.2)
       = Some ("Successfully processed and uploaded " +:+ pretty (length items)
               +:+ " items").
Proof.
  intros Hm Hbs run. unfold run, GenerateEmbeddings.main.
  unfold bind, print, lift, SparseTextEmbedding, TextEmbedding, py_range0.
  destruct sparse; rewrite Hm; cbn [raised_as].
  all: destruct (bs =? 0)%Z eqn:H0; [done|].
  all: assert (H1 : (0 <? bs)%Z = false) by lia; rewrite H1.
  all: cbn -[pretty String.append]; repeat split; by rewrite last_snoc.
Qed.

Lemma process_batch_calls m items coll sparse (bs : Z) a w :
  (0 < bs)%Z ->
  a * Z.to_nat bs < length items ->
  post (GenerateEmbeddings.process_batch E m items coll sparse bs
          (Z.of_nat a * bs)) w
    (fun r w' =>
       (calls w' = calls w /\ r <> Ok tt) \/
       exists pts, calls w' = calls w ++ [CUpsert coll pts] /\
                   0 < length pts <= Z.to_nat bs).
Proof.
  intros Hbs Ha. unfold GenerateEmbeddings.process_batch.
  apply post_bind, post_print.
  apply post_bind, post_lift.
  destruct (res_mapM _ _) as [texts|e] eqn:Ht; [|by left].
  apply post_bind, post_lift.
  destruct (res_mapM (embed m) texts) as [embs|e] eqn:He; [|by left].
  apply post_bind, post_lift.
  destruct (GenerateEmbeddings.make_points _ _ _ _) as [ps|e] eqn:Hps; [|by left].
  apply res_mapM_length in Ht, He.
  destruct (make_points_placed _ _ _ _ _ Hps) as [Hlps _].
  assert (Hlen : 0 < length ps <= Z.to_nat bs).
  { rewrite Hlps, length_zip, He, Ht, Nat.min_id.
    unfold py_slice.
    replace (Z.to_nat (Z.of_nat a * bs + bs - Z.of_nat a * bs)) with (Z.to_nat bs) by lia.
    replace (Z.to_nat (Z.of_nat a * bs)) with (a * Z.to_nat bs)
      by (rewrite Z2Nat.inj_mul by lia; by rewrite Nat2Z.id).
    rewrite length_take, length_drop. lia. }
  apply post_bind, post_upsert; intros; try apply post_print; right; by exists ps.
Qed.

Lemma batches_calls m items coll sparse (bs : Z) :
  (0 < bs)%Z ->
  forall cnt a w,
    (forall a', a <= a' < a + cnt -> a' * Z.to_nat bs < length items) ->
    post (for_each (map (fun k => Z.of_nat k * bs)%Z (seq a cnt))
            (GenerateEmbeddings.process_batch E m items coll sparse bs)) w
      (fun r w' =>
         exists new, calls w' = calls w ++ new /\
                     Forall (batch_call coll bs) new /\
                     length new <= cnt /\
                     (r = Ok tt -> length new = cnt)).
Proof.
  intros Hbs. induction cnt as [|cnt IH]; intros a w Hlt.
  - apply post_ret. exists []. by rewrite app_nil_r.
  - simpl. apply post_bind. eapply post_mono.
    + apply process_batch_calls; [done|]. apply Hlt. lia.
    + intros r w1 [[Hc Hr]|(pts & Hc & Hl)].
      * destruct r as [[]|e]; [done|].
        exists []. rewrite app_nil_r. repeat split; try done. simpl. lia.
      * assert (Hb : batch_call coll bs (CUpsert coll pts)) by done.
        destruct r as [[]|e].
        -- eapply post_mono; [apply (IH (S a)); intros; apply Hlt; lia|].
           intros r w2 (new & Hc2 & Hf & Hle & Heq).
           exists (CUpsert coll pts :: new). rewrite Hc2, Hc, <- app_assoc.
           repeat split; [by constructor|simpl; lia|].
           intros Hr. simpl. by rewrite Heq.
        -- exists [CUpsert coll pts]. repeat split; try done; [by constructor|].
           simpl. lia.
Qed.

Lemma main_calls input items coll sparse (bs : Z) w :
  (0 < bs)%Z ->
  post (GenerateEmbeddings.main E input items coll sparse bs) w
    (fun r w' =>
       exists new, calls w' = calls w ++ new /\
                   Forall (batch_call coll bs) new /\
                   length new <= Z.to_nat ((Z.of_nat (length items) + bs - 1) / bs) /\
                   (r = Ok tt ->
                    length new = Z.to_nat ((Z.of_nat (length items) + bs - 1) / bs))).
Proof.
  intros Hbs.
  assert (Hnone : forall w', calls w' = calls w -> forall (r : res unit), r <> Ok tt ->
            exists new, calls w' = calls w ++ new /\
              Forall (batch_call coll bs) new /\
              length new <= Z.to_nat ((Z.of_nat (length items) + bs - 1) / bs) /\
              (r = Ok tt ->
               length new = Z.to_nat ((Z.of_nat (length items) + bs - 1) / bs))).
  { intros w' Hw' r Hr. exists []. rewrite app_nil_r.
    repeat split; try done. simpl. lia. }
  unfold GenerateEmbeddings.main.
  apply post_bind, post_print. apply post_bind, post_print.
  apply post_bind, post_print. apply post_bind, post_lift.
  destruct (if sparse then _ else _) as [m|e]; [|by apply Hnone].
  apply post_bind, post_lift. unfold py_range0.
  assert (H0 : (bs =? 0)%Z = false) by lia.
  assert (H1 : (0 <? bs)%Z = true) by lia.
  rewrite H0, H1.
  destruct (range_facts (length items) bs Hbs) as [Hlt _].
  apply post_bind. eapply post_mono.
  - apply (batches_calls m items coll sparse bs Hbs _ 0). intros a' Ha'.
    apply Hlt. lia.
  - intros [[]|e] w1 (new & Hc & Hf & Hle & Heq).
    + apply post_print. exists new. auto.
    + exists new. repeat split; try done.
Qed.

(** X11.  For a positive batch size, generate_embeddings talks to the
    store through upserts alone: it never reads, creates or deletes a
    collection.  Every request is an upsert into the named collection of
    at least one and at most [batch_size] points; there are at most
    [ceil(len(items) / batch_size)] of them, and exactly that many when
    the run ends normally. *)
Theorem batches_are_bounded_upserts input items coll sparse (bs : Z) w :
  (0 < bs)%Z ->
  let run := GenerateEmbeddings.main E input items coll sparse bs w in
  exists new,
    calls run.2 = calls w ++ new /\
    Forall (batch_call coll bs) new /\
    length new <= Z.to_nat ((Z.of_nat (length items) + bs - 1) / bs) /\
    (run.1 = Ok tt ->
     length new = Z.to_nat ((Z.of_nat (length items) + bs - 1) / bs)).
Proof. intros Hbs. by apply main_calls. Qed.
End Batches.

(** X11, on the sample data: three items in batches of two. *)
Lemma three_items_in_two_batches :
  let run := GenerateEmbeddings.main Demo.env "items.json"
               [Demo.welcome; Demo.progress; first_item] "cmds" false 2
               (Demo.world_with "cmds" Demo.dense_collection) in
  exists new,
    calls run.2 = calls (Demo.world_with "cmds" Demo.dense_collection) ++ new /\
    Forall (batch_call "cmds" 2) new /\
    length new <= Z.to_nat ((Z.of_nat 3 + 2 - 1) / 2) /\
    (run.1 = Ok tt -> length new = Z.to_nat ((Z.of_nat 3 + 2 - 1) / 2)).
Proof.
  exact (batches_are_bounded_upserts Demo.env "items.json"
           [Demo.welcome; Demo.progress; first_item] "cmds" false 2%Z
           (Demo.world_with "cmds" Demo.dense_collection) ltac:(lia)).
Defined.

(** X10, on the sample data: a batch size of [-1] uploads nothing and
    still reports success. *)
Lemma negative_batch_size_reports_success :
  let run := GenerateEmbeddings.main Demo.env "items.json" [Demo.welcome] "cmds"
               false (-1) Demo.empty_world in
  calls run.2 = calls Demo.empty_world /\ store run.2 = store Demo.empty_world /\
  run.1 = Ok tt /\
  last (out run.2) = Some "Successfully processed and uploaded 1 items".
Proof.
  exact (batch_size_is_not_checked Demo.env "items.json" [Demo.welcome] "cmds"
           false (-1)%Z Demo.empty_world Demo.dense_model eq_refl ltac:(lia)).
Defined.

(** ** The text of an item *)

Lemma string_app_assoc (s1 s2 s3 : string) :
  (s1 +:+ s2) +:+ s3 = s1 +:+ s2 +:+ s3.
Proof.
  induction s1 as [|a s1 IH]; [done|].
  change (String a ((s1 +:+ s2) +:+ s3) = String a (s1 +:+ s2 +:+ s3)).
  by rewrite IH.
Qed.

Lemma string_app_length (s1 s2 : string) :
  String.length (s1 +:+ s2) = String.length s1 + String.length s2.
Proof.
  induction s1 as [|a s1 IH]; [done|].
  change (S (String.length (s1 +:+ s2)) = S (String.length s1 + String.length s2)).
  by rewrite IH.
Qed.

Section ItemText.
Variable E : Env.

Lemma bullet_lines_raises k1 k2 v e :
  GenerateEmbeddings.bullet_lines E k1 k2 v = Raise e ->
  kind e = TypeError \/ kind e = KeyError.
Proof.
  unfold GenerateEmbeddings.bullet_lines.
  destruct (py_iter v) as [elems|e0] eqn:Hi; simpl.
  - clear Hi. destruct (res_mapM _ elems) as [lines|e0] eqn:Hm; simpl; [done|].
    intros [= <-]. revert Hm. induction elems as [|x elems IH]; simpl; [done|].
    destruct (subscript x k1) as [a|e1] eqn:H1; simpl.
    + destruct (subscript x k2) as [b|e2] eqn:H2; simpl.
      * destruct (res_mapM _ elems); simpl; [done|]. intros [= ->]. by apply IH.
      * intros [= <-]. destruct x; simpl in H2; simplify_eq; auto.
        destruct (dict_get k2 d); simplify_eq. auto.
    + intros [= <-]. destruct x; simpl in H1; simplify_eq; auto.
      destruct (dict_get k1 d); simplify_eq. auto.
  - intros [= <-]. destruct v; simpl in Hi; simplify_eq; auto.
Qed.

Lemma optional_section_raises key header k1 k2 it e :
  GenerateEmbeddings.optional_section E key header k1 k2 it = Raise e ->
  (kind e = TypeError \/ kind e = KeyError) /\
  exists v, dict_get key it = Some v /\ py_truthy v = true.
Proof.
  unfold GenerateEmbeddings.optional_section.
  destruct (dict_get key it) as [v|]; [|done].
  destruct (py_truthy v) eqn:Ht; [|done].
  destruct (GenerateEmbeddings.bullet_lines E k1 k2 v) as [s|e0] eqn:Hb; simpl; [done|].
  intros [= <-]. split; [by eapply bullet_lines_raises|eauto].
Qed.

Lemma item_in d k : dict_in k d = true -> exists v, item d k = Ok v.
Proof.
  unfold dict_in, item, subscript. destruct (dict_get k d); [eauto|done].
Qed.

(** X12.  [create_text_representation] raises only on a command (an item
    with [name] and [synopsis]) whose [parameters] or [examples] is
    truthy and malformed, and then with a [TypeError] or a [KeyError].
    Every other item has a text: documentation entries, items of any
    other shape, the empty item. *)
Theorem item_text_raises_only_on_malformed_sections it e :
  GenerateEmbeddings.create_text_representation E it = Raise e ->
  (kind e = TypeError \/ kind e = KeyError) /\
  dict_in "name" it = true /\ dict_in "synopsis" it = true /\
  exists key v,
    (key = "parameters" \/ key = "examples") /\
    dict_get key it = Some v /\ py_truthy v = true.
Proof.
  unfold GenerateEmbeddings.create_text_representation.
  destruct (dict_in "name" it) eqn:Hn; simpl.
  - destruct (dict_in "synopsis" it) eqn:Hs; simpl.
    + destruct (item_in _ _ Hn) as [n ->]. destruct (item_in _ _ Hs) as [sy ->].
      simpl.
      destruct (GenerateEmbeddings.optional_section E "parameters" _ _ _ it)
        as [ps|e1] eqn:Hp; simpl.
      * destruct (GenerateEmbeddings.optional_section E "examples" _ _ _ it)
          as [xs|e2] eqn:Hx; simpl; [done|].
        intros [= <-]. apply optional_section_raises in Hx as [Hk (v & Hv & Ht)].
        repeat split; [done|]. exists "examples", v. auto.
      * intros [= <-]. apply optional_section_raises in Hp as [Hk (v & Hv & Ht)].
        repeat split; [done|]. exists "parameters", v. auto.
    + destruct (dict_in "title" it && dict_in "content" it) eqn:Ht; [|done].
      apply andb_prop in Ht as [Ht Hc].
      destruct (item_in _ _ Ht) as [t ->]. by destruct (item_in _ _ Hc) as [c ->].
  - destruct (dict_in "title" it && dict_in "content" it) eqn:Ht; [|done].
    apply andb_prop in Ht as [Ht Hc].
    destruct (item_in _ _ Ht) as [t ->]. by destruct (item_in _ _ Hc) as [c ->].
Qed.

(** X13.  generate_embeddings and the command scripts never embed the
    same text for a record: whenever both render it, the text of
    [create_text_representation] is the command text of
    psadt_fastembed_cloud_fixed followed by a newline and the parameter
    and example sections. *)
Theorem item_text_extends_command_text it s text :
  GenerateEmbeddings.create_text_representation E it = Ok s ->
  CloudFixed.command_text E it = Ok text ->
  exists params examples,
    GenerateEmbeddings.optional_section E "parameters" "Parameters:"
      "name" "description" it = Ok params /\
    GenerateEmbeddings.optional_section E "examples" "Examples:"
      "title" "code" it = Ok examples /\
    s = text +:+ nl +:+ params +:+ examples /\ s <> text.
Proof.
  unfold GenerateEmbeddings.create_text_representation, CloudFixed.command_text.
  unfold dict_in, item, subscript.
  destruct (dict_get "name" it) as [n|]; [simpl|done].
  destruct (dict_get "synopsis" it) as [sy|]; [simpl|done].
  destruct (dict_get "syntax" it) as [sx|]; [simpl|done].
  destruct (GenerateEmbeddings.optional_section E "parameters" _ _ _ it)
    as [ps|] eqn:Hp; [simpl|done].
  destruct (GenerateEmbeddings.optional_section E "examples" _ _ _ it)
    as [xs|] eqn:Hx; [simpl|done].
  intros [= <-] [= <-]. exists ps, xs. split; [done|]. split; [done|].
  assert (Heq : ((py_str E n +:+ ": " +:+ py_str E sy +:+ nl) +:+ py_str E sx +:+ nl)
                +:+ ps +:+ xs
                = (py_str E n +:+ ": " +:+ py_str E sy +:+ nl +:+ py_str E sx)
                  +:+ nl +:+ ps +:+ xs).
  { by rewrite !string_app_assoc. }
  split; [exact Heq|]. rewrite Heq.
  intros H. apply (f_equal String.length) in H.
  rewrite !string_app_length in H. simpl in H. lia.
Qed.
End ItemText.

(** X12, on the sample data: a command whose [parameters] is a string. *)
Lemma string_parameters_raise :
  let it := [("name", VStr "Show-DialogBox"); ("synopsis", VStr "Shows a dialog box.");
             ("parameters", VStr "Text")] in
  GenerateEmbeddings.create_text_representation Demo.env it
  = Raise (Exn TypeError "string indices must be integers") /\
  dict_in "name" it = true /\ dict_in "synopsis" it = true /\
  exists key v,
    (key = "parameters" \/ key = "examples") /\
    dict_get key it = Some v /\ py_truthy v = true.
Proof.
  split; [reflexivity|].
  exact (proj2 (item_text_raises_only_on_malformed_sections Demo.env
                  [("name", VStr "Show-DialogBox");
                   ("synopsis", VStr "Shows a dialog box.");
                   ("parameters", VStr "Text")]
                  (Exn TypeError "string indices must be integers") eq_refl)).
Defined.

(** X13, on the sample data: the two texts of the welcome command differ
    by the final newline. *)
Lemma welcome_texts_differ_by_a_newline :
  exists params examples,
    GenerateEmbeddings.optional_section Demo.env "parameters" "Parameters:"
      "name" "description" Demo.welcome = Ok params /\
    GenerateEmbeddings.optional_section Demo.env "examples" "Examples:"
      "title" "code" Demo.welcome = Ok examples /\
    "Show-InstallationWelcome: Shows a welcome dialog." +:+ nl
    +:+ "Show-InstallationWelcome -CloseApps <String[]>" +:+ nl
    = ("Show-InstallationWelcome: Shows a welcome dialog." +:+ nl
       +:+ "Show-InstallationWelcome -CloseApps <String[]>")
      +:+ nl +:+ params +:+ examples /\
    "Show-InstallationWelcome: Shows a welcome dialog." +:+ nl
    +:+ "Show-InstallationWelcome -CloseApps <String[]>" +:+ nl
    <> "Show-InstallationWelcome: Shows a welcome dialog." +:+ nl
       +:+ "Show-InstallationWelcome -CloseApps <String[]>".
Proof.
  exact (item_text_extends_command_text Demo.env Demo.welcome _ _ eq_refl eq_refl).
Defined.

(** ** The search of psadt_fastembed_cloud *)

Section LegacySearch.
Variable E : Env.

Lemma legacy_search_run query (use_sparse : bool) limit w m qe :
  (if use_sparse then load_sparse E BM25 else load_dense E BGE_SMALL) = Returned m ->
  (if use_sparse then m_query_embed m query else m_embed m query) = Returned qe ->
  Cloud.search_psadt_commands E query use_sparse limit w
  = (search_results <-
       (if use_sparse then
          sparse_vector <- lift (sparse_vector_of qe) ;;
          search E Cloud.COMMANDS_COLLECTION None (Some ("text", sparse_vector)) limit
        else
          query_vector <- lift (tolist qe) ;;
          search E Cloud.COMMANDS_COLLECTION (Some query_vector) None limit) ;;
     print ("Found " +:+ pretty (length (map attach_score search_results))
            +:+ " matching commands") ;;;
     ret (map attach_score search_results))
      (printed ("Searching for: '" +:+ query +:+ "' using "
                +:+ (if use_sparse then "sparse" else "dense") +:+ " embeddings...") w).
Proof.
  intros Hm Hq. unfold Cloud.search_psadt_commands.
  unfold bind at 1. unfold print at 1. cbv iota beta.
  unfold bind at 1. unfold lift at 1, SparseTextEmbedding, TextEmbedding.
  destruct use_sparse; rewrite Hm; cbn [raised_as]; cbv iota beta;
    unfold bind at 1; unfold lift at 1, query_embed, embed; rewrite Hq;
    cbn [raised_as]; reflexivity.
Qed.

(** X14.  The sparse search of psadt_fastembed_cloud sends one search
    request to [psadt_commands], without a dense vector and under the
    field [text], and nothing else: it does not probe the collection and
    has no fallback.  It returns the scored payloads of the answer;
    whatever the request raises leaves the function, so a missing
    collection is an exception here. *)
Theorem legacy_search_propagates_errors query limit w m qe sv :
  load_sparse E BM25 = Returned m ->
  m_query_embed m query = Returned qe ->
  sparse_vector_of qe = Ok sv ->
  let run := Cloud.search_psadt_commands E query true limit w in
  calls run.2
  = calls w ++ [CSearch Cloud.COMMANDS_COLLECTION None (Some ("text", sv)) limit] /\
  store run.2 = store w /\
  run.1 = match faults w with
          | true :: _ => Raise unavailable
          | _ => match store w !! Cloud.COMMANDS_COLLECTION with
                 | Some c =>
                     res_bind (raised_as BadRequest
                                 (store_search E c None (Some ("text", sv)) limit))
                       (fun hits => Ok (map attach_score hits))
                 | None => Raise (not_found Cloud.COMMANDS_COLLECTION)
                 end
          end.
Proof.
  intros Hm Hq Hsv run. unfold run.
  rewrite (legacy_search_run query true limit w m qe Hm Hq).
  cbv beta iota delta [bind lift print ret]. rewrite Hsv. cbv beta iota.
  rewrite !search_run. cbn [fst snd faults store printed].
  destruct (faults w) as [|[] fs];
    try (cbn -[pretty]; by rewrite <- ?app_assoc).
  all: destruct (store w !! Cloud.COMMANDS_COLLECTION) as [c|];
    try (cbn -[pretty]; by rewrite <- ?app_assoc).
  all: destruct (store_search E c None (Some ("text", sv)) limit);
    cbn -[pretty]; by rewrite <- ?app_assoc.
Qed.
End LegacySearch.

(** X14, on the sample data: the search of a missing collection. *)
Lemma legacy_search_of_a_missing_collection_raises :
  let run := Cloud.search_psadt_commands Demo.env "close" true 3 Demo.empty_world in
  calls run.2
  = [CSearch "psadt_commands" None
       (Some ("text", {| sv_indices := [3; 17]%Z; sv_values := [1; 1]%float |})) 3] /\
  store run.2 = store Demo.empty_world /\
  run.1 = Raise (not_found "psadt_commands").
Proof.
  exact (legacy_search_propagates_errors Demo.env "close" 3%Z Demo.empty_world
           Demo.sparse_model _ _ eq_refl eq_refl eq_refl).
Defined.

(** ** The entry points of the two cloud scripts *)

Lemma post_and {A} (m : M A) w (P Q : res A -> world -> Prop) :
  post m w P -> post m w Q -> post m w (fun r w' => P r w' /\ Q r w').
Proof. unfold post. auto. Qed.

Lemma grows_trans w0 w1 w2 : grows w0 w1 -> grows w1 w2 -> grows w0 w2.
Proof.
  intros [Hs1 Hi1] [Hs2 Hi2]. split.
  - by eapply store_grows_trans.
  - by eapply issued_trans.
Qed.

Lemma read_only_grows w0 w : read_only w0 w -> grows w0 w.
Proof.
  intros [Hs Hi]. split.
  - rewrite Hs. apply store_grows_refl.
  - eapply issued_mono; [|done]. by intros [].
Qed.

Lemma catchable_py_prefix n v : catchable (py_prefix n v).
Proof. intros e. destruct v; simpl; intros [= <-]; done. Qed.

Lemma catchable_command_text E command :
  catchable (CloudFixed.command_text E command).
Proof. unfold CloudFixed.command_text. auto 10 with catchable. Qed.

Section EntryPoint.
Variable E : Env.
Variable F : Formatting.

Lemma add_command_no_exit m name us ce ss command w :
  post (CloudFixed.add_command E m name us ce ss command) w (fun r _ => no_exit r).
Proof.
  unfold CloudFixed.add_command, CloudFixed.upsert_sparse, CloudFixed.upsert_dense.
  wp_io; try done.
  all: match goal with
       | H : ?r = Raise ?e |- no_exit (Raise ?e) =>
           apply (fun c : catchable r => c e H);
           auto using catchable_command_text with catchable
       end.
Qed.

Lemma ingestion_no_exit commands use_sparse w :
  post (CloudFixed.create_embeddings_for_commands E commands use_sparse) w
    (fun r _ => no_exit r).
Proof.
  unfold CloudFixed.create_embeddings_for_commands, CloudFixed.prepare_collection.
  wp_io; try done.
  all: try match goal with
       | H : ?r = Raise ?e |- no_exit (Raise ?e) =>
           apply (fun c : catchable r => c e H); destruct use_sparse; auto with catchable
       end.
  all: apply (post_for_each _ _ (fun _ => True)); [done| |intros; by wp].
  all: intros x w1 _ _; eapply post_mono; [apply add_command_no_exit|].
  all: by intros [[]|e] w2.
Qed.

Lemma show_result_post i hit w :
  post (CloudFixed.show_result E F (i, attach_score hit)) w
    (fun r w' => no_exit r /\ store w' = store w /\ calls w' = calls w).
Proof.
  unfold CloudFixed.show_result.
  assert (Hs : item (attach_score hit) "score" = Ok (VFloat (hit_score hit))).
  { unfold item, subscript, attach_score. by rewrite dict_get_set_eq. }
  rewrite Hs. simpl res_bind.
  wp; try done.
  all: split; [|done].
  all: match goal with
       | H : ?r = Raise ?e |- no_exit (Raise ?e) =>
           apply (fun c : catchable r => c e H);
           auto using catchable_py_prefix with catchable
       end.
Qed.

Lemma show_results_post hits w :
  post (for_each (enumerate (map attach_score hits)) (CloudFixed.show_result E F)) w
    (fun r w' => no_exit r /\ store w' = store w /\ calls w' = calls w).
Proof.
  apply (post_for_each _ _ (fun w1 => store w1 = store w /\ calls w1 = calls w));
    [done| |by intros w1 [? ?]].
  intros [i r] w1 Hin [Hs Hc].
  apply elem_of_zip_r, list_elem_of_fmap in Hin as (hit & -> & _).
  eapply post_mono; [apply show_result_post|].
  intros [[]|e] w2 (Hn & Hs2 & Hc2); repeat split; congruence.
Qed.

Lemma entry_point_post path_exists w :
  post (CloudFixed.main E F path_exists) w
    (fun r w' => (exists code, r = Ok code /\ (code = 0 \/ code = 1)%Z) /\ grows w w').
Proof.
  pose proof (grows_refl w) as Hg.
  unfold CloudFixed.main, CloudFixed.get_psadt_commands_from_db.
  destruct path_exists; simpl negb; wp.
  2: { split; [eauto|]. by repeat apply grows_printed. }
  set (w1 := printed _ (printed _ (printed _ (printed _ w)))).
  assert (Hg1 : grows w w1) by (by repeat apply grows_printed).
  clearbody w1.
  eapply post_mono;
    [apply post_and; [apply ingestion_no_exit|apply create_embeddings_grows]|].
  intros [[]|e] w2 [Hn Hg2]; simpl in Hn.
  2: { rewrite Hn. wp. split; [eauto|].
       apply grows_printed. by eapply grows_trans. }
  assert (Hg2' : grows w w2) by (by eapply grows_trans).
  wp.
  eapply post_mono;
    [apply post_and; [apply search_psadt_commands_post
                     |apply search_psadt_commands_read_only]|].
  intros [rs|e] w3 [Hs Hr].
  2: { destruct Hs as [Hk _].
       assert (He : is_Exception e = true) by (unfold is_Exception; by rewrite Hk).
       rewrite He. wp. split; [eauto|].
       apply grows_printed. eapply grows_trans; [done|]. by apply read_only_grows. }
  destruct Hs as (_ & hits & [= ->] & _).
  assert (Hg3 : grows w w3).
  { eapply grows_trans; [done|]. by apply read_only_grows. }
  wp.
  eapply post_mono; [apply show_results_post|].
  intros [[]|e] w4 (Hn4 & Hs4 & Hc4); simpl in Hn4.
  - wp. split; [eauto|]. repeat apply grows_printed.
    destruct Hg3 as [Ha Hb]. split; simpl in *; by rewrite ?Hs4, ?Hc4.
  - rewrite Hn4. wp. split; [eauto|]. apply grows_printed.
    destruct Hg3 as [Ha Hb]. split; simpl in *; by rewrite ?Hs4, ?Hc4.
Qed.

(** X15.  [main] of psadt_fastembed_cloud_fixed always hands back an
    exit code, 0 or 1: every exception of the workflow is caught and
    turned into the code 1.  Nothing it does deletes a collection or a
    stored point.  When the project path does not exist it returns 1
    before any model is loaded or any request is sent. *)
Theorem main_returns_an_exit_code path_exists w :
  let run := CloudFixed.main E F path_exists w in
  (exists code, run.1 = Ok code /\ (code = 0 \/ code = 1)%Z) /\
  grows w run.2 /\
  (path_exists = false ->
   run.1 = Ok 1%Z /\ calls run.2 = calls w /\ store run.2 = store w).
Proof.
  intros run. destruct (entry_point_post path_exists w) as [Hc Hg].
  split; [done|]. split; [done|]. intros Hp. unfold run. by rewrite Hp.
Qed.
End EntryPoint.

Section LegacyEntryPoint.
Variable E : Env.
Variable F : Formatting.

Lemma legacy_search_post query use_sparse limit w :
  post (Cloud.search_psadt_commands E query use_sparse limit) w
    (fun r w' => store w' = store w /\
                 match r with
                 | Ok rs => exists hits, rs = map attach_score hits
                 | Raise e => is_Exception e = true
                 end).
Proof.
  unfold Cloud.search_psadt_commands.
  wp; try (split; [done|]); eauto.
  all: match goal with
       | H : ?r = Raise ?e |- is_Exception ?e = true =>
           apply (fun c : catchable r => c e H); destruct use_sparse;
           auto with catchable
       end.
Qed.

Lemma legacy_add_command_no_exit m name us command w :
  post (Cloud.add_command E m name us command) w (fun r _ => no_exit r).
Proof.
  unfold Cloud.add_command.
  destruct us; wp_io; try done.
  all: match goal with
       | H : ?r = Raise ?e |- no_exit (Raise ?e) =>
           apply (fun c : catchable r => c e H);
           auto 10 using catchable_command_text, catchable_point_id with catchable
       end.
Qed.

Lemma legacy_ingestion_no_exit commands use_sparse w :
  post (Cloud.create_embeddings_for_commands E commands use_sparse) w
    (fun r _ => no_exit r).
Proof.
  unfold Cloud.create_embeddings_for_commands.
  destruct use_sparse; wp_io; try done.
  all: try lazymatch goal with
       | |- post (delete_collection _) _ _ => apply post_delete_collection; wp_io
       end; try done.
  all: try match goal with
       | H : ?r = Raise ?e |- no_exit (Raise ?e) =>
           apply (fun c : catchable r => c e H); auto with catchable
       end.
  all: apply (post_for_each _ _ (fun _ => True)); [done| |intros; by wp].
  all: intros x w1 _ _; eapply post_mono; [apply legacy_add_command_no_exit|].
  all: by intros [[]|e] w2.
Qed.

Lemma legacy_show_results_post hits w :
  post (for_each (enumerate (map attach_score hits)) (Cloud.show_result E F)) w
    (fun r w' => no_exit r /\ store w' = store w /\ calls w' = calls w).
Proof. exact (show_results_post E F hits w). Qed.

Lemma legacy_entry_point_post path_exists w :
  post (Cloud.main E F path_exists) w
    (fun r w' =>
       (exists code, r = Ok code /\ (code = 0 \/ code = 1)%Z) /\
       (r = Ok 0%Z ->
        exists p, store w' = <[Cloud.COMMANDS_COLLECTION :=
                                 with_points (created_for true) [p]]> (store w))).
Proof.
  unfold Cloud.main, Cloud.get_psadt_commands_from_db.
  destruct path_exists; simpl negb; wp.
  2: { split; [eauto|]. done. }
  set (w1 := printed _ (printed _ (printed _ (printed _ w)))).
  assert (Hs1 : store w1 = store w) by done. clearbody w1.
  eapply post_mono;
    [apply post_and; [apply legacy_ingestion_no_exit|apply legacy_ingestion]|].
  intros [[]|e] w2 [Hn [_ Hok]]; simpl in Hn.
  2: { rewrite Hn. wp. split; [eauto|]. done. }
  destruct (Hok eq_refl) as (pts & Hlen & _ & Hs2).
  destruct pts as [|p [|? ?]]; try done. rewrite Hs1 in Hs2.
  wp.
  eapply post_mono; [apply legacy_search_post|].
  intros [rs|e] w3 [Hs3 Hr].
  2: { rewrite Hr. wp. split; [eauto|]. done. }
  destruct Hr as [hits ->].
  wp.
  eapply post_mono; [apply legacy_show_results_post|].
  intros [[]|e] w4 (Hn4 & Hs4 & Hc4); simpl in Hn4.
  - wp. split; [eauto|]. intros _. exists p. cbn [store printed].
    rewrite Hs4. cbn [store printed]. by rewrite Hs3.
  - rewrite Hn4. wp. split; [eauto|]. done.
Qed.

(** X16.  [main] of psadt_fastembed_cloud always hands back an exit
    code, 0 or 1.  The code 0 means that nothing raised, and then
    [psadt_commands] has been created anew and holds a single point, the
    one of the placeholder command: what the collection held before is
    gone.  When the project path does not exist the code is 1 and no
    request is sent. *)
Theorem legacy_main_returns_an_exit_code path_exists w :
  let run := Cloud.main E F path_exists w in
  (exists code, run.1 = Ok code /\ (code = 0 \/ code = 1)%Z) /\
  (run.1 = Ok 0%Z ->
   exists p, store run.2 = <[Cloud.COMMANDS_COLLECTION :=
                               with_points (created_for true) [p]]> (store w)) /\
  (path_exists = false ->
   run.1 = Ok 1%Z /\ calls run.2 = calls w /\ store run.2 = store w).
Proof.
  intros run. destruct (legacy_entry_point_post path_exists w) as [Hc Hz].
  split; [done|]. split; [done|]. intros Hp. unfold run. by rewrite Hp.
Qed.
End LegacyEntryPoint.

(** X15, on the sample data: without the project path nothing is sent. *)
Lemma main_without_the_project_path :
  let run := CloudFixed.main Demo.env demo_formatting false Demo.empty_world in
  run.1 = Ok 1%Z /\ calls run.2 = calls Demo.empty_world /\
  store run.2 = store Demo.empty_world.
Proof.
  exact (proj2 (proj2 (main_returns_an_exit_code Demo.env demo_formatting false
                         Demo.empty_world)) eq_refl).
Defined.

(** X16, on the sample data: after a run that returned 0, the sample
    dense collection has been replaced by a collection of one point. *)
Lemma legacy_main_replaces_the_dense_collection :
  let w := Demo.world_with "psadt_commands" Demo.dense_collection in
  let run := Cloud.main Demo.env demo_formatting true w in
  run.1 = Ok 0%Z /\
  exists p, store run.2 = <[Cloud.COMMANDS_COLLECTION :=
                              with_points (created_for true) [p]]> (store w).
Proof.
  assert (H : (Cloud.main Demo.env demo_formatting true
                 (Demo.world_with "psadt_commands" Demo.dense_collection)).1 = Ok 0%Z)
    by (vm_compute; reflexivity).
  split; [exact H|].
  exact (proj1 (proj2 (legacy_main_returns_an_exit_code Demo.env demo_formatting true
                         (Demo.world_with "psadt_commands" Demo.dense_collection))) H).
Defined.

(** ** Dense ingestion into whatever collection is there *)

Section DenseIngestion.
Variable E : Env.

Lemma add_command_upserts m name us ce ss command w0 w :
  issued (upsert_into name) (calls w0) (calls w) ->
  post (CloudFixed.add_command E m name us ce ss command) w
    (fun _ w' => issued (upsert_into name) (calls w0) (calls w')).
Proof.
  intros H.
  assert (Hu : forall pts, upsert_into name (CUpsert name pts)) by done.
  unfold CloudFixed.add_command, CloudFixed.upsert_sparse, CloudFixed.upsert_dense.
  wp_io; eauto 8 using issued_printed, issued_requested, issued_upserted.
Qed.

Lemma upload_loop_upserts m name us ce ss commands w :
  post (for_each commands (CloudFixed.add_command E m name us ce ss)) w
    (fun _ w' => issued (upsert_into name) (calls w) (calls w')).
Proof.
  apply (post_for_each _ _
           (fun w1 => issued (upsert_into name) (calls w) (calls w1)));
    [apply issued_refl| |done].
  intros x w1 _ Hw1. eapply post_mono; [by apply add_command_upserts|].
  by intros [[]|e] w2 Hw2.
Qed.

(** X17.  Dense ingestion does not look at the collection it finds.
    When [psadt_commands] exists, whatever its configuration, a dense
    run over records that render reads the collection once, creates
    nothing, sends every other request as an upsert into
    [psadt_commands], and ends normally, also when the store rejected
    every point. *)
Theorem dense_ingestion_does_not_check_the_collection commands w c m :
  faults w = [] ->
  store w !! CloudFixed.COMMANDS_COLLECTION = Some c ->
  load_dense E BGE_SMALL = Returned m ->
  Forall (fun x => exists text, CloudFixed.command_text E x = Ok text) commands ->
  let run := CloudFixed.create_embeddings_for_commands E commands false w in
  run.1 = Ok tt /\
  exists upserts,
    calls run.2
    = calls w ++ CGetCollection CloudFixed.COMMANDS_COLLECTION :: upserts /\
    Forall (upsert_into CloudFixed.COMMANDS_COLLECTION) upserts.
Proof.
  intros Hf Hc Hm Hr run. unfold run.
  unfold CloudFixed.create_embeddings_for_commands, CloudFixed.prepare_collection,
    TextEmbedding.
  rewrite Hm.
  cbv beta iota delta [bind lift print ret try_except get_collection request raised_as].
  cbn [faults store printed requested]. rewrite Hf, Hc. cbv beta iota.
  set (w1 := requested _ _). cbn [negb]. cbv beta iota.
  pose proof (upload_loop_never_stops E m CloudFixed.COMMANDS_COLLECTION false true
                false commands w1 Hr) as [Hok _].
  pose proof (upload_loop_upserts m CloudFixed.COMMANDS_COLLECTION false true false
                commands w1) as (upserts & Hcalls & Hu).
  destruct (for_each commands _ w1) as [r w2]. simpl in Hok, Hcalls. subst r.
  split; [done|]. exists upserts. split; [|done].
  cbn [snd calls printed]. rewrite Hcalls. unfold w1. cbn [calls requested printed].
  by rewrite <- app_assoc.
Qed.
End DenseIngestion.

(** X17, on the sample data: dense points are sent to the sparse
    collection. *)
Lemma dense_points_go_to_the_sparse_collection :
  let w := Demo.world_with "psadt_commands" Demo.sparse_collection in
  let run := CloudFixed.create_embeddings_for_commands Demo.env [Demo.progress] false w in
  run.1 = Ok tt /\
  exists upserts,
    calls run.2 = calls w ++ CGetCollection CloudFixed.COMMANDS_COLLECTION :: upserts /\
    Forall (upsert_into CloudFixed.COMMANDS_COLLECTION) upserts.
Proof.
  apply (dense_ingestion_does_not_check_the_collection Demo.env [Demo.progress]
           (Demo.world_with "psadt_commands" Demo.sparse_collection)
           Demo.sparse_collection Demo.dense_model); try reflexivity.
  repeat constructor. eexists. reflexivity.
Defined.

(** ** The outcome of each record of the upload loop *)

Section RecordOutcomes.
Variable E : Env.

Lemma upsert_raises name pts w e w' :
  upsert E name pts w = (Raise e, w') -> is_Exception e = true.
Proof.
  intros H.
  apply (post_elim _ _ (fun r _ => catchable r) _ _) in H; [by apply H|].
  apply post_upsert; intros; try (intros x [= <-]; done).
Qed.

Lemma add_command_handled m name (us ce ss : bool) command text w :
  CloudFixed.command_text E command = Ok text ->
  CloudFixed.add_command E m name us ce ss command w
  = (Ok tt, handled E m name (us && (negb ce || ss)) command w).
Proof.
  intros Ht. destruct (command_text_name E _ _ Ht) as [n Hn].
  unfold CloudFixed.add_command, handled, point_for, added_line, failed_line.
  rewrite Ht, Hn. cbn [res_bind].
  unfold bind at 1. unfold lift at 1. cbv iota beta.
  unfold CloudFixed.upsert_sparse, CloudFixed.upsert_dense, try_except.
  destruct (us && (negb ce || ss)).
  - destruct (CloudFixed.sparse_point m text command) as [p|e] eqn:Hp.
    + unfold bind at 2. unfold lift at 1. cbv iota beta. unfold bind at 1.
      destruct (upsert E name [p] w) as [[[]|e] w'] eqn:Hu.
      * unfold bind, lift, print. by rewrite ?Hn.
      * rewrite (upsert_raises _ _ _ _ _ Hu). unfold bind, lift, print. by rewrite ?Hn.
    + unfold bind at 1. unfold bind at 1. unfold lift at 1. cbv iota beta.
      rewrite (catchable_sparse_point m text command e Hp).
      unfold bind, lift, print. by rewrite ?Hn.
  - destruct (CloudFixed.dense_point m text command) as [p|e] eqn:Hp.
    + unfold bind at 2. unfold lift at 1. cbv iota beta. unfold bind at 1.
      destruct (upsert E name [p] w) as [[[]|e] w'] eqn:Hu.
      * unfold bind, lift, print. by rewrite ?Hn.
      * rewrite (upsert_raises _ _ _ _ _ Hu). unfold bind, lift, print. by rewrite ?Hn.
    + unfold bind at 1. unfold bind at 1. unfold lift at 1. cbv iota beta.
      rewrite (catchable_dense_point m text command e Hp).
      unfold bind, lift, print. by rewrite ?Hn.
Qed.

(** C4 (as amended).  In the upload loop of psadt_fastembed_cloud_fixed,
    when every record renders to its text, no failure of a record stops
    the loop: it ends normally, and it has dealt with the records one
    after the other as [handled] says.  A record whose point cannot be
    built (embedding, conversion, id) gets the line
    [Error adding command <name>: <error>] with that error and nothing is
    sent for it; every other record has its point sent in an upsert of
    its own and gets [Added command: <name>] exactly when that upsert
    went through, otherwise the error line with the store's error. *)
Theorem record_failures_do_not_stop_the_loop m name us ce ss commands w :
  Forall (fun c => exists text, CloudFixed.command_text E c = Ok text) commands ->
  for_each commands (CloudFixed.add_command E m name us ce ss) w
  = (Ok tt,
     foldl (fun w1 c => handled E m name (us && (negb ce || ss)) c w1) w commands).
Proof.
  intros H. revert w. induction H as [|c commands [text Ht] _ IH]; intros w.
  - done.
  - simpl. unfold bind. rewrite (add_command_handled _ _ _ _ _ _ _ _ Ht). apply IH.
Qed.
End RecordOutcomes.

(** C4, witness: three records, the second of which has no id.  Its
    error line stands between the two added lines, and the points of the
    other two records are sent and stored. *)
Lemma loop_goes_on_after_a_failed_record :
  let w := Demo.world_with "psadt_commands" Demo.dense_collection in
  let run := for_each [Demo.welcome; no_id; Demo.progress]
               (CloudFixed.add_command Demo.env Demo.dense_model "psadt_commands"
                  false true false) w in
  run.1 = Ok tt /\
  out run.2 = ["Added command: Show-InstallationWelcome";
               "Error adding command Show-DialogBox: 'id'";
               "Added command: Close-InstallationProgress"] /\
  uploaded (calls run.2) = [Demo.point_of Demo.welcome 1; Demo.point_of Demo.progress 2] /\
  (store run.2 !! "psadt_commands" ≫= fun c => c_points c !! IdInt 2)
  = Some (Demo.point_of Demo.progress 2).
Proof.
  cbv zeta.
  rewrite (record_failures_do_not_stop_the_loop Demo.env Demo.dense_model
             "psadt_commands" false true false
             [Demo.welcome; no_id; Demo.progress]
             (Demo.world_with "psadt_commands" Demo.dense_collection)
             ltac:(repeat constructor; eexists; reflexivity)).
  repeat split; vm_compute; reflexivity.
Defined.

(** ** Errors of a search call, in both scripts *)

Section SearchErrorsOfBoth.
Variable E : Env.

Lemma search_raises name qv qsv limit w e w' :
  search E name qv qsv limit w = (Raise e, w') -> is_Exception e = true.
Proof.
  rewrite search_run. intros [= H _]. revert H.
  destruct (faults w) as [|[] ?]; try (intros [= <-]; done).
  all: destruct (store w !! name) as [c|]; try (intros [= <-]; done).
  all: destruct (store_search E c qv qsv limit); simpl; intros [= <-]; done.
Qed.

Lemma search_commands_raises_early query name limit w :
  post (UseExisting.search_commands E query name limit) w
    (fun r w' => match r with
                 | Ok _ => True
                 | Raise _ => issued (reads_collection name) (calls w) (calls w')
                 end).
Proof.
  pose proof (issued_refl (reads_collection name) (calls w)) as H.
  assert (Hg : reads_collection name (CGetCollection name)) by done.
  unfold UseExisting.search_commands.
  wp; auto using issued_printed, issued_requested.
Qed.

(** C6 (as amended).  In psadt_fastembed_cloud_fixed no store error of a
    search call reaches the caller: the call raises only for a model
    failure, and a failed search request is printed and turned into the
    empty list.  In use_existing_collection a failed search request is
    caught the same way: the call prints [Error during search: <cause>]
    and returns the empty list; what the call raises, it raises before
    any search request is sent, as the client's own exception of
    [get_collection] for a missing collection. *)
Theorem search_errors_are_swallowed :
  (forall query use_sparse limit w,
      match (CloudFixed.search_psadt_commands E query use_sparse limit w).1 with
      | Ok _ => True
      | Raise e => kind e = ModelError
      end) /\
  (forall use_sparse qe name limit w e w1,
      CloudFixed.search_request E use_sparse qe name limit w = (Raise e, w1) ->
      CloudFixed.perform_search E use_sparse qe name limit w
      = (Ok [], printed ("Error during search: " +:+ msg e) w1)) /\
  (forall query name limit w m,
      load_sparse E BM25 = Returned m ->
      store w !! name = None ->
      head (faults w) <> Some true ->
      (UseExisting.search_commands E query name limit w).1
      = Raise (not_found name)) /\
  (forall query name limit w m c field qe sv e w1,
      load_sparse E BM25 = Returned m ->
      head (faults w) <> Some true ->
      store w !! name = Some c ->
      UseExisting.first_sparse_field c = Some field ->
      field <> "" ->
      m_query_embed m query = Returned qe ->
      sparse_vector_of qe = Ok sv ->
      search E name None (Some (field, sv)) limit
        (requested (CGetCollection name)
           (printed ("Searching for '" +:+ query +:+ "' in collection '" +:+ name
                     +:+ "'...") w))
      = (Raise e, w1) ->
      UseExisting.search_commands E query name limit w
      = (Ok [], printed ("Error during search: " +:+ msg e) w1)) /\
  (forall query name limit w,
      match (UseExisting.search_commands E query name limit w).1 with
      | Ok _ => True
      | Raise _ =>
          issued (reads_collection name) (calls w)
            (calls (UseExisting.search_commands E query name limit w).2)
      end).
Proof.
  split; [|split; [|split; [|split]]].
  - intros query use_sparse limit w.
    pose proof (search_psadt_commands_post E query use_sparse limit w) as H.
    unfold post in H.
    destruct (CloudFixed.search_psadt_commands E query use_sparse limit w).1;
      [done|apply H].
  - intros use_sparse qe name limit w e w1 H.
    unfold CloudFixed.perform_search, try_except, bind at 1.
    rewrite H. by rewrite (search_request_raises _ _ _ _ _ _ _ _ H).
  - intros query name limit w m Hm Hs Hf.
    unfold UseExisting.search_commands, bind, print, lift, SparseTextEmbedding,
      get_collection, bind, request.
    rewrite Hm. simpl. rewrite Hs.
    destruct (faults w) as [|[] fs]; simpl in *; congruence.
  - intros query name limit w m c field qe sv e w1 Hm Hf Hc Hfield Hne Hq Hsv Hs.
    rewrite (search_commands_run E query name limit w m c field Hm Hf Hc Hfield).
    assert (Heq : String.eqb field "" = false) by (by apply String.eqb_neq).
    rewrite Heq.
    unfold bind at 1. unfold lift at 1, query_embed. rewrite Hq.
    cbn [raised_as]. cbv iota beta.
    unfold bind at 1. unfold lift at 1. rewrite Hsv. cbv iota beta.
    unfold try_except, bind at 1. rewrite Hs.
    rewrite (search_raises _ _ _ _ _ _ _ Hs). reflexivity.
  - intros query name limit w. apply search_commands_raises_early.
Qed.
End SearchErrorsOfBoth.

(** C6, witness: in use_existing_collection the search of a collection
    that does not exist raises the client's exception, and a search
    request that times out gives the empty list. *)
Lemma search_of_a_missing_collection_raises :
  (UseExisting.search_commands Demo.env "close" "cmds" 3 Demo.empty_world).1
  = Raise (not_found "cmds") /\
  (UseExisting.search_commands Demo.env "close" "cmds" 3 search_times_out).1 = Ok [] /\
  last (out (UseExisting.search_commands Demo.env "close" "cmds" 3 search_times_out).2)
  = Some "Error during search: timed out".
Proof.
  split.
  - apply (proj1 (proj2 (proj2 (search_errors_are_swallowed Demo.env)))
             "close" "cmds" 3%Z Demo.empty_world Demo.sparse_model);
      [reflexivity | reflexivity | discriminate].
  - rewrite (proj1 (proj2 (proj2 (proj2 (search_errors_are_swallowed Demo.env))))
               "close" "cmds" 3%Z search_times_out Demo.sparse_model
               Demo.sparse_collection "text" _ _ unavailable _
               eq_refl ltac:(discriminate) eq_refl eq_refl ltac:(discriminate)
               eq_refl eq_refl eq_refl).
    split; reflexivity.
Defined.

(** ** Where the sparse vectors of the requests come from *)

Lemma from_library_ok E query sv :
  sparse_models_ok E -> from_library E query sv -> sparse_vector_ok sv.
Proof.
  intros Hok (n & m & t & s & Hm & He & Hi & Hv).
  assert (Hs : sparse_embedding_ok (ESparse s)).
  { apply (Hok n m Hm t). destruct query; auto. }
  unfold sparse_vector_ok. rewrite Hi, Hv. exact Hs.
Qed.

Lemma copied_ok E c : sparse_models_ok E -> copied E c -> call_ok c.
Proof.
  intros Hok Hc. unfold call_ok.
  destruct c as [n|n vc sc|n|name pts|name qv [[f sv]|] limit]; simpl in *;
    try apply Forall_nil_2.
  - induction Hc as [|p pts Hp _ IH]; simpl; [constructor|].
    unfold point_copied in Hp. destruct (pt_sparse_vectors p) as [[f sv]|]; simpl;
      [|done].
    constructor; [by eapply from_library_ok|done].
  - constructor; [by eapply from_library_ok|constructor].
Qed.

Section Copies.
Variable E : Env.

Lemma sparse_vector_of_copied n m t e sv (query : bool) :
  load_sparse E n = Returned m ->
  (if query then query_embed m t else embed m t) = Ok e ->
  sparse_vector_of e = Ok sv ->
  from_library E query sv.
Proof.
  intros Hm He Hsv. destruct e as [v|s]; [done|]. injection Hsv as <-.
  exists n, m, t, s. split; [done|]. split; [|done].
  destruct query; unfold query_embed, embed in He.
  - destruct (m_query_embed m t); simpl in He; by simplify_eq.
  - destruct (m_embed m t); simpl in He; by simplify_eq.
Qed.

Lemma sparse_point_copied n m text command p :
  load_sparse E n = Returned m ->
  CloudFixed.sparse_point m text command = Ok p -> point_copied E p.
Proof.
  intros Hm. unfold CloudFixed.sparse_point.
  destruct (embed m text) as [e|] eqn:He; simpl; [|done].
  destruct (sparse_vector_of e) as [sv|] eqn:Hsv; simpl; [|done].
  destruct (res_bind (item command "id") point_id); simpl; [|done].
  intros [= <-]. unfold point_copied. simpl.
  by apply (sparse_vector_of_copied n m text e sv false).
Qed.

Lemma dense_point_copied m text command p :
  CloudFixed.dense_point m text command = Ok p -> point_copied E p.
Proof.
  unfold CloudFixed.dense_point.
  destruct (embed m text) as [e|]; simpl; [|done].
  destruct (tolist e); simpl; [|done].
  destruct (res_bind (item command "id") point_id); simpl; [|done].
  by intros [= <-].
Qed.

Lemma loaded n m : SparseTextEmbedding E n = Ok m -> load_sparse E n = Returned m.
Proof.
  unfold SparseTextEmbedding. destruct (load_sparse E n); simpl; [|done].
  by intros [= <-].
Qed.

Lemma add_command_copies m name us ce ss command w0 w :
  (us = true -> exists n, load_sparse E n = Returned m) ->
  issued (copied E) (calls w0) (calls w) ->
  post (CloudFixed.add_command E m name us ce ss command) w
    (fun _ w' => issued (copied E) (calls w0) (calls w')).
Proof.
  intros Hm H.
  unfold CloudFixed.add_command, CloudFixed.upsert_sparse, CloudFixed.upsert_dense.
  wp_io.
  all: try match goal with
           | H : _ && _ = true |- _ => apply andb_true_iff in H as [-> _]
           end.
  all: try match goal with
           | H : CloudFixed.sparse_point _ _ _ = Ok ?p |- _ =>
               assert (copied E (CUpsert name [p]))
                 by (destruct (Hm eq_refl) as [n Hn]; constructor; [|constructor];
                     by eapply sparse_point_copied)
           | H : CloudFixed.dense_point _ _ _ = Ok ?p |- _ =>
               assert (copied E (CUpsert name [p]))
                 by (constructor; [|constructor]; by eapply dense_point_copied)
           end.
  all: eauto 8 using issued_printed, issued_requested, issued_upserted.
Qed.

Lemma create_embeddings_copies commands use_sparse w :
  post (CloudFixed.create_embeddings_for_commands E commands use_sparse) w
    (fun _ w' => issued (copied E) (calls w) (calls w')).
Proof.
  pose proof (issued_refl (copied E) (calls w)) as H.
  assert (Hg : forall n, copied E (CGetCollection n)) by done.
  assert (Hc : forall n vc sc, copied E (CCreateCollection n vc sc)) by done.
  unfold CloudFixed.create_embeddings_for_commands, CloudFixed.prepare_collection.
  wp_io; eauto 8 using issued_printed, issued_requested, issued_created.
  all: apply (post_for_each _ _ (fun w1 => issued (copied E) (calls w) (calls w1)));
    [eauto 12 using issued_printed, issued_requested, issued_created
    | |intros; wp; eauto using issued_printed].
  all: intros x w1 _ Hw1; eapply post_mono;
    [apply add_command_copies;
     [intros; first [discriminate | eexists; by eapply loaded] | done]|].
  all: by intros [[]|e] w2 Hw2.
Qed.

Lemma choose_collection_copies query name qe w0 w :
  issued (copied E) (calls w0) (calls w) ->
  post (CloudFixed.choose_collection E query name qe) w
    (fun r w' => issued (copied E) (calls w0) (calls w') /\
                 match r with
                 | Ok (Some (true, qe', _)) => qe' = qe
                 | _ => True
                 end).
Proof.
  intros H.
  assert (Hg : forall n, copied E (CGetCollection n)) by done.
  unfold CloudFixed.choose_collection, CloudFixed.fall_back.
  wp; eauto 8 using issued_printed, issued_requested.
Qed.

Lemma perform_search_copies us qe name limit w0 w :
  (us = true -> forall sv, sparse_vector_of qe = Ok sv -> from_library E true sv) ->
  issued (copied E) (calls w0) (calls w) ->
  post (CloudFixed.perform_search E us qe name limit) w
    (fun _ w' => issued (copied E) (calls w0) (calls w')).
Proof.
  intros Hq H. unfold CloudFixed.perform_search, CloudFixed.search_request.
  wp.
  all: try match goal with
           | H : sparse_vector_of _ = Ok ?sv |- _ =>
               assert (copied E (CSearch name (Some [0%float]) (Some ("text", sv)) limit))
                 by (by apply Hq)
           end.
  all: try match goal with
           | |- context [CSearch ?n ?qv None ?l] =>
               assert (copied E (CSearch n qv None l)) by done
           end.
  all: eauto 8 using issued_printed, issued_requested.
Qed.

Lemma search_psadt_commands_copies query use_sparse limit w :
  post (CloudFixed.search_psadt_commands E query use_sparse limit) w
    (fun _ w' => issued (copied E) (calls w) (calls w')).
Proof.
  pose proof (issued_refl (copied E) (calls w)) as H.
  unfold CloudFixed.search_psadt_commands.
  wp; eauto using issued_printed.
  - eapply post_mono; [apply choose_collection_copies; eauto using issued_printed|].
    intros [[[[[] qe'] name]|]|e] w1 [Hs Hq]; cbv beta iota; try done.
    + subst qe'. apply perform_search_copies; [|done].
      intros _ sv Hsv.
      eapply (sparse_vector_of_copied _ _ _ _ _ true); [by eapply loaded| |done].
      eassumption.
    + by apply perform_search_copies.
  - apply perform_search_copies; [done|]. by apply issued_printed.
Qed.

Lemma field_point_copied n m field command p :
  load_sparse E n = Returned m ->
  field_point E m field command = Ok p -> point_copied E p.
Proof.
  intros Hm. unfold field_point.
  destruct (UseExisting.command_text E command) as [text|]; [simpl|done].
  destruct (embed m text) as [e|] eqn:He; [simpl|done].
  destruct (sparse_vector_of e) as [sv|] eqn:Hsv; [simpl|done].
  destruct (res_bind (item command "id") point_id); [simpl|done].
  intros [= <-]. unfold point_copied. simpl.
  by apply (sparse_vector_of_copied n m text e sv false).
Qed.

Lemma field_points_copied n m field commands pts :
  load_sparse E n = Returned m ->
  res_mapM (field_point E m field) commands = Ok pts ->
  Forall (point_copied E) pts.
Proof.
  intros Hm. revert pts. induction commands as [|c commands IH]; intros pts; simpl.
  - intros [= <-]. constructor.
  - destruct (field_point E m field c) as [p|] eqn:Hp; [simpl|done].
    destruct (res_mapM (field_point E m field) commands) as [ps|]; [simpl|done].
    intros [= <-]. constructor; [by eapply field_point_copied|by apply IH].
Qed.

Lemma post_make_points m field commands w
    (Q : res (list PointStruct) -> world -> Prop) :
  Q (res_mapM (field_point E m field) commands) w ->
  post (mapM (UseExisting.make_point E m field) commands) w Q.
Proof. unfold post. by rewrite make_points_pure. Qed.

Lemma add_to_existing_collection_copies commands name url w :
  post (UseExisting.add_to_existing_collection E commands name url) w
    (fun _ w' => issued (copied E) (calls w) (calls w')).
Proof.
  pose proof (issued_refl (copied E) (calls w)) as H.
  assert (Hg : forall n, copied E (CGetCollection n)) by done.
  unfold UseExisting.add_to_existing_collection.
  wp_io; eauto 8 using issued_printed, issued_requested.
  all: apply post_make_points; wp_step; cbv beta;
    eauto 8 using issued_printed, issued_requested.
  all: match goal with
       | Hpts : res_mapM _ _ = Ok ?pts |- _ =>
           assert (Hu : forall n, copied E (CUpsert n pts))
             by (intros; eapply field_points_copied; [by eapply loaded|exact Hpts])
       end.
  all: wp_step; cbv beta.
  all: wp_io; eauto 10 using issued_printed, issued_requested, issued_upserted.
Qed.

Lemma search_commands_copies query name limit w :
  post (UseExisting.search_commands E query name limit) w
    (fun _ w' => issued (copied E) (calls w) (calls w')).
Proof.
  pose proof (issued_refl (copied E) (calls w)) as H.
  assert (Hg : forall n, copied E (CGetCollection n)) by done.
  unfold UseExisting.search_commands.
  wp.
  all: try match goal with
           | Hm : SparseTextEmbedding E _ = Ok ?m,
             Hq : query_embed ?m _ = Ok ?e,
             Hs : sparse_vector_of ?e = Ok ?sv |- _ =>
               assert (from_library E true sv)
                 by (eapply (sparse_vector_of_copied _ _ _ _ _ true);
                     [by eapply loaded|exact Hq|exact Hs])
           end.
  all: eauto 8 using issued_printed, issued_requested.
  all: repeat apply issued_printed; apply issued_requested;
    [done|eauto 8 using issued_printed, issued_requested].
Qed.

(** C8 (as amended).  The workflows neither check nor change a sparse
    vector: every sparse vector that the ingestion and the search of
    psadt_fastembed_cloud_fixed and of use_existing_collection put into a
    request consists of the indices and the values of an embedding the
    library returned, copied (a corpus embedding in an upsert, the query
    embedding in a search).  So the invariant (equally long sequences,
    non-negative and pairwise distinct indices) holds of these vectors
    when it holds of the library's embeddings, and not otherwise. *)
Theorem sparse_vectors_are_the_embeddings_copied :
  (forall commands use_sparse w,
      issued (copied E) (calls w)
        (calls (CloudFixed.create_embeddings_for_commands E commands use_sparse w).2)) /\
  (forall query use_sparse limit w,
      issued (copied E) (calls w)
        (calls (CloudFixed.search_psadt_commands E query use_sparse limit w).2)) /\
  (forall commands name url w,
      issued (copied E) (calls w)
        (calls (UseExisting.add_to_existing_collection E commands name url w).2)) /\
  (forall query name limit w,
      issued (copied E) (calls w)
        (calls (UseExisting.search_commands E query name limit w).2)) /\
  (forall c, sparse_models_ok E -> copied E c ->
             Forall sparse_vector_ok (sparse_vectors_of_call c)).
Proof.
  split; [|split; [|split; [|split]]]; intros.
  - apply create_embeddings_copies.
  - apply search_psadt_commands_copies.
  - apply add_to_existing_collection_copies.
  - apply search_commands_copies.
  - by apply (copied_ok E).
Qed.
End Copies.

(** C8, witness: the sample models satisfy the invariant, and so do the
    requests of a sparse ingestion with them. *)
Lemma demo_sparse_vectors_are_well_formed :
  sparse_models_ok Demo.env /\
  sound Demo.empty_world
    (CloudFixed.create_embeddings_for_commands Demo.env [Demo.progress] true
       Demo.empty_world).2.
Proof.
  split; [exact demo_sparse_models_ok|].
  eapply issued_mono;
    [|exact (proj1 (sparse_vectors_are_the_embeddings_copied Demo.env)
               [Demo.progress] true Demo.empty_world)].
  intros c.
  exact (proj2 (proj2 (proj2 (proj2 (sparse_vectors_are_the_embeddings_copied Demo.env))))
           c demo_sparse_models_ok).
Defined.

(** C8, counterexample.  With a model whose embedding has three indices,
    one of them twice and one negative, for one value, the sparse
    ingestion ends normally and the upsert carries that vector as it
    is. *)
Lemma malformed_embedding_is_sent_as_it_is :
  let run := CloudFixed.create_embeddings_for_commands skewed_env [Demo.progress] true
               Demo.empty_world in
  let sv := {| sv_indices := [3; 3; -1]%Z; sv_values := [1%float] |} in
  run.1 = Ok tt /\
  concat (map sparse_vectors_of_call (calls run.2)) = [sv] /\
  length (sv_indices sv) = 3 /\ length (sv_values sv) = 1 /\
  (store run.2 !! "psadt_commands" ≫= fun c =>
     pt_sparse_vectors <$> c_points c !! IdInt 2)
  = Some (Some ("text", sv)).
Proof. repeat split; vm_compute; reflexivity. Qed.

(** ** The points of a complete batch run *)

Section CompleteRun.
Variable E : Env.

Lemma batch_points m sparse :
  forall l ps off,
    length ps = length l ->
    (forall n it p, l !! n = Some it -> ps !! n = Some p ->
                    positioned E m sparse (off + n) it = Ok p) ->
    exists texts embs,
      res_mapM (GenerateEmbeddings.create_text_representation E) l = Ok texts /\
      res_mapM (embed m) texts = Ok embs /\
      forall i j, (i + Z.of_nat j)%Z = Z.of_nat off ->
        GenerateEmbeddings.make_points sparse i j (zip l embs) = Ok ps.
Proof.
  induction l as [|it l IH]; intros [|p ps] off Hlen H; try done.
  - exists [], []. by repeat split.
  - pose proof (H 0 it p eq_refl eq_refl) as H0. rewrite Nat.add_0_r in H0.
    destruct (IH ps (S off)) as (texts & embs & Ht & He & Hmk).
    { simpl in Hlen. lia. }
    { intros n it' p' Hi Hp. rewrite <- (H (S n) it' p' Hi Hp). f_equal. lia. }
    unfold positioned in H0.
    destruct (GenerateEmbeddings.create_text_representation E it) as [text|] eqn:Hx;
      [simpl in H0|done].
    destruct (embed m text) as [e|] eqn:Hem; [simpl in H0|done].
    destruct (point_id (dict_get_default "id" (VInt (Z.of_nat off)) it)) as [id|] eqn:Hid;
      [simpl in H0|done].
    exists (text :: texts), (e :: embs). simpl. rewrite Hx, Ht. simpl.
    rewrite Hem, He. simpl. repeat split.
    intros i j Hij. unfold GenerateEmbeddings.make_point. rewrite Hij, Hid.
    rewrite (Hmk i (S j)) by lia.
    destruct sparse.
    + destruct (sparse_vector_of e); simpl in *; by simplify_eq.
    + destruct (tolist e); simpl in *; by simplify_eq.
Qed.

Lemma upsert_goes_through name pts w c :
  faults w = [] ->
  store w !! name = Some c ->
  (forall p, p ∈ pts -> store_accepts E c p = true) ->
  upsert E name pts w = (Ok tt, upserted name c pts w).
Proof.
  intros Hf Hc Ha. unfold upsert, bind, request. rewrite Hf. cbn [store requested].
  rewrite Hc.
  assert (Hall : forallb (store_accepts E c) pts = true).
  { apply forallb_forall. intros p Hp. apply Ha. by apply list_elem_of_In. }
  by rewrite Hall.
Qed.

Lemma process_batch_goes_through m items coll sparse (bs : Z) a pts w1 c1 :
  (0 < bs)%Z ->
  positioned_all E m sparse items pts ->
  (forall c p, p ∈ pts -> store_accepts E c p = true) ->
  faults w1 = [] ->
  store w1 !! coll = Some c1 ->
  post (GenerateEmbeddings.process_batch E m items coll sparse bs (Z.of_nat a * bs)) w1
    (fun r w2 =>
       r = Ok tt /\ faults w2 = [] /\
       store w2
       = <[coll := with_points c1 (take (Z.to_nat bs) (drop (a * Z.to_nat bs) pts))]>
           (store w1) /\
       calls w2
       = calls w1 ++ [CUpsert coll (take (Z.to_nat bs) (drop (a * Z.to_nat bs) pts))]).
Proof.
  intros Hbs [Hlen Hpos] Hacc Hf Hc.
  assert (Hi : Z.to_nat (Z.of_nat a * bs) = a * Z.to_nat bs)
    by (rewrite Z2Nat.inj_mul by lia; by rewrite Nat2Z.id).
  assert (Hsl : py_slice items (Z.of_nat a * bs) (Z.of_nat a * bs + bs)
                = take (Z.to_nat bs) (drop (a * Z.to_nat bs) items)).
  { unfold py_slice. rewrite Hi. f_equal. f_equal. lia. }
  set (ps := take (Z.to_nat bs) (drop (a * Z.to_nat bs) pts)).
  destruct (batch_points m sparse
              (take (Z.to_nat bs) (drop (a * Z.to_nat bs) items)) ps
              (a * Z.to_nat bs)) as (texts & embs & Ht & He & Hmk).
  { unfold ps. by rewrite !length_take, !length_drop, Hlen. }
  { intros n it p Hit Hp. unfold ps in Hp.
    apply lookup_take_Some in Hit as [Hit _]. apply lookup_take_Some in Hp as [Hp _].
    rewrite lookup_drop in Hit. rewrite lookup_drop in Hp. by apply Hpos. }
  unfold GenerateEmbeddings.process_batch. rewrite Hsl.
  apply post_bind, post_print.
  apply post_bind, post_lift. rewrite Ht.
  apply post_bind, post_lift. rewrite He.
  apply post_bind, post_lift.
  rewrite (Hmk (Z.of_nat a * bs)%Z 0) by lia.
  assert (Hin : forall p, p ∈ ps -> store_accepts E c1 p = true).
  { intros p Hp. apply Hacc. unfold ps in Hp.
    apply list_elem_of_lookup in Hp as [n Hn].
    apply lookup_take_Some in Hn as [Hn _]. rewrite lookup_drop in Hn.
    by eapply list_elem_of_lookup_2. }
  apply post_bind. unfold post at 1.
  set (w1' := printed _ w1).
  rewrite (upsert_goes_through coll ps w1' c1 Hf Hc Hin).
  cbn [fst snd]. apply post_print. repeat split. simpl. by rewrite Hf.
Qed.

Lemma batches_go_through m items coll sparse (bs : Z) pts c0 w :
  (0 < bs)%Z ->
  positioned_all E m sparse items pts ->
  (forall c p, p ∈ pts -> store_accepts E c p = true) ->
  forall cnt a w1,
    faults w1 = [] ->
    store w1 = <[coll := with_points c0 (take (a * Z.to_nat bs) pts)]> (store w) ->
    sent w w1 (take (a * Z.to_nat bs) pts) ->
    post (for_each (map (fun k => Z.of_nat k * bs)%Z (seq a cnt))
            (GenerateEmbeddings.process_batch E m items coll sparse bs)) w1
      (fun r w2 =>
         r = Ok tt /\ faults w2 = [] /\
         store w2 = <[coll := with_points c0 (take ((a + cnt) * Z.to_nat bs) pts)]>
                      (store w) /\
         sent w w2 (take ((a + cnt) * Z.to_nat bs) pts)).
Proof.
  intros Hbs Hpos Hacc. induction cnt as [|cnt IH]; intros a w1 Hf Hs Hsent.
  - apply post_ret. rewrite Nat.add_0_r. done.
  - simpl. apply post_bind. eapply post_mono.
    + apply (process_batch_goes_through m items coll sparse bs a pts w1
               (with_points c0 (take (a * Z.to_nat bs) pts))); try done.
      rewrite Hs. apply lookup_insert_eq.
    + intros r w2 (-> & Hf2 & Hs2 & Hc2).
      assert (Htk : take (a * Z.to_nat bs) pts
                    ++ take (Z.to_nat bs) (drop (a * Z.to_nat bs) pts)
                    = take (S a * Z.to_nat bs) pts).
      { rewrite take_take_drop. f_equal. lia. }
      eapply post_mono.
      * apply (IH (S a) w2); [done| |].
        -- rewrite Hs2, Hs, insert_insert_eq. f_equal.
           unfold with_points. simpl. by rewrite <- upsert_points_app, Htk.
        -- rewrite <- Htk. by eapply sent_upsert.
      * intros r w3 (-> & Hf3 & Hs3 & Hc3).
        replace ((a + S cnt) * Z.to_nat bs) with ((S a + cnt) * Z.to_nat bs) by lia.
        done.
Qed.

Lemma main_goes_through input items coll (sparse : bool) (bs : Z) w m c0 pts :
  (0 < bs)%Z ->
  faults w = [] ->
  (if sparse then load_sparse E BM25 else load_dense E BGE_SMALL) = Returned m ->
  store w !! coll = Some c0 ->
  positioned_all E m sparse items pts ->
  (forall c p, p ∈ pts -> store_accepts E c p = true) ->
  post (GenerateEmbeddings.main E input items coll sparse bs) w
    (fun r w' => r = Ok tt /\ sent w w' pts /\
                 store w' = <[coll := with_points c0 pts]> (store w)).
Proof.
  intros Hbs Hf Hm Hc Hpos Hacc.
  unfold GenerateEmbeddings.main.
  apply post_bind, post_print. apply post_bind, post_print.
  apply post_bind, post_print. apply post_bind, post_lift.
  assert (Hl : (if sparse then SparseTextEmbedding E BM25 else TextEmbedding E BGE_SMALL)
               = Ok m).
  { unfold SparseTextEmbedding, TextEmbedding. destruct sparse; by rewrite Hm. }
  rewrite Hl.
  apply post_bind, post_lift. unfold py_range0.
  assert (H0 : (bs =? 0)%Z = false) by lia.
  assert (H1 : (0 <? bs)%Z = true) by lia.
  rewrite H0, H1.
  destruct (range_facts (length items) bs Hbs) as [_ Hge].
  apply post_bind. eapply post_mono.
  - apply (batches_go_through m items coll sparse bs pts c0 w Hbs Hpos Hacc _ 0);
      [done| |].
    + simpl. symmetry. apply insert_id. rewrite Hc. by destruct c0.
    + simpl. exact (sent_refl w).
  - intros r w1 (-> & Hf1 & Hs1 & Hsent).
    apply post_print.
    destruct Hpos as [Hlen _].
    rewrite take_ge in Hs1, Hsent by (simpl; lia).
    done.
Qed.

(** C10.  In generate_embeddings.py the points of the upsert requests
    follow the input: the point at position [k] carries item [k], and
    its id is the item's [id] or, for an item without one, the position
    [k] itself (batch start plus offset).  So two items without id never
    get the same id.  After a complete run the collection holds what it
    held with these points upserted in order: of two points with the
    same id, for instance an item without id at position [k] and an item
    with the explicit id [k], the later one is what the collection
    holds.  And the run is complete, sending and storing the point of
    every position, when the batch size is positive, no request fails,
    the model loads, the collection exists, and every item has a text,
    an embedding of the mode's kind and a usable id that the store
    accepts. *)
Theorem default_ids_are_global_positions input items coll (sparse : bool) (bs : Z) w :
  let run := GenerateEmbeddings.main E input items coll sparse bs w in
  (exists pts,
    sent w run.2 pts /\
    placed items pts /\
    (forall k p it,
        pts !! k = Some p -> items !! k = Some it -> dict_get "id" it = None ->
        pt_id p = IdInt (Z.of_nat k)) /\
    (forall k1 k2 p1 p2 it1 it2,
        k1 <> k2 ->
        pts !! k1 = Some p1 -> pts !! k2 = Some p2 ->
        items !! k1 = Some it1 -> items !! k2 = Some it2 ->
        dict_get "id" it1 = None -> dict_get "id" it2 = None ->
        pt_id p1 <> pt_id p2) /\
    ((0 < bs)%Z -> run.1 = Ok tt ->
     length pts = length items /\
     forall c0, store w !! coll = Some c0 ->
       store run.2 = <[coll := with_points c0 pts]> (store w) /\
       forall k1 k2 p1 p2,
         k1 < k2 -> pts !! k1 = Some p1 -> pts !! k2 = Some p2 ->
         pt_id p1 = pt_id p2 ->
         (forall j q, k2 < j -> pts !! j = Some q -> pt_id q <> pt_id p2) ->
         c_points (with_points c0 pts) !! pt_id p1 = Some p2)) /\
  (forall m c0 pts,
      (0 < bs)%Z ->
      faults w = [] ->
      (if sparse then load_sparse E BM25 else load_dense E BGE_SMALL) = Returned m ->
      store w !! coll = Some c0 ->
      positioned_all E m sparse items pts ->
      (forall c p, p ∈ pts -> store_accepts E c p = true) ->
      run.1 = Ok tt /\
      sent w run.2 pts /\
      store run.2 = <[coll := with_points c0 pts]> (store w)).
Proof.
  intros run. split.
  - destruct (main_post E input items coll sparse bs w) as (pts & Hs & Hp & Hok).
    fold run in Hs, Hok. exists pts. split; [done|]. split; [done|]. split; [|split].
    + intros k p it. by apply placed_default_id.
    + intros k1 k2 p1 p2 it1 it2 Hne H1 H2 Hi1 Hi2 Hn1 Hn2.
      rewrite (placed_default_id items pts k1 p1 it1),
        (placed_default_id items pts k2 p2 it2) by done.
      intros [= Heq]. lia.
    + intros Hbs Hr. destruct (Hok Hbs Hr) as [Hst Hl]. split; [done|].
      intros c0 Hc0. unfold stored in Hst. rewrite Hc0 in Hst. split; [done|].
      intros k1 k2 p1 p2 Hlt H1 H2 Heq Hlater. rewrite Heq.
      by apply (upsert_points_last pts (c_points c0) k2 p2).
  - intros m c0 pts Hbs Hf Hm Hc Hpos Hacc.
    exact (main_goes_through input items coll sparse bs w m c0 pts
             Hbs Hf Hm Hc Hpos Hacc).
Qed.
End CompleteRun.

(** C10, witness: the run on the two items, one per batch.  Both points
    are sent, each with id 0: the first by its position, the second by
    its explicit id; the collection ends up holding the second. *)
Lemma default_ids_of_two_items :
  let w := Demo.world_with "psadt_commands" Demo.dense_collection in
  let run := GenerateEmbeddings.main Demo.env "items.json" [first_item; second_item]
               "psadt_commands" false 1 w in
  let pts := [ {| pt_id := IdInt 0; pt_payload := first_item;
                  pt_vector := Some [0.25; 0.75]%float; pt_sparse_vectors := None |};
               {| pt_id := IdInt 0; pt_payload := second_item;
                  pt_vector := Some [0.25; 0.75]%float; pt_sparse_vectors := None |} ] in
  positioned_all Demo.env Demo.dense_model false [first_item; second_item] pts /\
  run.1 = Ok tt /\
  sent w run.2 pts /\
  store run.2 = <["psadt_commands" := with_points Demo.dense_collection pts]> (store w).
Proof.
  cbv zeta.
  assert (Hpos : positioned_all Demo.env Demo.dense_model false
                   [first_item; second_item]
                   [ {| pt_id := IdInt 0; pt_payload := first_item;
                        pt_vector := Some [0.25; 0.75]%float;
                        pt_sparse_vectors := None |};
                     {| pt_id := IdInt 0; pt_payload := second_item;
                        pt_vector := Some [0.25; 0.75]%float;
                        pt_sparse_vectors := None |} ]).
  { split; [reflexivity|].
    intros [|[|k]] it p; simpl; intros [= <-] [= <-]; reflexivity. }
  split; [exact Hpos|].
  exact (proj2 (default_ids_are_global_positions Demo.env "items.json"
                  [first_item; second_item] "psadt_commands" false 1%Z
                  (Demo.world_with "psadt_commands" Demo.dense_collection))
           Demo.dense_model Demo.dense_collection _
           ltac:(lia) eq_refl eq_refl eq_refl Hpos ltac:(reflexivity)).
Defined.
